(** * mccortex: packed paths, the graph walker and the [clean] command line

    A shallow embedding of
    - [src/common/graph_walker.c]  (the path-guided branch chooser),
    - [src/commands/ctx_clean.c]   (the flag loop of [ctx clean]),
    - the packed-path primitives exercised by [src/tests/packed_path_tests.c],
    - the checked reads of [src/basic/file_util.h],
    followed by the properties established about them. *)

From Stdlib Require Import ZArith NArith Lia Bool Ascii.
From stdpp Require Import base list sets strings sorting.

Local Open Scope Z_scope.

(* ===================================================================== *)
(** * Part I. Definitions                                                 *)
(* ===================================================================== *)

(** ** Nucleotides and orientations *)

(** [Nucleotide] is the two-bit enum A=0, C=1, G=2, T=3. *)
Inductive Nucleotide : Type := NucA | NucC | NucG | NucT.

(** [Orientation] is the enum FORWARD=0, REVERSE=1. *)
Inductive Orientation : Type := FORWARD | REVERSE.

#[global] Instance Nucleotide_eq_dec : EqDecision Nucleotide.
Proof. solve_decision. Defined.

#[global] Instance Orientation_eq_dec : EqDecision Orientation.
Proof. solve_decision. Defined.

Definition nuc_code (n : Nucleotide) : Z :=
  match n with NucA => 0 | NucC => 1 | NucG => 2 | NucT => 3 end.

(** The nucleotide held in the two low bits of [z]. *)
Definition nuc_of_code (z : Z) : Nucleotide :=
  match Z.land z 3 with
  | 0 => NucA | 1 => NucC | 2 => NucG | _ => NucT
  end.

Definition orient_code (o : Orientation) : Z :=
  match o with FORWARD => 0 | REVERSE => 1 end.

Definition opposite_orientation (o : Orientation) : Orientation :=
  match o with FORWARD => REVERSE | REVERSE => FORWARD end.

(** ** Packed paths *)

Module PackedPath.

(** A byte buffer: every cell is a [uint8_t], kept as a [Z] in [0, 256). *)
Definition bytes := list Z.

(** Two-bit code of base [i] of [src[0..n)], zero past the end. *)
Definition base_code (src : list Nucleotide) (n i : nat) : Z :=
  if (i <? n)%nat then nuc_code (nth i src NucA) else 0.

(** Modelled from the spec: [pack_bases] lives in packed_path.h, which is
    not among the sources.  Section 4.2: "base i occupies bits (2i, 2i+1)
    of byte i/4, little-endian within the byte.  Unused trailing bits are
    zero."  [packed_byte src n j] is byte [j] of the packed form. *)
Definition packed_byte (src : list Nucleotide) (n j : nat) : Z :=
  Z.lor (Z.lor (base_code src n (4 * j))
               (Z.shiftl (base_code src n (4 * j + 1)) 2))
        (Z.lor (Z.shiftl (base_code src n (4 * j + 2)) 4)
               (Z.shiftl (base_code src n (4 * j + 3)) 6)).

(** Number of bytes holding [n] bases: [(n+3)/4], as in the tests. *)
Definition packed_nbytes (n : nat) : nat := ((n + 3) / 4)%nat.

(** [write_bytes dst bs]: the cells [dst[0..|bs|)] are overwritten by
    [bs]; the rest of [dst] is left alone.  The caller owns at least
    [|bs|] bytes at [dst]. *)
Definition write_bytes (dst bs : bytes) : bytes :=
  bs ++ drop (length bs) dst.

(** Modelled from the spec: [pack_bases(dst, src, n)] of packed_path.h
    (not among the sources) writes the [(n+3)/4] packed bytes of
    [src[0..n)] to [dst]. *)
Definition pack_bases (dst : bytes) (src : list Nucleotide) (n : nat) : bytes :=
  write_bytes dst (map (packed_byte src n) (seq 0 (packed_nbytes n))).

(** Base [i] of a packed buffer: bits [2(i mod 4)] and [2(i mod 4)+1] of
    byte [i/4]. *)
Definition packed_fetch (packed : bytes) (i : nat) : Nucleotide :=
  nuc_of_code (Z.shiftr (nth (i / 4) packed 0) (2 * Z.of_nat (i mod 4))).

(** Modelled from the spec: [unpack_bases(packed, dst, n)] of
    packed_path.h (not among the sources) is the inverse reading, the
    [fetch] of section 4.2: it unpacks [n] nucleotides. *)
Definition unpack_bases (packed : bytes) (n : nat) : list Nucleotide :=
  map (packed_fetch packed) (seq 0 n).

(** Modelled from the spec: [packed_cpy(dst, src, shift, len)] of
    packed_path.h (not among the sources).  Section 4.2: it "copies
    len-shift_bases bases starting at base offset shift_bases of src into
    dst starting at base offset 0, fully re-aligned"; as for
    [pack_bases], unused trailing bits of the last byte written are
    zero (scenario S6). *)
Definition packed_cpy (dst src : bytes) (shift len : nat) : bytes :=
  pack_bases dst
    (map (fun k => packed_fetch src (shift + k)) (seq 0 (len - shift)))
    (len - shift).

(** [packed_cpy] into [buf + off]: the bytes before [off] are not part of
    the destination. *)
Definition packed_cpy_at (buf : bytes) (off : nat) (src : bytes)
    (shift len : nat) : bytes :=
  take off buf ++ packed_cpy (drop off buf) src shift len.

(** [PP_LENMASK]: the low 31 bits. *)
Definition PP_LENMASK : Z := 2 ^ 31 - 1.

(** A [PathLen] is a [uint32_t]. *)
Definition u32 (z : Z) : Z := z mod 2 ^ 32.

(** Modelled from the spec: [packedpath_combine_lenorient] of
    packed_path.h (not among the sources).  Section 4.2:
    "len | (orient << 31)". *)
Definition packedpath_combine_lenorient (len orient : Z) : Z :=
  u32 (Z.lor len (Z.shiftl orient 31)).

(** Modelled from the spec: the two halves of the inverse, [packedpath_len]
    and [packedpath_or] of packed_path.h (not among the sources).
    Section 3: "low 31 bits = path length in bases, high bit =
    orientation". *)
Definition packedpath_len (merged : Z) : Z := Z.land merged PP_LENMASK.

Definition packedpath_or (merged : Z) : Z := Z.shiftr merged 31.

Definition packedpath_split (merged : Z) : Z * Z :=
  (packedpath_len merged, packedpath_or merged).

End PackedPath.

(** ** The [clean] command line *)

Module CtxClean.

(** [cmd_print_usage] (cmd.h, not among the sources) prints the message
    and the usage text and leaves the process with a non-zero status; it
    does not return.  A computation of [ctx_clean] is therefore either
    still running ([Go]) or has left through [cmd_print_usage]
    ([UsageExit]). *)
Inductive cmd (A : Type) : Type :=
  | Go (a : A)
  | UsageExit (msg : string).
Arguments Go {A} a.
Arguments UsageExit {A} msg.

Definition cmd_bind {A B} (m : cmd A) (k : A → cmd B) : cmd B :=
  match m with
  | Go a => k a
  | UsageExit msg => UsageExit msg
  end.

(** The local variables of [ctx_clean] set by the flag loop. *)
Record CleanOpts (double : Type) : Type := mkCleanOpts {
  tip_cleaning : bool;
  supernode_cleaning : bool;
  max_tip_len : N;
  threshold : N;
  seq_depth : double;
  dump_covgs : option string;
  len_before_path : option string;
  len_after_path : option string;
}.
Arguments mkCleanOpts {double}.
Arguments tip_cleaning {double}.
Arguments supernode_cleaning {double}.
Arguments max_tip_len {double}.
Arguments threshold {double}.
Arguments seq_depth {double}.
Arguments dump_covgs {double}.
Arguments len_before_path {double}.
Arguments len_after_path {double}.

(** What [ctx_clean] does once the command line is accepted: it opens the
    graph files [paths] one after the other ([graph_file_open]) and then
    loads and cleans the graph. *)
Record CleanRun (double : Type) : Type := mkCleanRun {
  run_opts : CleanOpts double;
  run_out_ctx_path : option string;
  run_paths : list string;
}.
Arguments mkCleanRun {double}.

Definition msg_tips : string := "--tips <L> needs an integer argument > 1".
Definition msg_covgs : string := "--covgs <out.csv> needs an argument".
Definition msg_threshold : string :=
  "--threshold <T> needs an integer argument > 1".
Definition msg_kdepth : string :=
  "--kdepth <C> needs a positive decimal number > 1".
Definition msg_len_before : string := "--len-before <out.csv> needs a path".
Definition msg_len_after : string := "--len-after <out.csv> needs a path".

(** [argv[argi][0] == '-'] *)
Definition starts_with_dash (a : string) : bool :=
  match a with
  | String c _ => Ascii.eqb c "-"%char
  | EmptyString => false
  end.

Section Clean.

(** The number parsers of util.h are not among the sources.  Each returns
    false on a string that is not entirely a number of its kind, and
    otherwise stores the number; they are parameters here, as are the
    [double]s and the two comparisons [ctx_clean] makes on them. *)
Variable double : Type.
Variable double_neg1 : double.
Variable double_le_1 : double → bool.
Variable double_gt_0 : double → bool.
Variable parse_entire_size : string → option N.
Variable parse_entire_uint : string → option N.
Variable parse_entire_double : string → option double.

(** The initial values of the locals. *)
Definition init_opts : CleanOpts double :=
  mkCleanOpts false false 0%N 0%N double_neg1 None None None.

(** The flag loop
    [for(argi = 0; argi < argc && argv[argi][0] == '-'; argi++)],
    run on what is left of [argv] from [argi] on.  It yields the locals
    and the arguments left over, the graph files. *)
Fixpoint flag_loop (argv : list string) (o : CleanOpts double)
    : cmd (CleanOpts double * list string) :=
  match argv with
  | [] => Go (o, [])
  | a :: rest =>
    if negb (starts_with_dash a) then Go (o, argv)
    else if String.eqb a "--tips" then
      match rest with
      | [] => UsageExit msg_tips
      | v :: rest' =>
        match parse_entire_size v with
        | None => UsageExit msg_tips
        | Some l =>
          if (l <=? 1)%N then UsageExit msg_tips
          else flag_loop rest'
                 (mkCleanOpts true (supernode_cleaning o) l (threshold o)
                    (seq_depth o) (dump_covgs o) (len_before_path o)
                    (len_after_path o))
        end
      end
    else if String.eqb a "--supernodes" then
      flag_loop rest
        (mkCleanOpts (tip_cleaning o) true (max_tip_len o) (threshold o)
           (seq_depth o) (dump_covgs o) (len_before_path o)
           (len_after_path o))
    else if String.eqb a "--covgs" then
      match rest with
      | [] => UsageExit msg_covgs
      | v :: rest' =>
        flag_loop rest'
          (mkCleanOpts (tip_cleaning o) (supernode_cleaning o)
             (max_tip_len o) (threshold o) (seq_depth o) (Some v)
             (len_before_path o) (len_after_path o))
      end
    else if String.eqb a "--threshold" then
      match rest with
      | [] => UsageExit msg_threshold
      | v :: rest' =>
        match parse_entire_uint v with
        | None => UsageExit msg_threshold
        | Some t =>
          if (t <=? 1)%N then UsageExit msg_threshold
          else flag_loop rest'
                 (mkCleanOpts (tip_cleaning o) (supernode_cleaning o)
                    (max_tip_len o) t (seq_depth o) (dump_covgs o)
                    (len_before_path o) (len_after_path o))
        end
      end
    else if String.eqb a "--kdepth" then
      match rest with
      | [] => UsageExit msg_kdepth
      | v :: rest' =>
        match parse_entire_double v with
        | None => UsageExit msg_kdepth
        | Some d =>
          if double_le_1 d then UsageExit msg_kdepth
          else flag_loop rest'
                 (mkCleanOpts (tip_cleaning o) (supernode_cleaning o)
                    (max_tip_len o) (threshold o) d (dump_covgs o)
                    (len_before_path o) (len_after_path o))
        end
      end
    else if String.eqb a "--len-before" then
      match rest with
      | [] => UsageExit msg_len_before
      | v :: rest' =>
        flag_loop rest'
          (mkCleanOpts (tip_cleaning o) (supernode_cleaning o)
             (max_tip_len o) (threshold o) (seq_depth o) (dump_covgs o)
             (Some v) (len_after_path o))
      end
    else if String.eqb a "--len-after" then
      match rest with
      | [] => UsageExit msg_len_after
      | v :: rest' =>
        flag_loop rest'
          (mkCleanOpts (tip_cleaning o) (supernode_cleaning o)
             (max_tip_len o) (threshold o) (seq_depth o) (dump_covgs o)
             (len_before_path o) (Some v))
      end
    else UsageExit ("Unknown argument: " ++ a)
  end.

(** The checks between the flag loop and the first [graph_file_open].
    [output_file] is [args->output_file] when [args->output_file_set];
    [futil_file_exists] (file_util.h) is the state of the file system. *)
Definition check_opts (output_file : option string)
    (futil_file_exists : string → bool)
    (o : CleanOpts double) (paths : list string) : cmd (CleanRun double) :=
  match paths with
  | [] => UsageExit "Please give input graph files"
  | _ :: _ =>
    let default := negb (tip_cleaning o) && negb (supernode_cleaning o)
                   && bool_decide (output_file ≠ None) in
    let tip := tip_cleaning o || default in
    let snode := supernode_cleaning o || default in
    let doing_cleaning := snode || tip in
    if doing_cleaning && bool_decide (output_file = None) then
      UsageExit "Please specify --out <out.ctx> for cleaned graph"
    else if negb snode && (0 <? threshold o)%N then
      UsageExit "--threshold <T> not needed if not cleaning with --supernodes"
    else if negb snode && double_gt_0 (seq_depth o) then
      UsageExit "--kdepth <C> not needed if not cleaning with --supernodes"
    else if snode && negb (threshold o =? 0)%N && double_gt_0 (seq_depth o) then
      UsageExit
        "supernode cleaning requires only one of --threshold <T>, --depth <D>"
    else if negb doing_cleaning && bool_decide (len_after_path o ≠ None) then
      UsageExit
        "You use --len-after <out.csv> without any cleaning (set --supernodes or --tips)"
    else
      match output_file with
      | Some out =>
        if negb (String.eqb out "-") && futil_file_exists out then
          UsageExit ("Output file already exists: " ++ out)
        else
          Go (mkCleanRun
                (mkCleanOpts tip snode (max_tip_len o) (threshold o)
                   (seq_depth o) (dump_covgs o) (len_before_path o)
                   (len_after_path o))
                output_file paths)
      | None =>
        Go (mkCleanRun
              (mkCleanOpts tip snode (max_tip_len o) (threshold o)
                 (seq_depth o) (dump_covgs o) (len_before_path o)
                 (len_after_path o))
              output_file paths)
      end
  end.

(** [ctx_clean] up to the point where it starts opening graph files:
    [UsageExit] leaves before any of them is opened; [Go run] goes on to
    [graph_file_open] each of [run_paths run] and to clean. *)
Definition ctx_clean (argv : list string) (output_file : option string)
    (futil_file_exists : string → bool) : cmd (CleanRun double) :=
  cmd_bind (flag_loop argv init_opts)
    (fun '(o, paths) => check_opts output_file futil_file_exists o paths).

End Clean.

(** A reading of decimal numerals, to run [ctx_clean] on examples. *)
Definition digit_of (c : Ascii.ascii) : option N :=
  let n := Ascii.N_of_ascii c in
  if ((48 <=? n) && (n <=? 57))%N then Some (n - 48)%N else None.

Fixpoint decimal_from (acc : N) (s : string) : option N :=
  match s with
  | EmptyString => Some acc
  | String c s' =>
    match digit_of c with
    | Some d => decimal_from (10 * acc + d)%N s'
    | None => None
    end
  end.

Definition parse_decimal (s : string) : option N :=
  match s with
  | EmptyString => None
  | _ => decimal_from 0%N s
  end.

End CtxClean.

(** ** The graph walker *)

Module Walker.

Local Open Scope nat_scope.

(** *** Outcomes of a call *)

(** A call returns ([Ok]), leaves the process through [die] or a failed
    [assert] ([Died]), or reads or writes a cell outside an array, which
    C leaves undefined ([Undef]). *)
Inductive result (A : Type) : Type :=
  | Ok (a : A)
  | Died (msg : string)
  | Undef.
Arguments Ok {A} a.
Arguments Died {A} msg.
Arguments Undef {A}.

Definition bind {A B} (m : result A) (k : A → result B) : result B :=
  match m with
  | Ok a => k a
  | Died msg => Died msg
  | Undef => Undef
  end.

Notation "'let*' x ':=' m 'in' k" := (bind m (fun x => k))
  (at level 10, x pattern, k at level 200, only parsing).

(** [arr[i]] as an rvalue. *)
Definition load {A} (arr : list A) (i : nat) : result A :=
  match arr !! i with
  | Some x => Ok x
  | None => Undef
  end.

(** [arr[i] = x]. *)
Definition store {A} (arr : list A) (i : nat) (x : A) : result (list A) :=
  if decide (i < length arr) then Ok (<[i:=x]> arr) else Undef.

(** *** The graph and its path store, as the walker sees them *)

Definition hkey_t : Type := N.
Definition Colour : Type := nat.
Definition Edges : Type := N.

(** Modelled from the spec: binary_kmer.h is not among the sources.
    Section 3: a [BinaryKmer] is "a sequence of exactly K nucleotides";
    the packing into 64-bit words is not observed by the walker. *)
Definition BinaryKmer : Type := list Nucleotide.

(** A [PathLen] is a [uint32_t]: [pos + 1] wraps at [2^32]. *)
Definition PathLen : Type := N.

Definition pathlen_succ (p : PathLen) : PathLen := ((p + 1) mod 2 ^ 32)%N.

(** Modelled from the spec: path_store.h is not among the sources.
    Section 3 describes the store as "a mapping from hkey to a linked
    list" of entries holding a colour bitmap ("bit i set iff the path is
    witnessed by color i"), the orientation at the anchor node, and [len]
    bases.  An entry is what [path_store_has_col], [path_store_len_orient]
    and [path_store_fetch] read at one [PathIndex]. *)
Record PathEntry : Type := mkPathEntry {
  pe_colset : N;
  pe_orient : Orientation;
  pe_bases : list Nucleotide;
}.

Definition path_store_has_col (e : PathEntry) (col : Colour) : bool :=
  N.testbit (pe_colset e) (N.of_nat col).

Definition path_store_len (e : PathEntry) : PathLen :=
  N.of_nat (length (pe_bases e)).

(** db_graph.h and db_node.h are not among the sources.  The graph is
    what the walker asks of it: the stored (canonical) k-mer of a node
    ([db_node_bkmer]), whether a node is present in a colour
    ([db_node_has_col]), the union over colours of the edges of a node
    ([db_node_union_edges]), and the chain of path entries reached from
    [db_node_paths] by following [path_store_prev] to [PATH_NULL]. *)
Record dBGraph : Type := mkGraph {
  db_node_bkmer : hkey_t → BinaryKmer;
  db_node_has_col : hkey_t → Colour → bool;
  db_node_union_edges : hkey_t → Edges;
  db_node_paths : hkey_t → list PathEntry;
}.

Definition binary_nuc_complement (n : Nucleotide) : Nucleotide :=
  match n with NucA => NucT | NucC => NucG | NucG => NucC | NucT => NucA end.

(** Modelled from the spec: the k-mer primitives of binary_kmer.h. *)
Definition binary_kmer_reverse_complement (bk : BinaryKmer) : BinaryKmer :=
  rev (map binary_nuc_complement bk).

Definition binary_kmer_last_nuc (bk : BinaryKmer) : Nucleotide :=
  List.last bk NucA.

Definition binary_kmer_left_shift_add (bk : BinaryKmer) (nuc : Nucleotide)
    : BinaryKmer :=
  tail bk ++ [nuc].

(** Modelled from the spec: "the returned orientation records which form
    matched" (section 3); section 4.3: "recompute orientation from the
    stored canonical form". *)
Definition db_node_get_orientation (bk bkey : BinaryKmer) : Orientation :=
  if decide (bk = bkey) then FORWARD else REVERSE.

Definition db_graph_oriented_bkmer (g : dBGraph) (nd : hkey_t)
    (o : Orientation) : BinaryKmer :=
  match o with
  | FORWARD => db_node_bkmer g nd
  | REVERSE => binary_kmer_reverse_complement (db_node_bkmer g nd)
  end.

(** Modelled from the spec: "one byte per (node, color); the low nibble
    marks which of {A,C,G,T} extend in the forward orientation, the high
    nibble the reverse orientation" (section 3). *)
Definition edges_with_orientation (e : Edges) (o : Orientation) : N :=
  match o with
  | FORWARD => N.land e 15
  | REVERSE => N.land (N.shiftr e 4) 15
  end.

Definition edges_get_outdegree (e : Edges) (o : Orientation) : nat :=
  let nib := edges_with_orientation e o in
  Nat.b2n (N.testbit nib 0) + Nat.b2n (N.testbit nib 1)
  + Nat.b2n (N.testbit nib 2) + Nat.b2n (N.testbit nib 3).

(** Modelled from its name: the macro [ROUNDUP2POW] of util.h (not among
    the sources) rounds up to a power of two. *)
Definition ROUNDUP2POW (n : nat) : nat := 2 ^ Nat.log2_up n.

(** *** The walker *)

(** A [FollowPath]: [bases] is the slot of [wlk->data] the record points
    to, of which the cells [0..len) were written by [path_store_fetch];
    a read past them is reported as [Undef]. *)
Record FollowPath : Type := mkFollowPath {
  fp_bases : list Nucleotide;
  fp_pos : PathLen;
  fp_len : PathLen;
}.

(** The content of memory that was allocated and not written yet. *)
Definition uninit_path : FollowPath := mkFollowPath [] 0%N 0%N.
Definition uninit_ptr : nat := 0.

#[global] Instance FollowPath_inhabited : Inhabited FollowPath :=
  populate uninit_path.

(** The struct [GraphWalker].  A [FollowPath*] is the index of the record
    in [allpaths]; [unused_paths], [curr_paths] and [counter_paths] are
    the three pointer arrays, of which the first [num_unused],
    [num_curr + num_new] and [num_counter] cells are in use.  [data] is
    folded into the records: moving the slots on a resize leaves their
    content as it is. *)
Record GraphWalker : Type := mkGraphWalker {
  db_graph : dBGraph;
  colour : Colour;
  node : hkey_t;
  bkmer : BinaryKmer;
  orient : Orientation;
  allpaths : list FollowPath;
  unused_paths : list nat;
  curr_paths : list nat;
  counter_paths : list nat;
  max_path_len : nat;
  max_num_paths : nat;
  num_unused : nat;
  num_curr : nat;
  num_new : nat;
  num_counter : nat;
}.

Definition set_node (v : hkey_t) (w : GraphWalker) : GraphWalker :=
  mkGraphWalker (db_graph w) (colour w) v (bkmer w) (orient w) (allpaths w)
    (unused_paths w) (curr_paths w) (counter_paths w) (max_path_len w)
    (max_num_paths w) (num_unused w) (num_curr w) (num_new w)
    (num_counter w).

Definition set_bkmer (v : BinaryKmer) (w : GraphWalker) : GraphWalker :=
  mkGraphWalker (db_graph w) (colour w) (node w) v (orient w) (allpaths w)
    (unused_paths w) (curr_paths w) (counter_paths w) (max_path_len w)
    (max_num_paths w) (num_unused w) (num_curr w) (num_new w)
    (num_counter w).

Definition set_orient (v : Orientation) (w : GraphWalker) : GraphWalker :=
  mkGraphWalker (db_graph w) (colour w) (node w) (bkmer w) v (allpaths w)
    (unused_paths w) (curr_paths w) (counter_paths w) (max_path_len w)
    (max_num_paths w) (num_unused w) (num_curr w) (num_new w)
    (num_counter w).

Definition set_allpaths (v : list FollowPath) (w : GraphWalker) : GraphWalker :=
  mkGraphWalker (db_graph w) (colour w) (node w) (bkmer w) (orient w) v
    (unused_paths w) (curr_paths w) (counter_paths w) (max_path_len w)
    (max_num_paths w) (num_unused w) (num_curr w) (num_new w)
    (num_counter w).

Definition set_unused_paths (v : list nat) (w : GraphWalker) : GraphWalker :=
  mkGraphWalker (db_graph w) (colour w) (node w) (bkmer w) (orient w)
    (allpaths w) v (curr_paths w) (counter_paths w) (max_path_len w)
    (max_num_paths w) (num_unused w) (num_curr w) (num_new w)
    (num_counter w).

Definition set_curr_paths (v : list nat) (w : GraphWalker) : GraphWalker :=
  mkGraphWalker (db_graph w) (colour w) (node w) (bkmer w) (orient w)
    (allpaths w) (unused_paths w) v (counter_paths w) (max_path_len w)
    (max_num_paths w) (num_unused w) (num_curr w) (num_new w)
    (num_counter w).

Definition set_counter_paths (v : list nat) (w : GraphWalker) : GraphWalker :=
  mkGraphWalker (db_graph w) (colour w) (node w) (bkmer w) (orient w)
    (allpaths w) (unused_paths w) (curr_paths w) v (max_path_len w)
    (max_num_paths w) (num_unused w) (num_curr w) (num_new w)
    (num_counter w).

Definition set_max_path_len (v : nat) (w : GraphWalker) : GraphWalker :=
  mkGraphWalker (db_graph w) (colour w) (node w) (bkmer w) (orient w)
    (allpaths w) (unused_paths w) (curr_paths w) (counter_paths w) v
    (max_num_paths w) (num_unused w) (num_curr w) (num_new w)
    (num_counter w).

Definition set_max_num_paths (v : nat) (w : GraphWalker) : GraphWalker :=
  mkGraphWalker (db_graph w) (colour w) (node w) (bkmer w) (orient w)
    (allpaths w) (unused_paths w) (curr_paths w) (counter_paths w)
    (max_path_len w) v (num_unused w) (num_curr w) (num_new w)
    (num_counter w).

Definition set_num_unused (v : nat) (w : GraphWalker) : GraphWalker :=
  mkGraphWalker (db_graph w) (colour w) (node w) (bkmer w) (orient w)
    (allpaths w) (unused_paths w) (curr_paths w) (counter_paths w)
    (max_path_len w) (max_num_paths w) v (num_curr w) (num_new w)
    (num_counter w).

Definition set_num_curr (v : nat) (w : GraphWalker) : GraphWalker :=
  mkGraphWalker (db_graph w) (colour w) (node w) (bkmer w) (orient w)
    (allpaths w) (unused_paths w) (curr_paths w) (counter_paths w)
    (max_path_len w) (max_num_paths w) (num_unused w) v (num_new w)
    (num_counter w).

Definition set_num_new (v : nat) (w : GraphWalker) : GraphWalker :=
  mkGraphWalker (db_graph w) (colour w) (node w) (bkmer w) (orient w)
    (allpaths w) (unused_paths w) (curr_paths w) (counter_paths w)
    (max_path_len w) (max_num_paths w) (num_unused w) (num_curr w) v
    (num_counter w).

Definition set_num_counter (v : nat) (w : GraphWalker) : GraphWalker :=
  mkGraphWalker (db_graph w) (colour w) (node w) (bkmer w) (orient w)
    (allpaths w) (unused_paths w) (curr_paths w) (counter_paths w)
    (max_path_len w) (max_num_paths w) (num_unused w) (num_curr w)
    (num_new w) v.

(** Sizes count allocated objects; [malloc2] and [realloc2] leave the
    process long before a [size_t] could wrap, so they are natural
    numbers. *)

(** [realloc2(arr, n * sizeof(...))]: the old cells are kept, the new ones
    are not written. *)
Definition realloc2 {A} (arr : list A) (n : nat) (fresh : A) : list A :=
  resize n fresh arr.

(** The loop [for(i = prev_num_paths; i < max_num_paths; i++)] of
    [resize_paths] that puts the new records on the unused pool; [k]
    iterations are left. *)
Fixpoint add_unused (k i : nat) (w : GraphWalker) : result GraphWalker :=
  match k with
  | 0 => Ok w
  | S k' =>
    let* up := store (unused_paths w) (num_unused w) i in
    add_unused k' (S i)
      (set_num_unused (S (num_unused w)) (set_unused_paths up w))
  end.

Definition resize_paths (w : GraphWalker) (new_len : PathLen)
    : result GraphWalker :=
  let prev_num_paths := max_num_paths w in
  let w1 := if num_unused w =? 0
            then set_max_num_paths (max_num_paths w * 2) w else w in
  let w2 := if max_path_len w1 <? N.to_nat new_len
            then set_max_path_len (ROUNDUP2POW (N.to_nat new_len)) w1
            else w1 in
  if prev_num_paths <? max_num_paths w2 then
    let n := max_num_paths w2 in
    let w3 :=
      set_counter_paths (realloc2 (counter_paths w2) n uninit_ptr)
        (set_curr_paths (realloc2 (curr_paths w2) n uninit_ptr)
           (set_unused_paths (realloc2 (unused_paths w2) n uninit_ptr)
              (set_allpaths (realloc2 (allpaths w2) n uninit_path) w2))) in
    add_unused (n - prev_num_paths) prev_num_paths w3
  else Ok w2.

(** The uninitialised struct handed to [graph_walker_alloc] is [w]: the
    fields that the function does not assign keep what they held. *)
Definition graph_walker_alloc (w : GraphWalker) : GraphWalker :=
  let w1 := set_max_num_paths 2 (set_max_path_len 2 w) in
  let w2 := set_num_unused (max_num_paths w1) w1 in
  let w3 := set_num_curr 0 (set_num_counter 0 w2) in
  set_counter_paths (replicate 2 uninit_ptr)
    (set_curr_paths (replicate 2 uninit_ptr)
       (set_unused_paths [0; 1]
          (set_allpaths (replicate 2 uninit_path) w3))).

(** [counter ? &wlk->num_counter : &wlk->num_curr] and
    [counter ? wlk->counter_paths : wlk->curr_paths]. *)
Definition path_num (counter : bool) (w : GraphWalker) : nat :=
  if counter then num_counter w else num_curr w.

Definition path_arr (counter : bool) (w : GraphWalker) : list nat :=
  if counter then counter_paths w else curr_paths w.

Definition set_path_num (counter : bool) (v : nat) (w : GraphWalker)
    : GraphWalker :=
  if counter then set_num_counter v w else set_num_curr v w.

Definition set_path_arr (counter : bool) (v : list nat) (w : GraphWalker)
    : GraphWalker :=
  if counter then set_counter_paths v w else set_curr_paths v w.

(** The record written by [path_store_fetch] and the two assignments
    [pos = 0], [len = len] that follow it. *)
Definition fetched (e : PathEntry) : FollowPath :=
  mkFollowPath (pe_bases e) 0%N (path_store_len e).

(** The body of the loop of [pickup_paths] for an entry that passed the
    test: make room, take a record from the unused pool, fetch. *)
Definition pickup_one (e : PathEntry) (counter : bool) (w : GraphWalker)
    : result GraphWalker :=
  let len := path_store_len e in
  let* w1 := (if (max_path_len w <? N.to_nat len) || (num_unused w =? 0)
              then resize_paths w len else Ok w) in
  (* arr[*num] = wlk->unused_paths[--(wlk->num_unused)] *)
  if num_unused w1 =? 0 then Undef else
  let nu := num_unused w1 - 1 in
  let* p := load (unused_paths w1) nu in
  let* arr := store (path_arr counter w1) (path_num counter w1) p in
  (* path_store_fetch into the slot of max_path_len cells *)
  let* _ := load (allpaths w1) p in
  if max_path_len w1 <? N.to_nat len then Undef else
  let* ap := store (allpaths w1) p (fetched e) in
  Ok (set_path_num counter (S (path_num counter w1))
        (set_allpaths ap
           (set_path_arr counter arr (set_num_unused nu w1)))).

(** The loop [while(index != PATH_NULL)] of [pickup_paths] over the chain
    that starts at [index]. *)
Fixpoint pickup_loop (chain : list PathEntry) (o : Orientation)
    (counter : bool) (w : GraphWalker) : result GraphWalker :=
  match chain with
  | [] => Ok w
  | e :: chain' =>
    if path_store_has_col e (colour w) && bool_decide (o = pe_orient e) then
      let* w' := pickup_one e counter w in
      pickup_loop chain' o counter w'
    else pickup_loop chain' o counter w
  end.

Definition pickup_paths (chain : list PathEntry) (w : GraphWalker)
    (o : Orientation) (counter : bool) : result (nat * GraphWalker) :=
  let start_pos := path_num counter w in
  let* w' := pickup_loop chain o counter w in
  Ok (path_num counter w' - start_pos, w').

Definition graph_walker_init (w : GraphWalker) (graph : dBGraph)
    (col : Colour) (nd : hkey_t) (o : Orientation) : result GraphWalker :=
  if negb (num_curr w =? 0) then Died "assert(wlk->num_curr == 0)"
  else if negb (num_counter w =? 0) then Died "assert(wlk->num_counter == 0)"
  else
    let gw := mkGraphWalker graph col nd (db_graph_oriented_bkmer graph nd o) o
                (allpaths w) (unused_paths w) (curr_paths w)
                (counter_paths w) (max_path_len w) (max_num_paths w)
                (max_num_paths w) 0 0 0 in
    let* (n, w') := pickup_paths (db_node_paths graph nd) gw o false in
    Ok (set_num_curr (num_curr w' - n) (set_num_new n w')).

(** The two loops of [graph_walker_finish]: [k] iterations from [i] on
    push [arr[i]] on the unused pool. *)
Fixpoint release_paths (counter : bool) (k i : nat) (w : GraphWalker)
    : result GraphWalker :=
  match k with
  | 0 => Ok w
  | S k' =>
    let* p := load (path_arr counter w) i in
    let* up := store (unused_paths w) (num_unused w) p in
    release_paths counter k' (S i)
      (set_num_unused (S (num_unused w)) (set_unused_paths up w))
  end.

Definition graph_walker_finish (w : GraphWalker) : result GraphWalker :=
  let* w1 := release_paths false (num_curr w + num_new w) 0 w in
  let* w2 := release_paths true (num_counter w1) 0 w1 in
  Ok (set_num_counter 0 (set_num_new 0 (set_num_curr 0 w2))).

(** *** [graph_walker_choose] *)

(** The loop that fills [indices], [nodes] and [bases] with the next
    nodes present in the walker's colour; the three local arrays, of
    four cells each, are the list of triples written so far, [j] is its
    length: a write at [j = 4] is outside them. *)
Fixpoint restrict_to_colour (k i : nat) (w : GraphWalker)
    (next_nodes : list hkey_t) (next_bases : list Nucleotide)
    (sel : list (Z * hkey_t * Nucleotide))
    : result (list (Z * hkey_t * Nucleotide)) :=
  match k with
  | 0 => Ok sel
  | S k' =>
    let* nd := load next_nodes i in
    if db_node_has_col (db_graph w) nd (colour w) then
      if 4 <=? length sel then Undef else
      let* b := load next_bases i in
      restrict_to_colour k' (S i) w next_nodes next_bases
        (sel ++ [(Z.of_nat i, nd, b)])
    else restrict_to_colour k' (S i) w next_nodes next_bases sel
  end.

(** [path->bases[path->pos]] for [path = arr[i]]. *)
Definition path_nuc (w : GraphWalker) (arr : list nat) (i : nat)
    : result (FollowPath * Nucleotide) :=
  let* p := load arr i in
  let* path := load (allpaths w) p in
  let* b := load (fp_bases path) (N.to_nat (fp_pos path)) in
  Ok (path, b).

(** The loop [for(i = 1; i < wlk->num_curr; i++)]: [true] when it ends
    (by [break] or by running out), [false] on [return -1]. *)
Fixpoint oldest_agree (k i : nat) (w : GraphWalker)
    (greatest_age : PathLen) (greatest_nuc : Nucleotide) : result bool :=
  match k with
  | 0 => Ok true
  | S k' =>
    let* p := load (curr_paths w) i in
    let* path := load (allpaths w) p in
    if (fp_pos path <? greatest_age)%N then Ok true
    else
      let* b := load (fp_bases path) (N.to_nat (fp_pos path)) in
      if bool_decide (b ≠ greatest_nuc) then Ok false
      else oldest_agree k' (S i) w greatest_age greatest_nuc
  end.

(** [size_t c[4]], indexed by nucleotide. *)
Definition counts : Type := Nucleotide → nat.

Definition counts_zero : counts := fun _ => 0.

Definition counts_set (c : counts) (b : Nucleotide) : counts :=
  fun x => if decide (x = b) then 1 else c x.

Definition counts_sum (c : counts) : nat :=
  c NucA + c NucC + c NucG + c NucT.

(** The loops
    [for(i = 0; i < num && c[0]+c[1]+c[2]+c[3] < num_next; i++)]
    over the current ([counter = false]) and the counter paths. *)
Fixpoint mark_paths (counter : bool) (k i : nat) (w : GraphWalker)
    (num_next : nat) (c : counts) : result counts :=
  match k with
  | 0 => Ok c
  | S k' =>
    if counts_sum c <? num_next then
      let* (_, b) := path_nuc w (path_arr counter w) i in
      mark_paths counter k' (S i) w num_next (counts_set c b)
    else Ok c
  end.

(** The final loop [for(i = 0; i < num_next; i++)] over the restricted
    arrays. *)
Fixpoint find_base (sel : list (Z * hkey_t * Nucleotide))
    (greatest_nuc : Nucleotide) : option Z :=
  match sel with
  | [] => None
  | (idx, _, b) :: sel' =>
    if decide (b = greatest_nuc) then Some idx
    else find_base sel' greatest_nuc
  end.

Definition msg_counter_corruption : string := "Counter path corruption".
Definition msg_path_corruption : string :=
  "Something went wrong. [path corruption]".

(** Returns the index of the choice or -1. *)
Definition graph_walker_choose (w : GraphWalker) (num_next : nat)
    (next_nodes : list hkey_t) (next_bases : list Nucleotide) : result Z :=
  if num_next =? 0 then Ok (-1)%Z
  else if num_next =? 1 then Ok 0%Z
  else
    let* sel := restrict_to_colour num_next 0 w next_nodes next_bases [] in
    let num_next := length sel in
    match sel with
    | [(idx0, _, _)] => Ok idx0
    | _ =>
      if (num_next =? 0) || (num_curr w =? 0) then Ok (-1)%Z
      else
        let* (oldest_path, greatest_nuc) := path_nuc w (curr_paths w) 0 in
        let greatest_age := fp_pos oldest_path in
        let* agree := oldest_agree (num_curr w - 1) 1 w greatest_age
                        greatest_nuc in
        if negb agree then Ok (-1)%Z
        else
          let* c := mark_paths false (num_curr w) 0 w num_next counts_zero in
          let* c := mark_paths true (num_counter w) 0 w num_next c in
          if counts_sum c <? num_next then Ok (-1)%Z
          else if num_next <? counts_sum c then Died msg_counter_corruption
          else
            match find_base sel greatest_nuc with
            | Some idx => Ok idx
            | None => Died msg_path_corruption
            end
    end.

(** *** [graph_traverse_force_jump] *)

(** The two loops run after a fork, over [curr_paths] ([counter = false])
    and over [counter_paths]: [k] iterations are left, [i] is the read
    and [j] the write index.  Yields the final [j]. *)
Fixpoint slim_paths (counter : bool) (k i j : nat) (base : Nucleotide)
    (w : GraphWalker) : result (nat * GraphWalker) :=
  match k with
  | 0 => Ok (j, w)
  | S k' =>
    let* p := load (path_arr counter w) i in
    let* path := load (allpaths w) p in
    let* b := load (fp_bases path) (N.to_nat (fp_pos path)) in
    if bool_decide (b = base)
       && (pathlen_succ (fp_pos path) <? fp_len path)%N then
      let* arr := store (path_arr counter w) j p in
      let* ap := store (allpaths w) p
                   (mkFollowPath (fp_bases path) (pathlen_succ (fp_pos path))
                      (fp_len path)) in
      slim_paths counter k' (S i) (S j) base
        (set_allpaths ap (set_path_arr counter arr w))
    else
      let* up := store (unused_paths w) (num_unused w) p in
      slim_paths counter k' (S i) j base
        (set_num_unused (S (num_unused w)) (set_unused_paths up w))
  end.

(** The block [if(fork) { ... }]: "take all paths that agree with said
    nucleotide and haven't ended, also update ages". *)
Definition slim_after_fork (w : GraphWalker) (base : Nucleotide)
    : result GraphWalker :=
  let* (j, wa) := slim_paths false (num_curr w + num_new w) 0 0 base w in
  let wb := set_num_new 0 (set_num_curr j wa) in
  let* (j', wc) := slim_paths true (num_counter wb) 0 0 base wb in
  Ok (set_num_counter j' wc).

(** The rest of [graph_traverse_force_jump]: move the anchor, take the
    new paths as current ones, pick up the paths of the new node. *)
Definition move_anchor (w : GraphWalker) (nd : hkey_t) (bk : BinaryKmer)
    : result GraphWalker :=
  let g := db_graph w in
  let w2 := set_orient (db_node_get_orientation bk (db_node_bkmer g nd))
              (set_bkmer bk (set_node nd w)) in
  let w3 := set_num_curr (num_curr w2 + num_new w2) w2 in
  let* (n, w4) := pickup_paths (db_node_paths g nd) w3 (orient w3) false in
  Ok (set_num_curr (num_curr w4 - n) (set_num_new n w4)).

Definition graph_traverse_force_jump (w : GraphWalker) (nd : hkey_t)
    (bk : BinaryKmer) (fork : bool) : result GraphWalker :=
  let* w1 := (if fork then slim_after_fork w (binary_kmer_last_nuc bk)
              else Ok w) in
  move_anchor w1 nd bk.

Definition graph_traverse_force (w : GraphWalker) (nd : hkey_t)
    (base : Nucleotide) (fork : bool) : result GraphWalker :=
  graph_traverse_force_jump w nd (binary_kmer_left_shift_add (bkmer w) base)
    fork.

(** *** [graph_walker_add_counter_paths] *)

(** The inner loop: [new_paths = counter_paths + num_counter]; of the
    [num_paths] records just picked up, those with [len > 1] stay, one
    base further; [kk] is the write index [k] of the source. *)
Fixpoint keep_long (n j kk : nat) (w : GraphWalker)
    : result (nat * GraphWalker) :=
  match n with
  | 0 => Ok (kk, w)
  | S n' =>
    let* p := load (counter_paths w) (num_counter w + j) in
    let* path := load (allpaths w) p in
    if (1 <? fp_len path)%N then
      let* ap := store (allpaths w) p
                   (mkFollowPath (fp_bases path) (pathlen_succ (fp_pos path))
                      (fp_len path)) in
      let* arr := store (counter_paths w) (num_counter w + kk) p in
      keep_long n' (S j) (S kk) (set_counter_paths arr (set_allpaths ap w))
    else
      let* up := store (unused_paths w) (num_unused w) p in
      keep_long n' (S j) kk
        (set_num_unused (S (num_unused w)) (set_unused_paths up w))
  end.

(** One iteration of the outer loop, for the predecessor
    [(prev_node, prev_orient)]. *)
Definition add_counter_paths_from (w : GraphWalker) (prev_node : hkey_t)
    (prev_orient : Orientation) : result GraphWalker :=
  let g := db_graph w in
  let* (num_paths, w1) :=
    pickup_paths (db_node_paths g prev_node) w prev_orient true in
  let w2 := set_num_counter (num_counter w1 - num_paths) w1 in
  let edges := db_node_union_edges g prev_node in
  let* (num_paths', w3) :=
    (if 1 <? edges_get_outdegree edges prev_orient
     then keep_long num_paths 0 0 w2
     else Ok (num_paths, w2)) in
  Ok (set_num_counter (num_counter w3 + num_paths') w3).

(** The outer loop [for(i = 0; i < num_prev; i++)]; [k] iterations are
    left. *)
Fixpoint add_counter_paths_loop (k i : nat) (w : GraphWalker)
    (prev_nodes : list hkey_t) (prev_orients : list Orientation)
    : result GraphWalker :=
  match k with
  | 0 => Ok w
  | S k' =>
    let* nd := load prev_nodes i in
    let* o := load prev_orients i in
    let* w' := add_counter_paths_from w nd o in
    add_counter_paths_loop k' (S i) w' prev_nodes prev_orients
  end.

Definition graph_walker_add_counter_paths (w : GraphWalker)
    (prev_nodes : list hkey_t) (prev_orients : list Orientation)
    (num_prev : nat) : result GraphWalker :=
  add_counter_paths_loop num_prev 0 w prev_nodes prev_orients.

(** *** [graph_traverse_nodes] *)

Definition graph_traverse_nodes (w : GraphWalker) (num_next : nat)
    (nodes : list hkey_t) (bases : list Nucleotide)
    : result (bool * GraphWalker) :=
  let* nxt_indx := graph_walker_choose w num_next nodes bases in
  if (nxt_indx =? -1)%Z then Ok (false, w)
  else
    let* nd := load nodes (Z.to_nat nxt_indx) in
    let* b := load bases (Z.to_nat nxt_indx) in
    let* w' := graph_traverse_force w nd b (1 <? num_next) in
    Ok (true, w').

End Walker.

(** ** The walker's pool as four partitions *)

Module WalkerSpec.
Import Walker.

Local Open Scope nat_scope.

(** The cells in use of the three pointer arrays. *)
Definition unused_ptrs (w : GraphWalker) : list nat :=
  take (num_unused w) (unused_paths w).

Definition curr_ptrs (w : GraphWalker) : list nat :=
  take (num_curr w) (curr_paths w).

Definition new_ptrs (w : GraphWalker) : list nat :=
  take (num_new w) (drop (num_curr w) (curr_paths w)).

Definition counter_ptrs (w : GraphWalker) : list nat :=
  take (num_counter w) (counter_paths w).

(** The records behind a list of pointers. *)
Definition deref (w : GraphWalker) (ps : list nat) : list FollowPath :=
  (fun p => allpaths w !!! p) <$> ps.

Definition curr_set (w : GraphWalker) : list FollowPath :=
  deref w (curr_ptrs w).

Definition new_set (w : GraphWalker) : list FollowPath :=
  deref w (new_ptrs w).

Definition counter_set (w : GraphWalker) : list FollowPath :=
  deref w (counter_ptrs w).

(** [path->bases[path->pos]], the nucleotide a path advocates next. *)
Definition proposes (fp : FollowPath) : Nucleotide :=
  nth (N.to_nat (fp_pos fp)) (fp_bases fp) NucA.

(** A record in use: [pos] is inside the [len] bases fetched, and [len]
    fits the 31 bits the store gives it. *)
Definition fp_ok (fp : FollowPath) : Prop :=
  (fp_pos fp < fp_len fp)%N ∧
  fp_len fp = N.of_nat (length (fp_bases fp)) ∧
  (fp_len fp < 2 ^ 31)%N.

(** Oldest commitment first: [pos] never grows along the list. *)
Definition oldest_first (l : list FollowPath) : Prop :=
  StronglySorted (fun a b => (fp_pos b ≤ fp_pos a)%N) l.

(** The pool with [rc] cells of [curr_paths] and [rk] cells of
    [counter_paths] in use: the arrays have [max_num_paths] cells, and
    the cells in use of the three pointer arrays hold every record of
    [allpaths] exactly once. *)
Record pool_ok (rc rk : nat) (w : GraphWalker) : Prop := mkPoolOk {
  pool_len_all : length (allpaths w) = max_num_paths w;
  pool_len_unused : length (unused_paths w) = max_num_paths w;
  pool_len_curr : length (curr_paths w) = max_num_paths w;
  pool_len_counter : length (counter_paths w) = max_num_paths w;
  pool_pos : 0 < max_num_paths w;
  pool_fit_unused : num_unused w ≤ max_num_paths w;
  pool_fit_curr : rc ≤ max_num_paths w;
  pool_fit_counter : rk ≤ max_num_paths w;
  pool_partition :
    take (num_unused w) (unused_paths w) ++ take rc (curr_paths w)
      ++ take rk (counter_paths w)
    ≡ₚ seq 0 (max_num_paths w);
}.

(** The invariant of a walker between two calls. *)
Record wlk_inv (w : GraphWalker) : Prop := mkWlkInv {
  inv_pool : pool_ok (num_curr w + num_new w) (num_counter w) w;
  inv_paths : Forall fp_ok (curr_set w ++ new_set w ++ counter_set w);
  inv_oldest_first : oldest_first (curr_set w ++ new_set w);
}.

(** A walker with no path picked up: as [graph_walker_finish] leaves
    it. *)
Definition idle (w : GraphWalker) : Prop :=
  num_curr w = 0 ∧ num_new w = 0 ∧ num_counter w = 0 ∧
  num_unused w = max_num_paths w.

(** The store holds paths of at least one base whose length fits the 31
    bits of [lenorient]. *)
Definition chain_ok (chain : list PathEntry) : Prop :=
  Forall (fun e => 0 < length (pe_bases e) ∧
                   (N.of_nat (length (pe_bases e)) < 2 ^ 31)%N) chain.

Definition graph_ok (g : dBGraph) : Prop :=
  ∀ nd, chain_ok (db_node_paths g nd).

(** The entries of a chain that [pickup_paths] takes: those witnessed by
    the colour [col] whose orientation is [o]. *)
Definition picked (col : Colour) (o : Orientation) (chain : list PathEntry)
    : list PathEntry :=
  filter (fun e => path_store_has_col e col = true ∧ o = pe_orient e) chain.

(** The test made on a path after a fork along [base]: it agrees and has
    not ended. *)
Definition follows (base : Nucleotide) (fp : FollowPath) : Prop :=
  proposes fp = base ∧ (fp_pos fp + 1 < fp_len fp)%N.

#[global] Instance follows_dec base fp : Decision (follows base fp).
Proof. unfold follows. apply _. Defined.

(** The pointer [p] leads to a record in use. *)
Definition rec_ok (w : GraphWalker) (p : nat) : Prop :=
  p < length (allpaths w) ∧ fp_ok (allpaths w !!! p).

(** The anchor and the colour of two walkers are the same. *)
Definition same_anchor (w w' : GraphWalker) : Prop :=
  db_graph w' = db_graph w ∧ colour w' = colour w ∧ node w' = node w ∧
  bkmer w' = bkmer w ∧ orient w' = orient w.

(** The test [new_paths[j]->len > 1] of
    [graph_walker_add_counter_paths], on the record behind [p]. *)
Definition long_path (w : GraphWalker) (p : nat) : Prop :=
  (1 < fp_len (allpaths w !!! p))%N.

#[global] Instance long_path_dec w p : Decision (long_path w p).
Proof. unfold long_path. apply _. Defined.

(** [path->pos++]. *)
Definition advance (fp : FollowPath) : FollowPath :=
  mkFollowPath (fp_bases fp) (fp_pos fp + 1)%N (fp_len fp).

(** The counter paths that [graph_walker_add_counter_paths] takes from
    the predecessor [(nd, o)]: all entries picked when the predecessor
    does not fork; when it forks, those of more than one base, one base
    further. *)
Definition counter_from (g : dBGraph) (col : Colour) (nd : hkey_t)
    (o : Orientation) : list FollowPath :=
  let m := fetched <$> picked col o (db_node_paths g nd) in
  if 1 <? edges_get_outdegree (db_node_union_edges g nd) o
  then advance <$> filter (fun fp => (1 < fp_len fp)%N) m
  else m.

(** *** What [graph_walker_choose] computes *)

#[global] Instance Nucleotide_inhabited : Inhabited Nucleotide :=
  populate NucA.

(** [(i, next_nodes[i], next_bases[i])]. *)
Definition next_triple (next_nodes : list hkey_t)
    (next_bases : list Nucleotide) (i : nat) : Z * hkey_t * Nucleotide :=
  (Z.of_nat i, next_nodes !!! i, next_bases !!! i).

Definition in_colour (w : GraphWalker) (t : Z * hkey_t * Nucleotide) : Prop :=
  db_node_has_col (db_graph w) t.1.2 (colour w) = true.

#[global] Instance in_colour_dec w t : Decision (in_colour w t).
Proof. unfold in_colour. apply _. Defined.

(** The candidates: the next nodes present in the walker's colour, with
    their index among the [num_next] next nodes and their base. *)
Definition candidates (w : GraphWalker) (num_next : nat)
    (next_nodes : list hkey_t) (next_bases : list Nucleotide)
    : list (Z * hkey_t * Nucleotide) :=
  filter (in_colour w) (next_triple next_nodes next_bases <$> seq 0 num_next).

(** The paths of [l], oldest first, down to the first one younger than
    [age] all advocate [nuc]. *)
Fixpoint agree (l : list FollowPath) (age : PathLen) (nuc : Nucleotide)
    : bool :=
  match l with
  | [] => true
  | r :: l' =>
    if (fp_pos r <? age)%N then true
    else if bool_decide (proposes r ≠ nuc) then false
    else agree l' age nuc
  end.

(** Marking the nucleotides [ns] in [c] for as long as fewer than [m] are
    marked. *)
Fixpoint mark (ns : list Nucleotide) (m : nat) (c : counts) : counts :=
  match ns with
  | [] => c
  | b :: ns' =>
    if counts_sum c <? m then mark ns' m (counts_set c b) else c
  end.

(** The marks after the two loops over the current and the counter
    paths. *)
Definition marks (w : GraphWalker) (m : nat) : counts :=
  mark (proposes <$> counter_set w) m
    (mark (proposes <$> curr_set w) m counts_zero).

(** [U]: the next nucleotides advocated by the current paths together
    with the counter paths, and the number of its elements. *)
Definition advocated (w : GraphWalker) (x : Nucleotide) : Prop :=
  x ∈ proposes <$> (curr_set w ++ counter_set w).

#[global] Instance advocated_dec w x : Decision (advocated w x).
Proof. unfold advocated. apply _. Defined.

Definition num_advocated (w : GraphWalker) : nat :=
  Nat.b2n (bool_decide (advocated w NucA))
  + Nat.b2n (bool_decide (advocated w NucC))
  + Nat.b2n (bool_decide (advocated w NucG))
  + Nat.b2n (bool_decide (advocated w NucT)).

(** The four partitions add up to all records. *)
Definition conserved (w : GraphWalker) : Prop :=
  num_curr w + num_new w + num_counter w + num_unused w = max_num_paths w.

(** The counter paths taken from a list of predecessors, in order. *)
Definition counters_from (g : dBGraph) (col : Colour)
    (prevs : list (hkey_t * Orientation)) : list FollowPath :=
  concat ((fun '(nd, o) => counter_from g col nd o) <$> prevs).

End WalkerSpec.

(** ** A small graph and a walk on it *)

Module Examples.
Import Walker WalkerSpec.

(** Nodes 2 and 3 follow the fork node 7 along A and C; nodes 4, 6 and 8
    are predecessors of 7 (4 and 8 with one way out, 6 with two); node 5
    is only present in colour 1.  Paths start at the nodes 1, 2, 4, 6
    and 8. *)
Definition ex_paths (nd : hkey_t) : list PathEntry :=
  if (nd =? 1)%N then
    [mkPathEntry 1 FORWARD [NucA; NucG]; mkPathEntry 1 REVERSE [NucT; NucT]]
  else if (nd =? 2)%N then
    [mkPathEntry 1 FORWARD [NucT]; mkPathEntry 2 FORWARD [NucG]]
  else if (nd =? 4)%N then [mkPathEntry 1 FORWARD [NucC]]
  else if (nd =? 6)%N then
    [mkPathEntry 1 FORWARD [NucT; NucC]; mkPathEntry 1 FORWARD [NucG]]
  else if (nd =? 8)%N then [mkPathEntry 1 FORWARD [NucG]]
  else [].

Definition ex_bkmer (nd : hkey_t) : BinaryKmer :=
  if (nd =? 2)%N then [NucC; NucA; NucA]
  else if (nd =? 3)%N then [NucC; NucA; NucC]
  else [NucA; NucC; NucA].

Definition ex_graph : dBGraph :=
  mkGraph ex_bkmer
    (fun nd col => negb (nd =? 5)%N || (col =? 1)%nat)
    (fun nd => if (nd =? 4)%N || (nd =? 8)%N then 1%N else 3%N)
    ex_paths.

(** The result of a call that returns. *)
Definition returned {A} (d : A) (r : result A) : A :=
  match r with Ok a => a | _ => d end.

(** A struct whose memory is all zero. *)
Definition ex_blank : GraphWalker :=
  mkGraphWalker ex_graph 0%nat 0%N [] FORWARD [] [] [] [] 0 0 0 0 0 0.

Definition ex_w0 : GraphWalker := graph_walker_alloc ex_blank.

(** Anchored at node 1 in colour 0: the path [A, G] is new. *)
Definition ex_w1 : GraphWalker :=
  returned ex_w0 (graph_walker_init ex_w0 ex_graph 0%nat 1%N FORWARD).

(** Moved on to the fork node 7 without a fork: [A, G] is current. *)
Definition ex_w2 : GraphWalker :=
  returned ex_w1
    (graph_traverse_force_jump ex_w1 7%N [NucA; NucC; NucA] false).

(** With the counter paths of the predecessors 4 and 6. *)
Definition ex_w3 : GraphWalker :=
  returned ex_w2
    (graph_walker_add_counter_paths ex_w2 [4%N; 6%N] [FORWARD; FORWARD] 2).

(** And with the counter path of the predecessor 8, which advocates G. *)
Definition ex_w4 : GraphWalker :=
  returned ex_w3 (graph_walker_add_counter_paths ex_w3 [8%N] [FORWARD] 1).

End Examples.

(** ** Walks that bring several current paths to the fork *)

Module ForkExamples.
Import Walker WalkerSpec Examples.

(** The small graph with one more node, 9, which stores the path
    [A, T]. *)
Definition fork_graph : dBGraph :=
  mkGraph ex_bkmer (db_node_has_col ex_graph) (db_node_union_edges ex_graph)
    (fun nd => if (nd =? 9)%N then [mkPathEntry 1 FORWARD [NucA; NucT]]
               else ex_paths nd).

(** From node 1 over node 9 to the fork node 7: the current paths
    [A, G] and [A, T], both at [pos = 0] and both for A; then the counter
    paths of the predecessors 4 and 6, which advocate C. *)
Definition ex_pair0 : GraphWalker :=
  returned ex_w0 (graph_walker_init ex_w0 fork_graph 0%nat 1%N FORWARD).

Definition ex_pair1 : GraphWalker :=
  returned ex_pair0
    (graph_traverse_force_jump ex_pair0 9%N [NucA; NucC; NucA] false).

Definition ex_pair2 : GraphWalker :=
  returned ex_pair1
    (graph_traverse_force_jump ex_pair1 7%N [NucA; NucC; NucA] false).

Definition ex_pair : GraphWalker :=
  returned ex_pair2
    (graph_walker_add_counter_paths ex_pair2 [4%N; 6%N] [FORWARD; FORWARD] 2).

(** From node 1 over node 6 to the fork node 7: the current paths
    [A, G], [T, C] and [G], all at [pos = 0], for A, T and G. *)
Definition ex_mixed1 : GraphWalker :=
  returned ex_w1
    (graph_traverse_force_jump ex_w1 6%N [NucA; NucC; NucA] false).

Definition ex_mixed : GraphWalker :=
  returned ex_mixed1
    (graph_traverse_force_jump ex_mixed1 7%N [NucA; NucC; NucA] false).

(** From node 1 to node 2, with the counter paths of the nodes 4 and 6:
    the current and the counter paths of [ex_w3], and the path [T] of
    node 2 as a new path. *)
Definition ex_side1 : GraphWalker :=
  returned ex_w1
    (graph_traverse_force_jump ex_w1 2%N [NucC; NucA; NucA] false).

Definition ex_side : GraphWalker :=
  returned ex_side1
    (graph_walker_add_counter_paths ex_side1 [4%N; 6%N] [FORWARD; FORWARD] 2).

End ForkExamples.

(** ** The flags of [ctx clean] *)

Module CtxCleanSpec.
Import CtxClean.

(** The flags that take a value, each with the message of its usage exit
    when the value is missing. *)
Definition value_flags : list (string * string) :=
  [("--tips", msg_tips); ("--covgs", msg_covgs);
   ("--threshold", msg_threshold); ("--kdepth", msg_kdepth);
   ("--len-before", msg_len_before); ("--len-after", msg_len_after)]%string.

(** The flags of the loop. *)
Definition known_flags : list string :=
  "--supernodes"%string :: value_flags.*1.

(** The numbers a flag loop that ran through can have stored: lengths
    and thresholds above one, or the initial zero. *)
Definition numbers_checked {double} (o : CleanOpts double) : Prop :=
  (max_tip_len o = 0 ∨ 1 < max_tip_len o)%N ∧
  (threshold o = 0 ∨ 1 < threshold o)%N ∧
  (tip_cleaning o = false → max_tip_len o = 0%N).

(** [ctx clean] with decimal numerals for sizes and thresholds. *)
Definition ex_clean : list string → option string → (string → bool)
    → cmd (CleanRun Z) :=
  ctx_clean Z (-1) (fun d => d <=? 1) (fun d => 0 <? d)
    parse_decimal parse_decimal (fun _ => None).

End CtxCleanSpec.

(** ** Sequences of calls on a walker *)

Module WalkerCalls.
Import Walker WalkerSpec.

Local Open Scope nat_scope.

(** The calls a user of graph_walker.c makes on a walker it allocated. *)
Inductive call : Type :=
  | Init (g : dBGraph) (col : Colour) (nd : hkey_t) (o : Orientation)
  | Finish
  | ForceJump (nd : hkey_t) (bk : BinaryKmer) (fork : bool)
  | Force (nd : hkey_t) (base : Nucleotide) (fork : bool)
  | AddCounterPaths (prev_nodes : list hkey_t)
      (prev_orients : list Orientation) (num_prev : nat)
  | TraverseNodes (num_next : nat) (nodes : list hkey_t)
      (bases : list Nucleotide).

Definition run_call (c : call) (w : GraphWalker) : result GraphWalker :=
  match c with
  | Init g col nd o => graph_walker_init w g col nd o
  | Finish => graph_walker_finish w
  | ForceJump nd bk fork => graph_traverse_force_jump w nd bk fork
  | Force nd base fork => graph_traverse_force w nd base fork
  | AddCounterPaths prev_nodes prev_orients num_prev =>
    graph_walker_add_counter_paths w prev_nodes prev_orients num_prev
  | TraverseNodes num_next nodes bases =>
    let* (_, w') := graph_traverse_nodes w num_next nodes bases in Ok w'
  end.

Fixpoint run_calls (cs : list call) (w : GraphWalker) : result GraphWalker :=
  match cs with
  | [] => Ok w
  | c :: cs' => let* w' := run_call c w in run_calls cs' w'
  end.

(** Where a walker is in its life: just allocated, anchored by
    [graph_walker_init], or released by [graph_walker_finish]. *)
Inductive phase : Type := Allocated | Anchored | Released.

(** The use the functions are written for: [graph_walker_init] on a
    walker that holds no path, over a graph whose stored paths have at
    least one base and a length that fits [lenorient]; the other calls
    on an anchored walker, with arrays that have the cells counted, and
    at most four next nodes. *)
Definition call_ok (ph : phase) (c : call) : Prop :=
  match c with
  | Init g _ _ _ => ph ≠ Anchored ∧ graph_ok g
  | Finish => ph ≠ Allocated
  | ForceJump _ _ _ | Force _ _ _ => ph = Anchored
  | AddCounterPaths prev_nodes prev_orients num_prev =>
    ph = Anchored ∧
    num_prev ≤ length prev_nodes ∧ num_prev ≤ length prev_orients
  | TraverseNodes num_next nodes bases =>
    ph = Anchored ∧ num_next ≤ 4 ∧
    num_next ≤ length nodes ∧ num_next ≤ length bases
  end.

Definition next_phase (ph : phase) (c : call) : phase :=
  match c with
  | Init _ _ _ _ => Anchored
  | Finish => Released
  | _ => ph
  end.

Fixpoint calls_ok (ph : phase) (cs : list call) : Prop :=
  match cs with
  | [] => True
  | c :: cs' => call_ok ph c ∧ calls_ok (next_phase ph c) cs'
  end.

(** What holds of the walker in each phase. *)
Definition phase_inv (ph : phase) (w : GraphWalker) : Prop :=
  match ph with
  | Allocated => ∃ w0, w = graph_walker_alloc w0
  | Anchored => wlk_inv w ∧ graph_ok (db_graph w)
  | Released => wlk_inv w ∧ idle w
  end.

End WalkerCalls.

(** ** The data buffer of the walker *)

Module WalkerData.
Import Walker.

Local Open Scope nat_scope.

(** [memcpy(data + dst, data + src, n)] inside the one buffer [data]:
    undefined in C when a range leaves the buffer or when the two
    ranges overlap. *)
Definition memcpy_within {A} (data : list A) (dst src n : nat)
    : result (list A) :=
  if decide (src + n ≤ length data ∧ dst + n ≤ length data ∧
             (src + n ≤ dst ∨ dst + n ≤ src))
  then Ok (take dst data ++ take n (drop src data) ++ drop (dst + n) data)
  else Undef.

(** The loop [for(i = prev_num_paths-1; i > 0; i--)] of [resize_paths]
    ("shift data up if needed"), from [i] on: the slot of record [i]
    moves from [i * prev_path_len] to [i * max_path_len]. *)
Fixpoint shift_rows (i prev_path_len max_path_len : nat)
    (data : list Nucleotide) : result (list Nucleotide) :=
  match i with
  | 0 => Ok data
  | S i' =>
    let* data' := memcpy_within data (i * max_path_len) (i * prev_path_len)
                    prev_path_len in
    shift_rows i' prev_path_len max_path_len data'
  end.

(** What [resize_paths] does to [wlk->data], the buffer of
    [max_num_paths * max_path_len] nucleotides in which record [i] has
    the slot that starts at [i * max_path_len]: [realloc2] to the new
    size, then the shift when the slots grew.  With no record at all
    [prev_num_paths-1] wraps around. *)
Definition resize_data (data : list Nucleotide)
    (prev_num_paths prev_path_len max_num_paths max_path_len : nat)
    : result (list Nucleotide) :=
  let data1 := realloc2 data (max_num_paths * max_path_len) NucA in
  if prev_path_len <? max_path_len then
    match prev_num_paths with
    | 0 => Undef
    | S i => shift_rows i prev_path_len max_path_len data1
    end
  else Ok data1.

End WalkerData.

(** ** The two entry points that look up the neighbours themselves *)

Module WalkerNeighbours.
Import Walker.

Local Open Scope nat_scope.

(** The loop [for(i = 0; i < 4; i++) orients[i] = !orients[i]] over a
    local array; [k] iterations are left. *)
Fixpoint flip_orients (k i : nat) (orients : list Orientation)
    : result (list Orientation) :=
  match k with
  | 0 => Ok orients
  | S k' =>
    let* o := load orients i in
    let* orients' := store orients i (opposite_orientation o) in
    flip_orients k' (S i) orients'
  end.

Section Neighbours.

(** db_graph.h and db_node.h are not among the sources.
    [db_graph_next_nodes] finds the nodes reached from a k-mer in an
    orientation along the edges given; it writes them, their
    orientations and the bases that lead to them into three arrays of
    four cells and returns their number.  It is a parameter: the number
    returned and the three arrays as the call leaves them.
    [nuc_orient_to_edge] is the edge bit of a nucleotide in an
    orientation. *)
Variable db_graph_next_nodes :
  dBGraph → BinaryKmer → Orientation → Edges →
  nat * list hkey_t * list Orientation * list Nucleotide.
Variable nuc_orient_to_edge : Nucleotide → Orientation → Edges.

Definition graph_walker_node_add_counter_paths (w : GraphWalker)
    (nd : hkey_t) (o : Orientation) (prev_nuc : Nucleotide)
    : result GraphWalker :=
  let g := db_graph w in
  let bk := db_node_bkmer g nd in
  let o := opposite_orientation o in
  (* edges & ~nuc_orient_to_edge(...) *)
  let edges := N.ldiff (db_node_union_edges g nd)
                 (nuc_orient_to_edge (binary_nuc_complement prev_nuc) o) in
  let '(num_prev_nodes, prev_nodes, prev_orients, _) :=
    db_graph_next_nodes g bk o edges in
  let* prev_orients := flip_orients 4 0 prev_orients in
  graph_walker_add_counter_paths w prev_nodes prev_orients num_prev_nodes.

(** Returns 1 on success, 0 otherwise. *)
Definition graph_traverse (w : GraphWalker) : result (bool * GraphWalker) :=
  let g := db_graph w in
  let edges := edges_with_orientation (db_node_union_edges g (node w))
                 (orient w) in
  let '(num_next, nodes, orients, bases) :=
    db_graph_next_nodes g (bkmer w) FORWARD edges in
  let* _ := flip_orients 4 0 orients in
  graph_traverse_nodes w num_next nodes bases.

(** What the callers rely on: at most four neighbours, in arrays of four
    cells. *)
Definition fills_four : Prop :=
  ∀ g bk o e,
    let '(n, nodes, orients, bases) := db_graph_next_nodes g bk o e in
    n ≤ 4 ∧ length nodes = 4 ∧ length orients = 4 ∧ length bases = 4.

End Neighbours.

End WalkerNeighbours.

(** ** Neighbours in the small graph *)

Module MoreExamples.
Import Walker.

Local Open Scope nat_scope.

(** Looking forward from the fork node 7 there are the nodes 2 and 3,
    along A and C; looking back, the nodes 4 and 6.  The cells behind
    the neighbours found hold what they held. *)
Definition ex_next_nodes (g : dBGraph) (bk : BinaryKmer) (o : Orientation)
    (e : Edges) : nat * list hkey_t * list Orientation * list Nucleotide :=
  match o with
  | FORWARD =>
    (2, [2%N; 3%N; 0%N; 0%N], [FORWARD; FORWARD; FORWARD; FORWARD],
     [NucA; NucC; NucA; NucA])
  | REVERSE =>
    (2, [4%N; 6%N; 0%N; 0%N], [REVERSE; REVERSE; FORWARD; FORWARD],
     [NucG; NucT; NucA; NucA])
  end.

(** One bit per nucleotide, the forward ones in the low nibble. *)
Definition ex_edge_bit (n : Nucleotide) (o : Orientation) : Edges :=
  N.shiftl 1 (Z.to_N (nuc_code n) + 4 * Z.to_N (orient_code o)).

End MoreExamples.

(** ** Reading a file: file_util.h *)

Module FileUtil.

(** A [FILE*] open for reading, as [fread] sees it: the bytes that can
    still be had from it before the end of the file or a read error. *)
Definition FILE : Type := list Z.

(** [fread(ptr, 1, size, fh)] stores the bytes it can get, at most
    [size], and returns their number. *)
Definition fread (fh : FILE) (size : nat) : list Z * nat * FILE :=
  (take size fh, length (take size fh), drop size fh).

(** How a read ends: the bytes are in the buffer and the code goes on;
    the function that holds the macro returns -1; or the process is left
    through [die] with the field, the numbers of bytes expected and
    received, and the path. *)
Inductive read_result (A : Type) : Type :=
  | ReadOk (a : A)
  | ReturnMinus1
  | ReadDied (field : string) (expected received : nat) (path : string).
Arguments ReadOk {A} a.
Arguments ReturnMinus1 {A}.
Arguments ReadDied {A} field expected received path.

(** The macro [SAFE_READ(fh,ptr,size,field,path,fatal)]. *)
Definition SAFE_READ (fh : FILE) (size : nat) (field path : string)
    (fatal : bool) : read_result (list Z * FILE) :=
  let '(ptr, _read, fh') := fread fh size in
  if negb (_read =? size)%nat then
    if negb fatal then ReturnMinus1
    else ReadDied field size _read path
  else ReadOk (ptr, fh').

Definition futil_safe_fread (fh : FILE) (size : nat) (field path : string)
    : read_result (list Z * FILE) :=
  let '(ptr, read_nbytes, fh') := fread fh size in
  if negb (read_nbytes =? size)%nat
  then ReadDied field size read_nbytes path
  else ReadOk (ptr, fh').

End FileUtil.

(** ** Bit strings of the packed-path tests *)

Module BitString.
Import Walker.

Local Open Scope nat_scope.

(** The inner loop [for(j = 7; j != SIZE_MAX; j--)] of [bitarr_tostr],
    with [k] iterations left: the characters for the bits [k-1 .. 0] of
    a byte. *)
Fixpoint byte_tostr (k : nat) (byte : Z) : list ascii :=
  match k with
  | 0 => []
  | S j =>
    (if Z.eqb (Z.land byte (Z.shiftl 1 (Z.of_nat j))) 0
     then "0"%char else "1"%char) :: byte_tostr j byte
  end.

(** The outer loop [for(i = len-1; i != SIZE_MAX; i--)], with [k]
    iterations left. *)
Fixpoint bitarr_rows (k : nat) (arr : list Z) : result (list ascii) :=
  match k with
  | 0 => Ok []
  | S i =>
    let* byte := load arr i in
    let* rest := bitarr_rows i arr in
    Ok (byte_tostr 8 byte ++ rest)
  end.

(** [bitarr_tostr(arr, len, str)]: the characters written to [str]
    before the final NUL. *)
Definition bitarr_tostr (arr : list Z) (len : nat) : result (list ascii) :=
  bitarr_rows len arr.

End BitString.

(* ===================================================================== *)
(** * Part II. Properties                                                 *)
(* ===================================================================== *)

Module PackedPathFacts.
Import PackedPath.

Lemma nuc_of_code_code n : nuc_of_code (nuc_code n) = n.
Proof. by destruct n. Qed.

Lemma base_code_cases src n i :
  base_code src n i = 0 ∨ base_code src n i = 1 ∨
  base_code src n i = 2 ∨ base_code src n i = 3.
Proof.
  unfold base_code. destruct (i <? n)%nat; [|by left].
  destruct (nth i src NucA); simpl; auto.
Qed.

(** Reading slot [r] of a byte assembled from four two-bit codes. *)
Lemma slot_of_byte (c0 c1 c2 c3 : Z) (r : nat) :
  (c0 = 0 ∨ c0 = 1 ∨ c0 = 2 ∨ c0 = 3) →
  (c1 = 0 ∨ c1 = 1 ∨ c1 = 2 ∨ c1 = 3) →
  (c2 = 0 ∨ c2 = 1 ∨ c2 = 2 ∨ c2 = 3) →
  (c3 = 0 ∨ c3 = 1 ∨ c3 = 2 ∨ c3 = 3) →
  (r < 4)%nat →
  Z.land (Z.shiftr (Z.lor (Z.lor c0 (Z.shiftl c1 2))
                          (Z.lor (Z.shiftl c2 4) (Z.shiftl c3 6)))
                   (2 * Z.of_nat r)) 3
  = nth r [c0; c1; c2; c3] 0.
Proof.
  intros H0 H1 H2 H3 Hr.
  destruct r as [|[|[|[|r]]]]; [| | | |lia];
    destruct H0 as [->|[->|[->| ->]]], H1 as [->|[->|[->| ->]]],
             H2 as [->|[->|[->| ->]]], H3 as [->|[->|[->| ->]]];
    reflexivity.
Qed.

Lemma nuc_of_code_land z : nuc_of_code (Z.land z 3) = nuc_of_code z.
Proof.
  unfold nuc_of_code. by rewrite <- Z.land_assoc.
Qed.

Lemma nth_packed_bytes src n j d :
  (j < packed_nbytes n)%nat →
  nth j (map (packed_byte src n) (seq 0 (packed_nbytes n))) d
  = packed_byte src n j.
Proof.
  intros Hj.
  rewrite (nth_indep _ d (packed_byte src n 0%nat))
    by (by rewrite length_map, length_seq).
  rewrite (map_nth (packed_byte src n)), seq_nth; [done|lia].
Qed.

(** Fetching base [i] from the packed form of [src[0..n)] returns
    [src[i]]. *)
Lemma packed_fetch_pack dst src n i :
  (i < n)%nat →
  packed_fetch (pack_bases dst src n) i = nth i src NucA.
Proof.
  intros Hi. unfold packed_fetch, pack_bases, write_bytes.
  assert (Hj : (i / 4 < packed_nbytes n)%nat).
  { unfold packed_nbytes. apply Nat.Div0.div_lt_upper_bound.
    pose proof (Nat.div_mod_eq (n + 3) 4) as E.
    pose proof (Nat.mod_upper_bound (n + 3) 4). lia. }
  rewrite app_nth1 by (by rewrite length_map, length_seq).
  rewrite nth_packed_bytes by done.
  rewrite <- nuc_of_code_land. unfold packed_byte.
  rewrite slot_of_byte;
    [| apply base_code_cases .. | apply Nat.mod_upper_bound; lia].
  pose proof (Nat.div_mod_eq i 4) as E.
  pose proof (Nat.mod_upper_bound i 4 ltac:(lia)) as Hr.
  set (q := (i / 4)%nat) in *. set (r := (i mod 4)%nat) in *.
  assert (Hnth : nth r [base_code src n (4 * q); base_code src n (4 * q + 1);
                        base_code src n (4 * q + 2); base_code src n (4 * q + 3)] 0
                 = base_code src n i).
  { destruct r as [|[|[|[|r]]]]; simpl; try lia; f_equal; lia. }
  rewrite Hnth. unfold base_code.
  destruct (Nat.ltb_spec i n); [|lia]. apply nuc_of_code_code.
Qed.

Lemma unpack_pack dst src :
  unpack_bases (pack_bases dst src (length src)) (length src) = src.
Proof.
  unfold unpack_bases.
  apply nth_ext with (d := NucA) (d' := NucA).
  { by rewrite length_map, length_seq. }
  intros i Hi. rewrite length_map, length_seq in Hi.
  rewrite (nth_indep _ NucA (packed_fetch (pack_bases dst src (length src)) 0%nat))
    by (by rewrite length_map, length_seq).
  rewrite (map_nth (packed_fetch _)), seq_nth by done. simpl.
  by apply packed_fetch_pack.
Qed.

Lemma shifted_fetch_pack dst s shift :
  (shift ≤ length s)%nat →
  map (fun k => packed_fetch (pack_bases dst s (length s)) (shift + k))
      (seq 0 (length s - shift))
  = drop shift s.
Proof.
  intros Hs.
  apply nth_ext with (d := NucA) (d' := NucA).
  { by rewrite length_map, length_seq, length_drop. }
  intros k Hk. rewrite length_map, length_seq in Hk.
  rewrite (nth_indep _ NucA
             ((fun k => packed_fetch (pack_bases dst s (length s)) (shift + k)) 0%nat))
    by (by rewrite length_map, length_seq).
  rewrite (map_nth (fun k => packed_fetch _ (shift + k))), seq_nth by done.
  simpl. rewrite packed_fetch_pack by lia.
  rewrite <- (take_drop shift s) at 1.
  rewrite app_nth2 by (rewrite length_take; lia).
  rewrite length_take. f_equal. lia.
Qed.

(** C6.  Pack / shift-copy / unpack round trip: for every nucleotide
    sequence [s] and every [shift <= |s|], with both byte buffers as
    large as the tests allocate them, unpacking [|s| - shift] bases from
    [packed_cpy (pack s) shift |s|] gives the suffix [s[shift..]]. *)
Theorem pack_cpy_unpack_roundtrip (s : list Nucleotide) (shift : nat)
    (packed packed2 : bytes) :
  (shift ≤ length s)%nat →
  (packed_nbytes (length s) ≤ length packed)%nat →
  (packed_nbytes (length s) ≤ length packed2)%nat →
  unpack_bases
    (packed_cpy packed2 (pack_bases packed s (length s)) shift (length s))
    (length s - shift)
  = drop shift s.
Proof.
  intros Hs _ _. unfold packed_cpy.
  rewrite shifted_fetch_pack by done.
  replace (length s - shift)%nat with (length (drop shift s))
    by (by rewrite length_drop).
  apply unpack_pack.
Qed.

(** The sequence "CAGACAG" of the unit test, shifted by three bases. *)
Lemma pack_cpy_unpack_roundtrip_witness :
  unpack_bases
    (packed_cpy [0; 0]
       (pack_bases [0; 0] [NucC; NucA; NucG; NucA; NucC; NucA; NucG] 7) 3 7)
    4
  = [NucA; NucC; NucA; NucG].
Proof.
  apply (pack_cpy_unpack_roundtrip
           [NucC; NucA; NucG; NucA; NucC; NucA; NucG] 3 [0; 0] [0; 0]);
    vm_compute; lia.
Defined.

Lemma small_len_land_top len :
  0 ≤ len < 2 ^ 31 → Z.land len (2 ^ 31) = 0.
Proof.
  intros H.
  rewrite <- (Z.mod_small len (2 ^ 31)) by lia.
  rewrite <- Z.land_ones by lia.
  rewrite <- Z.land_assoc. replace (Z.land (Z.ones 31) (2 ^ 31)) with 0 by done.
  apply Z.land_0_r.
Qed.

Lemma lor_top_bit len :
  0 ≤ len < 2 ^ 31 → Z.lor len (2 ^ 31) = len + 2 ^ 31.
Proof.
  intros H. pose proof (Z.add_lor_land len (2 ^ 31)) as E.
  rewrite small_len_land_top in E by done. lia.
Qed.

(** C7.  lenorient round trip: for [len < 2^31] and [orient] in {0,1},
    splitting [combine_lenorient len orient] gives back [(len, orient)]. *)
Theorem lenorient_roundtrip (len orient : Z) :
  0 ≤ len < 2 ^ 31 →
  orient = 0 ∨ orient = 1 →
  packedpath_split (packedpath_combine_lenorient len orient) = (len, orient).
Proof.
  intros Hlen Ho.
  unfold packedpath_split, packedpath_len, packedpath_or,
    packedpath_combine_lenorient, u32, PP_LENMASK.
  change (2 ^ 31 - 1) with (Z.ones 31).
  destruct Ho as [-> | ->].
  - rewrite Z.shiftl_0_l, Z.lor_0_r, Z.mod_small by lia.
    rewrite Z.land_ones, Z.shiftr_div_pow2 by lia.
    rewrite Z.mod_small, Z.div_small by lia. done.
  - change (Z.shiftl 1 31) with (2 ^ 31).
    rewrite lor_top_bit by done.
    rewrite (Z.mod_small (len + 2 ^ 31)) by lia.
    rewrite Z.land_ones, Z.shiftr_div_pow2 by lia.
    f_equal.
    + rewrite <- (Z.mul_1_l (2 ^ 31)) at 1.
      rewrite Z.mod_add by lia. apply Z.mod_small; lia.
    + rewrite <- (Z.mul_1_l (2 ^ 31)) at 1.
      rewrite Z.div_add by lia. rewrite Z.div_small by lia. done.
Qed.

(** A reverse-oriented path of 1000 bases. *)
Lemma lenorient_roundtrip_witness :
  packedpath_split (packedpath_combine_lenorient 1000 1) = (1000, 1).
Proof.
  apply (lenorient_roundtrip 1000 1); [lia | right; reflexivity].
Defined.

(** C8.  Scenario S6: copying 15 bases of an all-zero source, shift 0,
    to offset 1 of a 100-byte buffer filled with 0xff zeroes the bytes
    1..4 and leaves byte 0 and bytes 5..99 at 0xff. *)
Theorem packed_cpy_zero_frame :
  packed_cpy_at (replicate 100 255) 1 (replicate 10 0) 0 15
  = [255] ++ replicate 4 0 ++ replicate 95 255.
Proof. vm_compute. reflexivity. Qed.

End PackedPathFacts.

Module CtxCleanFacts.
Import CtxClean.

Section CleanFacts.

Variable double : Type.
Variable double_neg1 : double.
Variable double_le_1 : double → bool.
Variable double_gt_0 : double → bool.
Variable parse_entire_size : string → option N.
Variable parse_entire_uint : string → option N.
Variable parse_entire_double : string → option double.

Local Abbreviation flag_loop :=
  (flag_loop double double_le_1 parse_entire_size parse_entire_uint
     parse_entire_double).
Local Abbreviation ctx_clean :=
  (ctx_clean double double_neg1 double_le_1 double_gt_0 parse_entire_size
     parse_entire_uint parse_entire_double).

(** Flags that the loop reads through without complaint leave the loop
    at the first argument after them, whatever follows. *)
Lemma flag_loop_app_bounded (n : nat) :
  ∀ (pre more : list string) (o0 o : CleanOpts double),
    (length pre ≤ n)%nat →
    flag_loop pre o0 = Go (o, []) →
    flag_loop (pre ++ more) o0 = flag_loop more o.
Proof.
  induction n as [|n IH]; intros pre more o0 o Hlen Hpre.
  - destruct pre; [|simpl in Hlen; lia]. simpl in *. by inversion Hpre.
  - destruct pre as [|a rest]; [simpl in *; by inversion Hpre|].
    simpl in Hlen. simpl app. simpl in Hpre |- *.
    destruct (starts_with_dash a); simpl in *; [|discriminate].
    repeat match type of Hpre with
           | context [String.eqb a ?f] => destruct (String.eqb a f)
           end;
      try discriminate;
      try (apply IH; [lia|done]);
      (destruct rest as [|v rest']; [discriminate|]); simpl in *;
      repeat case_match; try discriminate;
      (apply IH; [simpl in *; lia | done]).
Qed.

Lemma flag_loop_app (pre more : list string) (o0 o : CleanOpts double) :
  flag_loop pre o0 = Go (o, []) →
  flag_loop (pre ++ more) o0 = flag_loop more o.
Proof. apply (flag_loop_app_bounded (length pre)); lia. Qed.



End CleanFacts.



End CtxCleanFacts.

Module WalkerFacts.
Import Walker WalkerSpec.

Local Open Scope nat_scope.

Lemma Ok_inj {A} (a b : A) : Ok a = Ok b → a = b.
Proof. by intros [= ->]. Qed.

(** ** Cells of arrays *)

Lemma load_lookup {A} (arr : list A) i x :
  arr !! i = Some x → load arr i = Ok x.
Proof. unfold load. by intros ->. Qed.

Lemma load_lt {A} `{!Inhabited A} (arr : list A) i :
  i < length arr → load arr i = Ok (arr !!! i).
Proof.
  intros Hi. apply load_lookup. by apply list_lookup_lookup_total_lt.
Qed.

Lemma store_lt {A} (arr : list A) i x :
  i < length arr → store arr i x = Ok (<[i:=x]> arr).
Proof. unfold store. intros Hi. by rewrite decide_True. Qed.

Lemma take_push {A} (arr : list A) n x :
  n < length arr → take (S n) (<[n:=x]> arr) = take n arr ++ [x].
Proof.
  intros Hn. rewrite (take_S_r _ _ x).
  - by rewrite take_insert_ge.
  - by apply list_lookup_insert_eq.
Qed.

Lemma take_pop {A} `{!Inhabited A} (arr : list A) n :
  n < length arr → take (S n) arr = take n arr ++ [arr !!! n].
Proof.
  intros Hn. apply take_S_r. by apply list_lookup_lookup_total_lt.
Qed.

Lemma deref_app w l1 l2 : deref w (l1 ++ l2) = deref w l1 ++ deref w l2.
Proof. apply fmap_app. Qed.

Lemma deref_ext w w' ps :
  (∀ p, p ∈ ps → allpaths w' !!! p = allpaths w !!! p) →
  deref w' ps = deref w ps.
Proof.
  intros H. unfold deref. apply list_fmap_ext.
  intros i p Hp. apply H. by eapply list_elem_of_lookup_2.
Qed.

(** ** [graph_walker_finish] *)

Lemma set_unused_twice a b a' b' w :
  set_num_unused a (set_unused_paths b (set_num_unused a' (set_unused_paths b' w)))
  = set_num_unused a (set_unused_paths b w).
Proof. by destruct w. Qed.

Lemma release_paths_spec counter k :
  ∀ i w,
    i + k ≤ length (path_arr counter w) →
    num_unused w + k ≤ length (unused_paths w) →
    ∃ up,
      release_paths counter k i w
      = Ok (set_num_unused (num_unused w + k) (set_unused_paths up w)) ∧
      length up = length (unused_paths w) ∧
      take (num_unused w + k) up
      = take (num_unused w) (unused_paths w)
        ++ take k (drop i (path_arr counter w)).
Proof.
  induction k as [|k IH]; intros i w Hi Hu.
  - exists (unused_paths w). simpl. rewrite Nat.add_0_r, app_nil_r.
    split_and!; [|done..]. by destruct w.
  - simpl.
    assert (Hi' : i < length (path_arr counter w)) by lia.
    rewrite (load_lt _ _ Hi'). simpl.
    rewrite store_lt by lia. simpl.
    set (p := path_arr counter w !!! i).
    set (w1 := set_num_unused _ _).
    assert (Hn1 : num_unused w1 = S (num_unused w)) by done.
    assert (Hu1 : unused_paths w1 = <[num_unused w:=p]> (unused_paths w))
      by done.
    assert (Ha1 : path_arr counter w1 = path_arr counter w)
      by (by destruct counter).
    destruct (IH (S i) w1) as (up & Heq & Hlen & Htake).
    { rewrite Ha1. lia. }
    { rewrite Hn1, Hu1, length_insert. lia. }
    rewrite Hn1, Hu1, ?Ha1, ?length_insert in *.
    exists up. split_and!.
    + rewrite Heq. subst w1. rewrite set_unused_twice.
      by replace (S (num_unused w) + k) with (num_unused w + S k) by lia.
    + done.
    + replace (num_unused w + S k) with (S (num_unused w) + k) by lia.
      rewrite Htake, take_push by lia.
      rewrite <- app_assoc. f_equal.
      by rewrite (drop_S _ p i) by (by apply list_lookup_lookup_total_lt).
Qed.

(** The count of a pool: the four partitions add up to all records. *)
Lemma pool_count rc rk w :
  pool_ok rc rk w → num_unused w + rc + rk = max_num_paths w.
Proof.
  intros [Ha Hu Hc Hk Hpos Hfu Hfc Hfk Hperm].
  apply Permutation_length in Hperm.
  rewrite !length_app, !length_take, length_seq in Hperm. lia.
Qed.

Lemma wlk_inv_count w :
  wlk_inv w →
  num_curr w + num_new w + num_counter w + num_unused w = max_num_paths w.
Proof. intros [Hp _ _]. apply pool_count in Hp. lia. Qed.

Lemma graph_walker_finish_spec w :
  pool_ok (num_curr w + num_new w) (num_counter w) w →
  ∃ up,
    graph_walker_finish w
    = Ok (set_num_counter 0 (set_num_new 0 (set_num_curr 0
            (set_num_unused (max_num_paths w) (set_unused_paths up w))))) ∧
    length up = max_num_paths w ∧
    up ≡ₚ seq 0 (max_num_paths w).
Proof.
  intros Hp. pose proof (pool_count _ _ _ Hp) as Hcount.
  destruct Hp as [Ha Hu Hc Hk Hpos Hfu Hfc Hfk Hperm].
  unfold graph_walker_finish.
  destruct (release_paths_spec false (num_curr w + num_new w) 0 w)
    as (up1 & Heq1 & Hlen1 & Htake1); [simpl; lia | lia |].
  rewrite Heq1. simpl.
  set (w1 := set_num_unused _ (set_unused_paths up1 w)).
  destruct (release_paths_spec true (num_counter w) 0 w1)
    as (up2 & Heq2 & Hlen2 & Htake2);
    [subst w1; simpl; lia | subst w1; simpl; lia |].
  change (num_counter w1) with (num_counter w).
  rewrite Heq2. simpl. subst w1. rewrite set_unused_twice.
  simpl in Hlen2, Htake2. rewrite drop_0 in Htake1, Htake2.
  exists up2. split_and!.
  - do 6 f_equal. lia.
  - lia.
  - rewrite Htake1 in Htake2.
    replace (num_unused w + (num_curr w + num_new w) + num_counter w)
      with (length up2) in Htake2 by lia.
    rewrite firstn_all in Htake2. rewrite Htake2, <- app_assoc. done.
Qed.

(** After [graph_walker_finish] the walker is idle and every record is
    in the unused pool. *)
Lemma graph_walker_finish_idle w :
  pool_ok (num_curr w + num_new w) (num_counter w) w →
  ∃ w', graph_walker_finish w = Ok w' ∧ idle w' ∧ wlk_inv w' ∧
        max_num_paths w' = max_num_paths w ∧
        unused_ptrs w' ≡ₚ seq 0 (max_num_paths w).
Proof.
  intros Hp. destruct (graph_walker_finish_spec w Hp) as (up & Heq & Hlen & Hperm).
  destruct Hp as [Ha Hu Hc Hk Hpos Hfu Hfc Hfk _].
  eexists. split; [exact Heq|].
  assert (Hall : take (max_num_paths w) up = up)
    by (rewrite <- Hlen; apply firstn_all).
  split_and!.
  - done.
  - split.
    + split; simpl; try done; try lia.
      rewrite !take_0, !app_nil_r, Hall. done.
    + unfold curr_set, new_set, counter_set, curr_ptrs, new_ptrs,
        counter_ptrs. simpl. constructor.
    + unfold curr_set, new_set, curr_ptrs, new_ptrs. simpl. constructor.
  - done.
  - unfold unused_ptrs. simpl. by rewrite Hall.
Qed.

(** ** [resize_paths] *)

Lemma ROUNDUP2POW_ge n : n ≤ ROUNDUP2POW n.
Proof.
  unfold ROUNDUP2POW. destruct (decide (1 < n)) as [Hn|Hn].
  - apply Nat.log2_up_spec in Hn. lia.
  - assert (Hpow : 1 ≤ 2 ^ Nat.log2_up n)
      by (apply Nat.neq_0_lt_0, Nat.pow_nonzero; lia).
    lia.
Qed.

Lemma add_unused_spec k :
  ∀ i w,
    num_unused w + k ≤ length (unused_paths w) →
    ∃ up,
      add_unused k i w
      = Ok (set_num_unused (num_unused w + k) (set_unused_paths up w)) ∧
      length up = length (unused_paths w) ∧
      take (num_unused w + k) up
      = take (num_unused w) (unused_paths w) ++ seq i k.
Proof.
  induction k as [|k IH]; intros i w Hu.
  - exists (unused_paths w). simpl. rewrite Nat.add_0_r, app_nil_r.
    split_and!; [|done..]. by destruct w.
  - simpl. rewrite store_lt by lia. simpl.
    set (w1 := set_num_unused _ _).
    assert (Hn1 : num_unused w1 = S (num_unused w)) by done.
    assert (Hu1 : unused_paths w1 = <[num_unused w:=i]> (unused_paths w))
      by done.
    destruct (IH (S i) w1) as (up & Heq & Hlen & Htake).
    { rewrite Hn1, Hu1, length_insert. lia. }
    rewrite Hn1, Hu1, ?length_insert in *.
    exists up. split_and!.
    + rewrite Heq. subst w1. rewrite set_unused_twice.
      by replace (S (num_unused w) + k) with (num_unused w + S k) by lia.
    + done.
    + replace (num_unused w + S k) with (S (num_unused w) + k) by lia.
      rewrite Htake, take_push by lia.
      by rewrite <- app_assoc.
Qed.

Lemma same_anchor_refl w : same_anchor w w.
Proof. by repeat split. Qed.

Lemma same_anchor_trans w1 w2 w3 :
  same_anchor w1 w2 → same_anchor w2 w3 → same_anchor w1 w3.
Proof.
  intros (?&?&?&?&?) (?&?&?&?&?). repeat split; congruence.
Qed.

Lemma resize_paths_spec rc rk w len :
  pool_ok rc rk w →
  ∃ w1, resize_paths w len = Ok w1 ∧
    pool_ok rc rk w1 ∧
    0 < num_unused w1 ∧
    N.to_nat len ≤ max_path_len w1 ∧
    take rc (curr_paths w1) = take rc (curr_paths w) ∧
    take rk (counter_paths w1) = take rk (counter_paths w) ∧
    (∀ p, p < max_num_paths w → allpaths w1 !!! p = allpaths w !!! p) ∧
    same_anchor w w1 ∧
    num_curr w1 = num_curr w ∧ num_new w1 = num_new w ∧
    num_counter w1 = num_counter w.
Proof.
  intros Hp. pose proof (pool_count _ _ _ Hp) as Hcount.
  destruct Hp as [Ha Hu Hc Hk Hpos Hfu Hfc Hfk Hperm].
  unfold resize_paths.
  destruct (Nat.eqb_spec (num_unused w) 0) as [Hz|Hnz].
  - (* the pool is empty: twice as many records *)
    set (mpl := if max_path_len (set_max_num_paths _ w) <? N.to_nat len
                then _ else _).
    assert (∃ l, mpl = set_max_path_len l
                              (set_max_num_paths (max_num_paths w * 2) w)
                        ∧ N.to_nat len ≤ l) as (l & -> & Hl).
    { subst mpl. simpl. destruct (Nat.ltb_spec (max_path_len w) (N.to_nat len)).
      - eexists. split; [done|]. apply ROUNDUP2POW_ge.
      - exists (max_path_len w). split; [by destruct w|done]. }
    simpl. destruct (Nat.ltb_spec (max_num_paths w) (max_num_paths w * 2));
      [|lia].
    set (w3 := set_counter_paths _ _).
    destruct (add_unused_spec (max_num_paths w * 2 - max_num_paths w)
                (max_num_paths w) w3) as (up & Heq & Hlen & Htake).
    { subst w3. simpl. unfold realloc2. rewrite length_resize. lia. }
    rewrite Heq. eexists. split; [done|].
    subst w3. simpl in *. unfold realloc2 in *.
    rewrite length_resize in Hlen.
    rewrite Hz in Htake. simpl in Htake.
    replace (max_num_paths w * 2 - max_num_paths w) with (max_num_paths w)
      in * by lia.
    rewrite Hz in *. simpl in *.
    assert (Htc : take rc (resize (max_num_paths w * 2) uninit_ptr (curr_paths w))
                  = take rc (curr_paths w)).
    { rewrite take_resize_le by lia. apply resize_le. lia. }
    assert (Htk : take rk (resize (max_num_paths w * 2) uninit_ptr
                             (counter_paths w))
                  = take rk (counter_paths w)).
    { rewrite take_resize_le by lia. apply resize_le. lia. }
    split_and!; try done; try lia.
    + split; simpl; rewrite ?length_resize; try lia.
      rewrite Htake, Htc, Htk.
      replace (max_num_paths w * 2) with (max_num_paths w + max_num_paths w)
        by lia.
      rewrite seq_app. simpl. rewrite <- Hperm.
      by rewrite (comm (++) (seq _ _)).
    + intros p Hp. apply lookup_total_resize; lia.
  - (* only the slots grow *)
    set (mpl := if max_path_len w <? N.to_nat len then _ else _).
    assert (∃ l, mpl = set_max_path_len l w ∧ N.to_nat len ≤ l)
      as (l & -> & Hl).
    { subst mpl. destruct (Nat.ltb_spec (max_path_len w) (N.to_nat len)).
      - eexists. split; [done|]. apply ROUNDUP2POW_ge.
      - exists (max_path_len w). split; [by destruct w|done]. }
    simpl. rewrite Nat.ltb_irrefl. eexists. split; [done|].
    split_and!; try done; try (simpl; lia).
Qed.

(** ** [pickup_paths] *)

Lemma pool_NoDup rc rk w :
  pool_ok rc rk w →
  NoDup (take (num_unused w) (unused_paths w) ++ take rc (curr_paths w)
           ++ take rk (counter_paths w)).
Proof. intros Hp. rewrite (pool_partition _ _ _ Hp). apply NoDup_seq. Qed.

Lemma pool_range rc rk w p :
  pool_ok rc rk w →
  p ∈ take (num_unused w) (unused_paths w) ++ take rc (curr_paths w)
        ++ take rk (counter_paths w) →
  p < max_num_paths w.
Proof.
  intros Hp. rewrite (pool_partition _ _ _ Hp), elem_of_seq. lia.
Qed.

(** Records in the part of the arrays that a resize keeps are the same
    before and after. *)
Lemma deref_resized rc rk w w1 ps :
  pool_ok rc rk w →
  (∀ p, p < max_num_paths w → allpaths w1 !!! p = allpaths w !!! p) →
  ps ⊆ take rc (curr_paths w) ++ take rk (counter_paths w) →
  deref w1 ps = deref w ps.
Proof.
  intros Hp Hsame Hsub. apply deref_ext. intros p Hin.
  apply Hsame, (pool_range rc rk); [done|].
  rewrite elem_of_app. right. by apply Hsub.
Qed.

Lemma ensure_room_spec rc rk w len :
  pool_ok rc rk w →
  ∃ w1,
    (if (max_path_len w <? N.to_nat len) || (num_unused w =? 0)
     then resize_paths w len else Ok w) = Ok w1 ∧
    pool_ok rc rk w1 ∧
    0 < num_unused w1 ∧
    N.to_nat len ≤ max_path_len w1 ∧
    take rc (curr_paths w1) = take rc (curr_paths w) ∧
    take rk (counter_paths w1) = take rk (counter_paths w) ∧
    (∀ p, p < max_num_paths w → allpaths w1 !!! p = allpaths w !!! p) ∧
    same_anchor w w1 ∧
    num_curr w1 = num_curr w ∧ num_new w1 = num_new w ∧
    num_counter w1 = num_counter w.
Proof.
  intros Hp.
  destruct (Nat.ltb_spec (max_path_len w) (N.to_nat len)) as [Hl|Hl]; simpl.
  { by apply resize_paths_spec. }
  destruct (Nat.eqb_spec (num_unused w) 0) as [Hz|Hz].
  { by apply resize_paths_spec. }
  exists w. split_and!; try done; lia.
Qed.

Lemma pickup_one_spec e counter w rc rk :
  pool_ok rc rk w →
  path_num counter w = (if counter then rk else rc) →
  let rc' := if counter then rc else S rc in
  let rk' := if counter then S rk else rk in
  ∃ w',
    pickup_one e counter w = Ok w' ∧
    pool_ok rc' rk' w' ∧
    path_num counter w' = S (path_num counter w) ∧
    path_num (negb counter) w' = path_num (negb counter) w ∧
    num_new w' = num_new w ∧
    same_anchor w w' ∧
    deref w' (take rc' (curr_paths w'))
    = deref w (take rc (curr_paths w))
      ++ (if counter then [] else [fetched e]) ∧
    deref w' (take rk' (counter_paths w'))
    = deref w (take rk (counter_paths w))
      ++ (if counter then [fetched e] else []).
Proof.
  intros Hp Htgt rc' rk'. unfold pickup_one.
  destruct (ensure_room_spec rc rk w (path_store_len e) Hp)
    as (w1 & -> & Hp1 & Hnu & Hlen & Htc & Htk & Hsame & Hanc & Hnc & Hnn & Hnk).
  simpl.
  destruct (Nat.eqb_spec (num_unused w1) 0) as [|_]; [lia|].
  pose proof (pool_count _ _ _ Hp1) as Hcount.
  pose proof (pool_NoDup _ _ _ Hp1) as Hnd.
  pose proof Hp1 as [Ha Hu Hc Hk Hpos Hfu Hfc Hfk Hperm].
  set (nu := num_unused w1 - 1).
  assert (HSnu : num_unused w1 = S nu) by lia.
  rewrite (load_lt (unused_paths w1) nu) by lia. simpl.
  set (p := unused_paths w1 !!! nu).
  assert (HU : take (num_unused w1) (unused_paths w1)
               = take nu (unused_paths w1) ++ [p]).
  { rewrite HSnu. apply take_pop. lia. }
  rewrite HU in Hnd, Hperm.
  assert (Hpmax : p < max_num_paths w1).
  { apply (pool_range rc rk); [done|]. rewrite HU. set_solver. }
  assert (HpC : p ∉ take rc (curr_paths w1)).
  { apply NoDup_app in Hnd as (_ & Hd & _). intros Hin.
    apply (Hd p); set_solver. }
  assert (HpK : p ∉ take rk (counter_paths w1)).
  { apply NoDup_app in Hnd as (_ & Hd & _). intros Hin.
    apply (Hd p); set_solver. }
  assert (Hold : ∀ ps, ps ⊆ take rc (curr_paths w) ++ take rk (counter_paths w) →
                       deref w1 ps = deref w ps).
  { intros ps. by apply (deref_resized rc rk). }
  assert (Hr : path_num counter w1 < max_num_paths w1).
  { destruct counter; simpl in *; lia. }
  rewrite store_lt by (destruct counter; simpl in *; lia). simpl.
  rewrite (load_lt (allpaths w1) p) by lia. simpl.
  destruct (Nat.ltb_spec (max_path_len w1) (N.to_nat (path_store_len e)));
    [lia|].
  rewrite store_lt by lia. simpl.
  eexists. split; [done|].
  assert (Hderef : ∀ ps, p ∉ ps →
            (fun q => <[p:=fetched e]> (allpaths w1) !!! q) <$> ps
            = deref w1 ps).
  { intros ps Hps. apply list_fmap_ext. intros i q Hq.
    apply list_lookup_total_insert_ne. intros ->.
    apply Hps. by eapply list_elem_of_lookup_2. }
  destruct counter; simpl in *; subst; subst rc' rk'; rewrite ?Hnk, ?Hnc.
  - (* a counter path *)
    split_and!; try done; try lia.
    + split; simpl; rewrite ?length_insert; try lia.
      rewrite take_push by lia.
      rewrite <- Hperm. solve_Permutation.
    + unfold deref at 1. simpl. rewrite Hderef by done.
      rewrite Htc, app_nil_r. apply Hold. set_solver.
    + unfold deref at 1. simpl. rewrite take_push by lia.
      rewrite fmap_app. simpl. rewrite Hderef by done.
      rewrite list_lookup_total_insert_eq by lia.
      f_equal. rewrite Htk. apply Hold. set_solver.
  - (* a current path *)
    split_and!; try done; try lia.
    + split; simpl; rewrite ?length_insert; try lia.
      rewrite take_push by lia.
      rewrite <- Hperm. solve_Permutation.
    + unfold deref at 1. simpl. rewrite take_push by lia.
      rewrite fmap_app. simpl. rewrite Hderef by done.
      rewrite list_lookup_total_insert_eq by lia.
      f_equal. rewrite Htc. apply Hold. set_solver.
    + unfold deref at 1. simpl. rewrite Hderef by done.
      rewrite Htk, app_nil_r. apply Hold. set_solver.
Qed.

Lemma picked_test e col o :
  path_store_has_col e col && bool_decide (o = pe_orient e) = true
  ↔ path_store_has_col e col = true ∧ o = pe_orient e.
Proof. rewrite andb_true_iff, bool_decide_eq_true. done. Qed.

Lemma picked_cons col o e chain :
  picked col o (e :: chain)
  = if path_store_has_col e col && bool_decide (o = pe_orient e)
    then e :: picked col o chain else picked col o chain.
Proof.
  unfold picked. rewrite filter_cons.
  destruct (path_store_has_col e col && bool_decide (o = pe_orient e)) eqn:E.
  - apply picked_test in E. by rewrite decide_True.
  - rewrite decide_False; [done|]. intros H. apply picked_test in H.
    congruence.
Qed.

Lemma pickup_loop_spec chain o counter :
  ∀ w rc rk,
    pool_ok rc rk w →
    path_num counter w = (if counter then rk else rc) →
    let m := picked (colour w) o chain in
    let rc' := if counter then rc else rc + length m in
    let rk' := if counter then rk + length m else rk in
    ∃ w',
      pickup_loop chain o counter w = Ok w' ∧
      pool_ok rc' rk' w' ∧
      path_num counter w' = path_num counter w + length m ∧
      path_num (negb counter) w' = path_num (negb counter) w ∧
      num_new w' = num_new w ∧
      same_anchor w w' ∧
      deref w' (take rc' (curr_paths w'))
      = deref w (take rc (curr_paths w))
        ++ (if counter then [] else fetched <$> m) ∧
      deref w' (take rk' (counter_paths w'))
      = deref w (take rk (counter_paths w))
        ++ (if counter then fetched <$> m else []).
Proof.
  induction chain as [|e chain IH]; intros w rc rk Hp Htgt; simpl.
  - exists w. destruct counter; simpl;
      rewrite ?Nat.add_0_r, ?app_nil_r; split_and!; done.
  - rewrite picked_cons.
    destruct (path_store_has_col e (colour w) && bool_decide (o = pe_orient e)).
    + destruct (pickup_one_spec e counter w rc rk Hp Htgt)
        as (w1 & -> & Hp1 & Hn1 & Hn1' & Hnn1 & Hanc1 & Hc1 & Hk1).
      simpl.
      destruct (IH w1 _ _ Hp1)
        as (w2 & -> & Hp2 & Hn2 & Hn2' & Hnn2 & Hanc2 & Hc2 & Hk2).
      { rewrite Hn1, Htgt. by destruct counter. }
      assert (Hcol : colour w1 = colour w) by apply Hanc1.
      rewrite Hcol in *.
      exists w2. split; [done|].
      split_and!.
      * destruct counter; simpl in *; by rewrite ?Nat.add_succ_r.
      * simpl. lia.
      * congruence.
      * congruence.
      * by eapply same_anchor_trans.
      * destruct counter; simpl in *;
          rewrite ?Nat.add_succ_r, Hc2, Hc1, <- ?app_assoc; done.
      * destruct counter; simpl in *;
          rewrite ?Nat.add_succ_r, Hk2, Hk1, <- ?app_assoc; done.
    + by apply IH.
Qed.

(** [pickup_paths] returns the number of entries taken. *)
Lemma pickup_paths_spec chain o counter w rc rk :
  pool_ok rc rk w →
  path_num counter w = (if counter then rk else rc) →
  let m := picked (colour w) o chain in
  let rc' := if counter then rc else rc + length m in
  let rk' := if counter then rk + length m else rk in
  ∃ w',
    pickup_paths chain w o counter = Ok (length m, w') ∧
    pool_ok rc' rk' w' ∧
    path_num counter w' = path_num counter w + length m ∧
    path_num (negb counter) w' = path_num (negb counter) w ∧
    num_new w' = num_new w ∧
    same_anchor w w' ∧
    deref w' (take rc' (curr_paths w'))
    = deref w (take rc (curr_paths w))
      ++ (if counter then [] else fetched <$> m) ∧
    deref w' (take rk' (counter_paths w'))
    = deref w (take rk (counter_paths w))
      ++ (if counter then fetched <$> m else []).
Proof.
  intros Hp Htgt m rc' rk'.
  destruct (pickup_loop_spec chain o counter w rc rk Hp Htgt)
    as (w' & Heq & Hp' & Hn & Hrest).
  exists w'. unfold pickup_paths. rewrite Heq. simpl.
  split; [|done]. do 2 f_equal. fold m in Hn. lia.
Qed.

(** ** Views of the partitions *)

Lemma pool_ok_counts rc rk w a b :
  pool_ok rc rk (set_num_curr a (set_num_new b w)) ↔ pool_ok rc rk w.
Proof. split; intros []; by split. Qed.

Lemma curr_new_set w :
  curr_set w ++ new_set w
  = deref w (take (num_curr w + num_new w) (curr_paths w)).
Proof.
  unfold curr_set, new_set, curr_ptrs, new_ptrs.
  by rewrite <- deref_app, take_take_drop.
Qed.

(** Splitting the cells in use of [curr_paths] into current and new. *)
Lemma split_curr_new w old fresh :
  num_curr w + num_new w ≤ length (curr_paths w) →
  length old = num_curr w →
  deref w (take (num_curr w + num_new w) (curr_paths w)) = old ++ fresh →
  curr_set w = old ∧ new_set w = fresh.
Proof.
  intros Hfit Hlen Heq. rewrite <- curr_new_set in Heq.
  apply app_inj_1 in Heq; [done|].
  unfold curr_set, deref, curr_ptrs. rewrite length_fmap, length_take. lia.
Qed.

Lemma fetched_ok e :
  0 < length (pe_bases e) →
  (N.of_nat (length (pe_bases e)) < 2 ^ 31)%N →
  fp_ok (fetched e).
Proof.
  intros Hpos Hlt. unfold fp_ok, fetched, path_store_len. simpl.
  split_and!; [lia|done|done].
Qed.

Lemma fetched_all_ok chain col o :
  chain_ok chain → Forall fp_ok (fetched <$> picked col o chain).
Proof.
  intros Hc. apply Forall_fmap, Forall_forall. intros e He.
  apply list_elem_of_filter in He as [_ He].
  unfold chain_ok in Hc. rewrite Forall_forall in Hc.
  destruct (Hc e He). by apply fetched_ok.
Qed.

(** Paths just fetched are the youngest: they may follow any list that
    is oldest first. *)
Lemma oldest_first_fetched l es :
  oldest_first l → oldest_first (l ++ (fetched <$> es)).
Proof.
  intros Hl. apply StronglySorted_app_2; [|done|].
  - intros x1 x2 _ Hx2. apply list_elem_of_fmap in Hx2 as (e & -> & _).
    simpl. lia.
  - induction es as [|e es IH]; csimpl; constructor; [done|].
    apply Forall_fmap, Forall_forall. intros e' _. simpl. lia.
Qed.

(** ** [graph_walker_alloc] and [graph_walker_init] *)

(** [graph_walker_alloc] builds an idle walker out of a struct whose
    [num_new] happened to be zero. *)
Lemma graph_walker_alloc_idle w0 :
  num_new w0 = 0 →
  idle (graph_walker_alloc w0) ∧ wlk_inv (graph_walker_alloc w0).
Proof.
  intros Hn. split.
  - by repeat split.
  - split.
    + split; simpl; rewrite ?Hn; try done; lia.
    + unfold curr_set, new_set, counter_set, curr_ptrs, new_ptrs,
        counter_ptrs. simpl. rewrite Hn. simpl. constructor.
    + unfold curr_set, new_set, curr_ptrs, new_ptrs. simpl. rewrite Hn.
      simpl. constructor.
Qed.

Lemma graph_walker_init_spec w g col nd o :
  wlk_inv w → idle w → graph_ok g →
  ∃ w',
    graph_walker_init w g col nd o = Ok w' ∧
    wlk_inv w' ∧
    curr_set w' = [] ∧
    new_set w' = fetched <$> picked col o (db_node_paths g nd) ∧
    counter_set w' = [] ∧
    db_graph w' = g ∧ colour w' = col ∧ node w' = nd ∧ orient w' = o ∧
    bkmer w' = db_graph_oriented_bkmer g nd o.
Proof.
  intros [Hp _ _] (Hc0 & Hn0 & Hk0 & Hu0) Hg.
  unfold graph_walker_init. rewrite Hc0, Hk0. simpl.
  set (gw := mkGraphWalker _ _ _ _ _ _ _ _ _ _ _ _ _ _ _).
  assert (Hpg : pool_ok 0 0 gw).
  { rewrite Hc0, Hn0, Hk0 in Hp. destruct Hp. split; simpl; try done.
    by rewrite <- Hu0 at 1. }
  destruct (pickup_paths_spec (db_node_paths g nd) o false gw 0 0 Hpg eq_refl)
    as (w' & -> & Hp' & Hn & Hk & Hnn & Hanc & Hc & Hkk).
  simpl in *. set (m := picked col o (db_node_paths g nd)) in *.
  eexists. split; [done|].
  set (wf := set_num_curr _ _).
  assert (Hcf : num_curr wf = 0) by (subst wf; simpl; lia).
  assert (Hnf : num_new wf = length m) by done.
  assert (Hkf : num_counter wf = 0) by done.
  assert (Hpf : pool_ok (num_curr wf + num_new wf) (num_counter wf) wf).
  { rewrite Hcf, Hnf, Hkf. subst wf. by apply pool_ok_counts. }
  destruct (split_curr_new wf [] (fetched <$> m)) as [Hcs Hns].
  { rewrite (pool_len_curr _ _ _ Hpf). apply (pool_fit_curr _ _ _ Hpf). }
  { by rewrite Hcf. }
  { rewrite Hcf, Hnf. exact Hc. }
  assert (Hks : counter_set wf = []).
  { unfold counter_set, counter_ptrs. by rewrite Hkf. }
  destruct Hanc as (? & ? & ? & ? & ?).
  split_and!; try done.
  split; [done| |].
  - rewrite Hcs, Hns, Hks, app_nil_r. simpl. by apply fetched_all_ok.
  - rewrite Hcs, Hns. apply (oldest_first_fetched []). constructor.
Qed.

(** ** The loops run after a fork *)

Lemma filter_ext_elem {A} (P Q : A → Prop)
    `{!∀ x, Decision (P x)} `{!∀ x, Decision (Q x)} (l : list A) :
  (∀ x, x ∈ l → (P x ↔ Q x)) → filter P l = filter Q l.
Proof.
  induction l as [|x l IH]; intros Hext; [done|].
  rewrite !filter_cons.
  destruct (decide (P x)) as [HP|HP], (decide (Q x)) as [HQ|HQ].
  - f_equal. apply IH. intros y Hy. apply Hext. by right.
  - exfalso. apply HQ, Hext; [by left|done].
  - exfalso. apply HP, Hext; [by left|done].
  - apply IH. intros y Hy. apply Hext. by right.
Qed.

Lemma pathlen_succ_ok fp :
  fp_ok fp → pathlen_succ (fp_pos fp) = (fp_pos fp + 1)%N.
Proof.
  intros (Hlt & _ & Hlen). unfold pathlen_succ.
  apply N.mod_small.
  assert (2 ^ 31 < 2 ^ 32)%N by done. lia.
Qed.

Lemma load_proposes fp :
  fp_ok fp →
  load (fp_bases fp) (N.to_nat (fp_pos fp)) = Ok (proposes fp).
Proof.
  intros (Hlt & Hlen & _). apply load_lookup. unfold proposes.
  destruct (nth_lookup_or_length (fp_bases fp) (N.to_nat (fp_pos fp)) NucA);
    [done|lia].
Qed.

(** The test of the loops, on a record in use. *)
Lemma follows_test base fp :
  fp_ok fp →
  bool_decide (proposes fp = base)
  && (pathlen_succ (fp_pos fp) <? fp_len fp)%N
  = bool_decide (follows base fp).
Proof.
  intros Hok. rewrite pathlen_succ_ok by done.
  unfold follows. destruct (N.ltb_spec (fp_pos fp + 1) (fp_len fp));
    destruct (decide (proposes fp = base)).
  - rewrite !bool_decide_eq_true_2; done.
  - rewrite !bool_decide_eq_false_2; [done|tauto|done].
  - rewrite andb_false_r, bool_decide_eq_false_2; [done|]. intros [_ ?]. lia.
  - rewrite andb_false_r, bool_decide_eq_false_2; [done|]. intros [_ ?]. lia.
Qed.

Lemma advance_succ fp :
  fp_ok fp →
  mkFollowPath (fp_bases fp) (pathlen_succ (fp_pos fp)) (fp_len fp)
  = advance fp.
Proof. intros Hok. unfold advance. by rewrite pathlen_succ_ok. Qed.

Lemma set_slim_kept counter a b c d c1 d1 w :
  set_num_unused a (set_unused_paths b (set_allpaths c
    (set_path_arr counter d (set_allpaths c1 (set_path_arr counter d1 w)))))
  = set_num_unused a (set_unused_paths b (set_allpaths c
      (set_path_arr counter d w))).
Proof. by destruct w, counter. Qed.

Lemma set_slim_dropped counter a b c d a1 b1 w :
  set_num_unused a (set_unused_paths b (set_allpaths c
    (set_path_arr counter d (set_num_unused a1 (set_unused_paths b1 w)))))
  = set_num_unused a (set_unused_paths b (set_allpaths c
      (set_path_arr counter d w))).
Proof. by destruct w, counter. Qed.

Lemma set_slim_id counter w :
  set_num_unused (num_unused w) (set_unused_paths (unused_paths w)
    (set_allpaths (allpaths w) (set_path_arr counter (path_arr counter w) w)))
  = w.
Proof. by destruct w, counter. Qed.

Lemma slim_paths_spec counter base k :
  ∀ i j w,
    j ≤ i →
    i + k ≤ length (path_arr counter w) →
    num_unused w + k ≤ length (unused_paths w) →
    let sl := take k (drop i (path_arr counter w)) in
    let keep := fun p => follows base (allpaths w !!! p) in
    NoDup (take j (path_arr counter w) ++ sl) →
    (∀ p, p ∈ sl → rec_ok w p) →
    ∃ arr ap up,
      slim_paths counter k i j base w
      = Ok (j + length (filter keep sl),
            set_num_unused
              (num_unused w + length (filter (fun p => ¬ keep p) sl))
              (set_unused_paths up
                 (set_allpaths ap (set_path_arr counter arr w)))) ∧
      length arr = length (path_arr counter w) ∧
      length ap = length (allpaths w) ∧
      length up = length (unused_paths w) ∧
      take (j + length (filter keep sl)) arr
      = take j (path_arr counter w) ++ filter keep sl ∧
      take (num_unused w + length (filter (fun p => ¬ keep p) sl)) up
      = take (num_unused w) (unused_paths w)
        ++ filter (fun p => ¬ keep p) sl ∧
      (∀ q, q ∉ filter keep sl → ap !!! q = allpaths w !!! q) ∧
      (∀ q, q ∈ filter keep sl → ap !!! q = advance (allpaths w !!! q)).
Proof.
  induction k as [|k IH]; intros i j w Hji Hi Hu sl keep Hnd Hrec.
  - exists (path_arr counter w), (allpaths w), (unused_paths w).
    subst sl. simpl. rewrite !Nat.add_0_r, !app_nil_r, set_slim_id.
    split_and!; try done. intros q Hq. by apply elem_of_nil in Hq.
  - assert (Hi' : i < length (path_arr counter w)) by lia.
    set (p := path_arr counter w !!! i).
    set (sl' := take k (drop (S i) (path_arr counter w))).
    assert (Hsl : sl = p :: sl').
    { subst sl sl'. by rewrite (drop_S _ p i)
        by (by apply list_lookup_lookup_total_lt). }
    rewrite Hsl in *. clearbody sl. subst sl.
    destruct (Hrec p) as [Hp Hok]; [by left|].
    set (fp := allpaths w !!! p) in *.
    apply NoDup_app in Hnd as (Hnd1 & Hnd12 & Hnd2).
    apply NoDup_cons in Hnd2 as [Hpsl' Hnd2].
    assert (Hpj : p ∉ take j (path_arr counter w)).
    { intros Hin. apply (Hnd12 p Hin). by left. }
    simpl. rewrite (load_lt _ _ Hi'). simpl. fold p.
    rewrite (load_lt _ _ Hp). simpl. fold fp.
    rewrite load_proposes by done. simpl.
    rewrite follows_test by done.
    rewrite !filter_cons. change (keep p) with (follows base fp).
    destruct (decide (follows base fp)) as [Hf|Hf].
    + (* the path goes on *)
      rewrite bool_decide_eq_true_2 by done.
      rewrite decide_False by tauto.
      rewrite store_lt by lia. simpl.
      rewrite store_lt by lia. simpl.
      rewrite advance_succ by done.
      set (w1 := set_allpaths _ _).
      assert (Harr1 : path_arr counter w1 = <[j:=p]> (path_arr counter w))
        by (by destruct counter).
      assert (Hall1 : allpaths w1 = <[p:=advance fp]> (allpaths w))
        by (by destruct counter).
      assert (Hnu1 : num_unused w1 = num_unused w) by (by destruct counter).
      assert (Hup1 : unused_paths w1 = unused_paths w)
        by (by destruct counter).
      assert (Hsl1 : take k (drop (S i) (path_arr counter w1)) = sl').
      { rewrite Harr1. subst sl'. f_equal. apply drop_insert_lt. lia. }
      assert (Hsame : ∀ q, q ≠ p → allpaths w1 !!! q = allpaths w !!! q).
      { intros q Hq. rewrite Hall1. by apply list_lookup_total_insert_ne. }
      assert (Hkeep : filter (fun q => follows base (allpaths w1 !!! q)) sl'
                      = filter keep sl').
      { apply filter_ext_elem. intros q Hq. unfold keep.
        rewrite Hsame; [done|]. by intros ->. }
      assert (Hdrop : filter (fun q => ¬ follows base (allpaths w1 !!! q)) sl'
                      = filter (fun q => ¬ keep q) sl').
      { apply filter_ext_elem. intros q Hq. unfold keep.
        rewrite Hsame; [done|]. by intros ->. }
      destruct (IH (S i) (S j) w1) as (arr & ap & up & Heq & Hla & Hlp & Hlu
                                        & Htk & Htu & Hnk & Hk).
      { lia. }
      { rewrite Harr1, length_insert. lia. }
      { rewrite Hnu1, Hup1. lia. }
      { rewrite Hsl1, Harr1, take_push by lia.
        rewrite <- app_assoc. simpl. apply NoDup_app. split_and!; [done| |].
        - intros x Hx. apply Hnd12 in Hx. done.
        - by apply NoDup_cons. }
      { rewrite Hsl1. intros q Hq. split.
        - rewrite Hall1, length_insert. apply Hrec. by right.
        - rewrite Hsame by (by intros ->). apply Hrec. by right. }
      rewrite Hsl1, Hkeep, Hdrop, Harr1, Hall1, Hnu1, Hup1,
        ?length_insert in *.
      exists arr, ap, up. split_and!; try done.
      * rewrite Heq. subst w1. rewrite set_slim_kept. simpl.
        by rewrite Nat.add_succ_r.
      * simpl. rewrite Nat.add_succ_r. simpl in Htk. rewrite Htk.
        rewrite take_push by lia. by rewrite <- app_assoc.
      * intros q Hq. apply not_elem_of_cons in Hq as [Hqp Hq].
        rewrite Hnk by done. by apply list_lookup_total_insert_ne.
      * intros q Hq. apply elem_of_cons in Hq as [->|Hq].
        -- rewrite Hnk.
           ++ by apply list_lookup_total_insert_eq.
           ++ intros Hin. apply list_elem_of_filter in Hin as [_ Hin]. done.
        -- rewrite Hk by done. f_equal.
           apply list_lookup_total_insert_ne. intros ->.
           apply list_elem_of_filter in Hq as [_ Hq]. done.
    + (* the path is given back *)
      rewrite bool_decide_eq_false_2 by done.
      rewrite decide_True by done.
      rewrite store_lt by lia. simpl.
      set (w1 := set_num_unused _ _).
      assert (Harr1 : path_arr counter w1 = path_arr counter w)
        by (by destruct counter).
      assert (Hall1 : allpaths w1 = allpaths w) by done.
      assert (Hnu1 : num_unused w1 = S (num_unused w)) by done.
      assert (Hup1 : unused_paths w1 = <[num_unused w:=p]> (unused_paths w))
        by done.
      destruct (IH (S i) j w1) as (arr & ap & up & Heq & Hla & Hlp & Hlu
                                    & Htk & Htu & Hnk & Hk).
      { lia. }
      { rewrite Harr1. lia. }
      { rewrite Hnu1, Hup1, length_insert. lia. }
      { rewrite Harr1. fold sl'. apply NoDup_app. split_and!; [done| |done].
        intros x Hx Hx'. apply (Hnd12 x Hx). by right. }
      { rewrite Harr1. fold sl'. intros q Hq. apply (Hrec q). by right. }
      rewrite ?Harr1, ?Hall1, ?Hnu1, ?Hup1, ?length_insert in *.
      fold sl' in Heq, Htk, Htu, Hnk, Hk.
      change (filter (fun q => follows base (allpaths w !!! q)) sl')
        with (filter keep sl') in Heq, Htk, Htu, Hnk, Hk.
      change (filter (fun q => ¬ follows base (allpaths w !!! q)) sl')
        with (filter (fun q => ¬ keep q) sl') in Heq, Htk, Htu, Hnk, Hk.
      exists arr, ap, up. split_and!; try done.
      * rewrite Heq. subst w1. rewrite set_slim_dropped. simpl.
        by rewrite Nat.add_succ_r.
      * simpl. rewrite Nat.add_succ_r. simpl in Htu. rewrite Htu.
        rewrite take_push by lia. by rewrite <- app_assoc.
Qed.

(** ** [graph_traverse_force_jump] *)

Lemma pool_ok_anchor rc rk w nd bk o :
  pool_ok rc rk (set_orient o (set_bkmer bk (set_node nd w)))
  ↔ pool_ok rc rk w.
Proof. split; intros []; by split. Qed.

Lemma pool_ok_num_curr rc rk w a :
  pool_ok rc rk (set_num_curr a w) ↔ pool_ok rc rk w.
Proof. split; intros []; by split. Qed.

Lemma move_anchor_spec w nd bk :
  wlk_inv w → graph_ok (db_graph w) →
  ∃ w',
    move_anchor w nd bk = Ok w' ∧
    wlk_inv w' ∧
    curr_set w' = curr_set w ++ new_set w ∧
    new_set w'
    = fetched <$> picked (colour w) (orient w')
                    (db_node_paths (db_graph w) nd) ∧
    counter_set w' = counter_set w ∧
    node w' = nd ∧ bkmer w' = bk ∧
    orient w' = db_node_get_orientation bk (db_node_bkmer (db_graph w) nd) ∧
    db_graph w' = db_graph w ∧ colour w' = colour w.
Proof.
  intros [Hp Hok Hsorted] Hg. unfold move_anchor.
  set (o' := db_node_get_orientation bk (db_node_bkmer (db_graph w) nd)).
  set (w3 := set_num_curr _ _).
  assert (Hp3 : pool_ok (num_curr w + num_new w) (num_counter w) w3).
  { subst w3. by apply pool_ok_num_curr, pool_ok_anchor. }
  destruct (pickup_paths_spec (db_node_paths (db_graph w) nd) (orient w3)
              false w3 _ _ Hp3 eq_refl)
    as (w4 & -> & Hp4 & Hn & Hk & Hnn & Hanc & Hc & Hkk).
  change (orient w3) with o' in *. change (colour w3) with (colour w) in *.
  set (m := picked (colour w) o' (db_node_paths (db_graph w) nd)) in *.
  simpl in Hn, Hk, Hnn, Hc, Hkk, Hp4. rewrite app_nil_r in Hkk.
  simpl. eexists. split; [done|].
  set (wf := set_num_curr _ _).
  assert (Hcf : num_curr wf = num_curr w + num_new w) by (subst wf; simpl; lia).
  assert (Hnf : num_new wf = length m) by done.
  assert (Hkf : num_counter wf = num_counter w) by done.
  assert (Hpf : pool_ok (num_curr wf + num_new wf) (num_counter wf) wf).
  { rewrite Hcf, Hnf, Hkf. subst wf. by apply pool_ok_counts. }
  destruct (split_curr_new wf (curr_set w ++ new_set w) (fetched <$> m))
    as [Hcs Hns].
  { rewrite (pool_len_curr _ _ _ Hpf). apply (pool_fit_curr _ _ _ Hpf). }
  { rewrite Hcf, curr_new_set. unfold deref.
    rewrite length_fmap, length_take.
    pose proof (pool_len_curr _ _ _ Hp). pose proof (pool_fit_curr _ _ _ Hp).
    lia. }
  { rewrite Hcf, Hnf, curr_new_set. exact Hc. }
  assert (Hks : counter_set wf = counter_set w).
  { unfold counter_set, counter_ptrs. rewrite Hkf. exact Hkk. }
  destruct Hanc as (? & ? & ? & ? & Ho).
  assert (Hof : orient wf = o') by done.
  split_and!; try done.
  - split; [done| |].
    + rewrite Hcs, Hns, Hks.
      apply Forall_app in Hok as [Hok1 Hok2].
      apply Forall_app in Hok2 as [Hok2 Hok3].
      rewrite !Forall_app. split_and!; try done.
      by apply fetched_all_ok.
    + rewrite Hcs, Hns. by apply oldest_first_fetched.
  - by rewrite Hns, Hof.
Qed.

Lemma Forall_deref (P : FollowPath → Prop) w ps :
  Forall P (deref w ps) ↔ ∀ p, p ∈ ps → P (allpaths w !!! p).
Proof. unfold deref. by rewrite Forall_fmap, Forall_forall. Qed.

Lemma deref_filter (P : FollowPath → Prop) `{!∀ x, Decision (P x)} w ps :
  deref w (filter (fun p => P (allpaths w !!! p)) ps) = filter P (deref w ps).
Proof.
  induction ps as [|p ps IH]; [done|].
  unfold deref in *. rewrite fmap_cons, !filter_cons.
  destruct (decide (P (allpaths w !!! p))); [|done].
  by rewrite fmap_cons, IH.
Qed.

Lemma oldest_first_filter (P : FollowPath → Prop) `{!∀ x, Decision (P x)} l :
  oldest_first l → oldest_first (filter P l).
Proof.
  induction 1 as [|x l Hl IH Hx]; [constructor|].
  rewrite filter_cons. destruct (decide (P x)); [|done].
  constructor; [done|].
  apply Forall_forall. intros y Hy. apply list_elem_of_filter in Hy as [_ Hy].
  rewrite Forall_forall in Hx. by apply Hx.
Qed.

Lemma oldest_first_advance l :
  oldest_first l → oldest_first (advance <$> l).
Proof.
  apply StronglySorted_fmap. intros x y Hxy. simpl. lia.
Qed.

Lemma advance_ok base fp : fp_ok fp → follows base fp → fp_ok (advance fp).
Proof.
  intros (Hlt & Hlen & Hmax) [_ Hnext]. unfold fp_ok, advance. simpl.
  split_and!; done.
Qed.

Lemma advance_all_ok base l :
  Forall fp_ok l → Forall fp_ok (advance <$> filter (follows base) l).
Proof.
  intros Hl. apply Forall_fmap, Forall_forall. intros fp Hfp.
  apply list_elem_of_filter in Hfp as [Hf Hin].
  rewrite Forall_forall in Hl. apply (advance_ok base); auto.
Qed.

Lemma wlk_inv_rec_ok w p :
  wlk_inv w →
  p ∈ take (num_curr w + num_new w) (curr_paths w)
        ++ take (num_counter w) (counter_paths w) →
  rec_ok w p.
Proof.
  intros [Hp Hok _] Hin. split.
  - rewrite (pool_len_all _ _ _ Hp).
    apply (pool_range _ _ _ _ Hp). rewrite elem_of_app. by right.
  - rewrite (assoc (++)), curr_new_set in Hok.
    unfold counter_set, counter_ptrs in Hok. rewrite <- deref_app in Hok.
    rewrite Forall_deref in Hok. by apply Hok.
Qed.

Lemma slim_after_fork_spec w base :
  wlk_inv w →
  ∃ w1,
    slim_after_fork w base = Ok w1 ∧
    wlk_inv w1 ∧
    curr_set w1
    = advance <$> filter (follows base) (curr_set w ++ new_set w) ∧
    new_set w1 = [] ∧
    counter_set w1 = advance <$> filter (follows base) (counter_set w) ∧
    same_anchor w w1.
Proof.
  intros Hinv. pose proof Hinv as [Hp Hok Hsorted].
  pose proof (pool_count _ _ _ Hp) as Hcount.
  pose proof (pool_NoDup _ _ _ Hp) as Hnd.
  pose proof Hp as [Ha Hu Hc Hk Hpos Hfu Hfc Hfk Hperm].
  set (C := take (num_curr w + num_new w) (curr_paths w)) in *.
  set (K := take (num_counter w) (counter_paths w)) in *.
  set (U := take (num_unused w) (unused_paths w)) in *.
  apply NoDup_app in Hnd as (HndU & HU_CK & HndCK).
  apply NoDup_app in HndCK as (HndC & HC_K & HndK).
  assert (HrecC : ∀ p, p ∈ C → rec_ok w p).
  { intros p Hin. apply wlk_inv_rec_ok; [done|]. fold C K. set_solver. }
  assert (HrecK : ∀ p, p ∈ K → rec_ok w p).
  { intros p Hin. apply wlk_inv_rec_ok; [done|]. fold C K. set_solver. }
  set (keep := fun p => follows base (allpaths w !!! p)).
  unfold slim_after_fork.
  (* the current and the new paths *)
  destruct (slim_paths_spec false base (num_curr w + num_new w) 0 0 w)
    as (arrA & apA & upA & -> & HlaA & HlpA & HluA & HtkA & HtuA & HnkA & HkA).
  { done. }
  { simpl. lia. }
  { lia. }
  { simpl. by rewrite drop_0. }
  { simpl. rewrite drop_0. exact HrecC. }
  change (path_arr false w) with (curr_paths w) in *.
  rewrite drop_0 in *. simpl in HtkA. fold C U in HtkA, HtuA, HnkA, HkA |- *.
  set (keptC := filter keep C).
  set (dropC := filter (fun p => ¬ keep p) C).
  change (filter (fun p => follows base (allpaths w !!! p)) C)
    with keptC in *.
  change (filter (fun p => ¬ follows base (allpaths w !!! p)) C)
    with dropC in *.
  simpl.
  set (wb := set_num_new 0 _).
  assert (HlenC : length keptC + length dropC = num_curr w + num_new w).
  { subst keptC dropC. rewrite <- length_app, filter_app_complement.
    subst C. rewrite length_take. lia. }
  assert (HsameK : ∀ q, q ∈ K → apA !!! q = allpaths w !!! q).
  { intros q Hq. apply HnkA. intros Hin.
    apply list_elem_of_filter in Hin as [_ Hin]. by apply (HC_K q). }
  (* the counter paths *)
  destruct (slim_paths_spec true base (num_counter w) 0 0 wb)
    as (arrB & apB & upB & HeqB & HlaB & HlpB & HluB & HtkB & HtuB & HnkB & HkB).
  { done. }
  { subst wb. simpl. lia. }
  { subst wb. simpl. lia. }
  { subst wb. simpl. by rewrite drop_0. }
  { subst wb. simpl. rewrite drop_0. intros q Hq. split.
    - simpl. rewrite HlpA. by apply HrecK.
    - simpl. rewrite HsameK by done. by apply HrecK. }
  change (num_counter wb) with (num_counter w).
  rewrite HeqB. clear HeqB.
  subst wb. simpl in HlaB, HlpB, HluB, HtkB, HtuB, HnkB, HkB |- *.
  rewrite drop_0 in *. fold K in HtkB, HtuB, HnkB, HkB |- *.
  assert (HkeepB : filter (fun p => follows base (apA !!! p)) K = filter keep K).
  { apply filter_ext_elem. intros q Hq. unfold keep. by rewrite HsameK. }
  assert (HdropB : filter (fun p => ¬ follows base (apA !!! p)) K
                   = filter (fun p => ¬ keep p) K).
  { apply filter_ext_elem. intros q Hq. unfold keep. by rewrite HsameK. }
  rewrite HkeepB, HdropB in *.
  set (keptK := filter keep K) in *.
  set (dropK := filter (fun p => ¬ keep p) K) in *.
  assert (HlenK : length keptK + length dropK = num_counter w).
  { subst keptK dropK. rewrite <- length_app, filter_app_complement.
    subst K. rewrite length_take. lia. }
  eexists. split; [done|].
  set (w1 := set_num_counter _ _).
  assert (HkeptC_C : ∀ q, q ∈ keptC → q ∈ C).
  { intros q Hq. by apply list_elem_of_filter in Hq as [_ Hq]. }
  assert (HkeptK_K : ∀ q, q ∈ keptK → q ∈ K).
  { intros q Hq. by apply list_elem_of_filter in Hq as [_ Hq]. }
  assert (HderC : deref w1 keptC
                  = advance <$> filter (follows base) (curr_set w ++ new_set w)).
  { rewrite curr_new_set. fold C. rewrite <- (deref_filter (follows base)).
    fold keep keptC. unfold deref. rewrite <- list_fmap_compose.
    apply list_fmap_ext. intros i q Hq. apply list_elem_of_lookup_2 in Hq.
    simpl. rewrite HnkB, HkA; [done..|].
    intros Hin. apply (HC_K q); auto. }
  assert (HderK : deref w1 keptK
                  = advance <$> filter (follows base) (counter_set w)).
  { unfold counter_set, counter_ptrs. fold K.
    rewrite <- (deref_filter (follows base)).
    fold keep keptK. unfold deref. rewrite <- list_fmap_compose.
    apply list_fmap_ext. intros i q Hq. apply list_elem_of_lookup_2 in Hq.
    simpl. rewrite HkB, HsameK; auto. }
  assert (Hcs : curr_set w1 = deref w1 keptC).
  { unfold curr_set, curr_ptrs. simpl. by rewrite HtkA. }
  assert (Hns : new_set w1 = []) by done.
  assert (Hks : counter_set w1 = deref w1 keptK).
  { unfold counter_set, counter_ptrs. simpl. by rewrite HtkB. }
  rewrite Hcs, Hks, Hns, HderC, HderK.
  split_and!; try done.
  split.
  - split; simpl; try lia.
    rewrite Nat.add_0_r, HtkA, HtkB, HtuB, HtuA, <- Hperm.
    assert (HpC : keptC ++ dropC ≡ₚ C) by apply filter_app_complement.
    assert (HpK : keptK ++ dropK ≡ₚ K) by apply filter_app_complement.
    rewrite <- HpC, <- HpK. solve_Permutation.
  - rewrite Hcs, Hks, Hns, HderC, HderK. simpl.
    apply Forall_app in Hok as [Hok1 Hok2].
    apply Forall_app in Hok2 as [Hok2 Hok3].
    apply Forall_app. split; apply advance_all_ok; [|done].
    by apply Forall_app.
  - rewrite Hcs, Hns, HderC, app_nil_r.
    by apply oldest_first_advance, oldest_first_filter.
Qed.


(** The walker after a forced jump.  With [fork] set, the current and
    the new paths that follow the base taken stay, one base further, as
    do the counter paths; without, the new paths join the current ones.
    In both cases the paths of the new node are picked up. *)
Lemma graph_traverse_force_jump_spec w nd bk fork :
  wlk_inv w → graph_ok (db_graph w) →
  ∃ w',
    graph_traverse_force_jump w nd bk fork = Ok w' ∧
    wlk_inv w' ∧
    curr_set w'
    = (if fork
       then advance <$> filter (follows (binary_kmer_last_nuc bk))
                          (curr_set w ++ new_set w)
       else curr_set w ++ new_set w) ∧
    counter_set w'
    = (if fork
       then advance <$> filter (follows (binary_kmer_last_nuc bk))
                          (counter_set w)
       else counter_set w) ∧
    new_set w'
    = fetched <$> picked (colour w) (orient w')
                    (db_node_paths (db_graph w) nd) ∧
    node w' = nd ∧ bkmer w' = bk ∧
    orient w' = db_node_get_orientation bk (db_node_bkmer (db_graph w) nd) ∧
    db_graph w' = db_graph w ∧ colour w' = colour w.
Proof.
  intros Hinv Hg. unfold graph_traverse_force_jump. destruct fork.
  - destruct (slim_after_fork_spec w (binary_kmer_last_nuc bk) Hinv)
      as (w1 & -> & Hinv1 & Hc1 & Hn1 & Hk1 & (Hg1 & Hcol1 & _)).
    simpl.
    destruct (move_anchor_spec w1 nd bk Hinv1)
      as (w' & -> & Hinv' & Hc' & Hn' & Hk' & ? & ? & ? & ? & ?).
    { by rewrite Hg1. }
    exists w'. rewrite Hg1, Hcol1 in *.
    split_and!; try done.
    + by rewrite Hc', Hn1, app_nil_r.
    + by rewrite Hk'.
  - simpl.
    destruct (move_anchor_spec w nd bk Hinv Hg)
      as (w' & -> & Hinv' & Hc' & Hn' & Hk' & ? & ? & ? & ? & ?).
    exists w'. split_and!; done.
Qed.

(** ** [graph_walker_add_counter_paths] *)

Lemma set_keep_kept a b c d c1 d1 w :
  set_num_unused a (set_unused_paths b (set_counter_paths c
    (set_allpaths d (set_counter_paths c1 (set_allpaths d1 w)))))
  = set_num_unused a (set_unused_paths b (set_counter_paths c
      (set_allpaths d w))).
Proof. by destruct w. Qed.

Lemma set_keep_dropped a b c d a1 b1 w :
  set_num_unused a (set_unused_paths b (set_counter_paths c
    (set_allpaths d (set_num_unused a1 (set_unused_paths b1 w)))))
  = set_num_unused a (set_unused_paths b (set_counter_paths c
      (set_allpaths d w))).
Proof. by destruct w. Qed.

Lemma set_keep_id w :
  set_num_unused (num_unused w) (set_unused_paths (unused_paths w)
    (set_counter_paths (counter_paths w) (set_allpaths (allpaths w) w)))
  = w.
Proof. by destruct w. Qed.

Lemma keep_long_spec n :
  ∀ j kk w,
    kk ≤ j →
    num_counter w + j + n ≤ length (counter_paths w) →
    num_unused w + n ≤ length (unused_paths w) →
    let sl := take n (drop (num_counter w + j) (counter_paths w)) in
    NoDup (take (num_counter w + kk) (counter_paths w) ++ sl) →
    (∀ p, p ∈ sl → rec_ok w p) →
    ∃ arr ap up,
      keep_long n j kk w
      = Ok (kk + length (filter (long_path w) sl),
            set_num_unused
              (num_unused w + length (filter (fun p => ¬ long_path w p) sl))
              (set_unused_paths up
                 (set_counter_paths arr (set_allpaths ap w)))) ∧
      length arr = length (counter_paths w) ∧
      length ap = length (allpaths w) ∧
      length up = length (unused_paths w) ∧
      take (num_counter w + kk + length (filter (long_path w) sl)) arr
      = take (num_counter w + kk) (counter_paths w)
        ++ filter (long_path w) sl ∧
      take (num_unused w + length (filter (fun p => ¬ long_path w p) sl)) up
      = take (num_unused w) (unused_paths w)
        ++ filter (fun p => ¬ long_path w p) sl ∧
      (∀ q, q ∉ filter (long_path w) sl → ap !!! q = allpaths w !!! q) ∧
      (∀ q, q ∈ filter (long_path w) sl →
            ap !!! q = advance (allpaths w !!! q)).
Proof.
  induction n as [|n IH]; intros j kk w Hkj Hj Hu sl Hnd Hrec.
  - exists (counter_paths w), (allpaths w), (unused_paths w).
    subst sl. simpl. rewrite !Nat.add_0_r, !app_nil_r, set_keep_id.
    split_and!; try done. intros q Hq. by apply elem_of_nil in Hq.
  - set (i := num_counter w + j) in *.
    assert (Hi' : i < length (counter_paths w)) by lia.
    set (p := counter_paths w !!! i).
    set (sl' := take n (drop (S i) (counter_paths w))).
    assert (Hsl : sl = p :: sl').
    { subst sl sl'. by rewrite (drop_S _ p i)
        by (by apply list_lookup_lookup_total_lt). }
    rewrite Hsl in *. clearbody sl. subst sl.
    destruct (Hrec p) as [Hp Hok]; [by left|].
    set (fp := allpaths w !!! p) in *.
    apply NoDup_app in Hnd as (Hnd1 & Hnd12 & Hnd2).
    apply NoDup_cons in Hnd2 as [Hpsl' Hnd2].
    assert (Hpj : p ∉ take (num_counter w + kk) (counter_paths w)).
    { intros Hin. apply (Hnd12 p Hin). by left. }
    simpl. fold i. rewrite (load_lt _ _ Hi'). simpl. fold p.
    rewrite (load_lt _ _ Hp). simpl. fold fp.
    rewrite !filter_cons. change (long_path w p) with (1 < fp_len fp)%N.
    destruct (N.ltb_spec 1 (fp_len fp)) as [Hf|Hf].
    + (* a longer path stays, one base further *)
      rewrite decide_True by done. rewrite decide_False by tauto.
      rewrite store_lt by lia. simpl.
      rewrite store_lt by lia. simpl.
      rewrite advance_succ by done.
      set (w1 := set_counter_paths _ _).
      assert (Harr1 : counter_paths w1
                      = <[num_counter w + kk:=p]> (counter_paths w)) by done.
      assert (Hall1 : allpaths w1 = <[p:=advance fp]> (allpaths w)) by done.
      assert (Hnu1 : num_unused w1 = num_unused w) by done.
      assert (Hup1 : unused_paths w1 = unused_paths w) by done.
      assert (Hnc1 : num_counter w1 = num_counter w) by done.
      assert (Hsl1 : take n (drop (num_counter w1 + S j) (counter_paths w1))
                     = sl').
      { rewrite Harr1, Hnc1. subst sl' i. rewrite Nat.add_succ_r.
        f_equal. apply drop_insert_lt. lia. }
      assert (Hsame : ∀ q, q ≠ p → allpaths w1 !!! q = allpaths w !!! q).
      { intros q Hq. rewrite Hall1. by apply list_lookup_total_insert_ne. }
      assert (Hkeep : filter (long_path w1) sl' = filter (long_path w) sl').
      { apply filter_ext_elem. intros q Hq. unfold long_path.
        rewrite Hsame; [done|]. by intros ->. }
      assert (Hdrop : filter (fun q => ¬ long_path w1 q) sl'
                      = filter (fun q => ¬ long_path w q) sl').
      { apply filter_ext_elem. intros q Hq. unfold long_path.
        rewrite Hsame; [done|]. by intros ->. }
      destruct (IH (S j) (S kk) w1) as (arr & ap & up & Heq & Hla & Hlp & Hlu
                                        & Htk & Htu & Hnk & Hk).
      { lia. }
      { rewrite Harr1, Hnc1, length_insert. lia. }
      { rewrite Hnu1, Hup1. lia. }
      { rewrite Hsl1, Harr1, Hnc1, Nat.add_succ_r, take_push by lia.
        rewrite <- app_assoc. simpl. apply NoDup_app. split_and!; [done| |].
        - intros x Hx. apply Hnd12 in Hx. done.
        - by apply NoDup_cons. }
      { rewrite Hsl1. intros q Hq. split.
        - rewrite Hall1, length_insert. apply Hrec. by right.
        - rewrite Hsame by (by intros ->). apply Hrec. by right. }
      rewrite Hsl1, Hkeep, Hdrop, Harr1, Hall1, Hnu1, Hup1, Hnc1,
        ?length_insert in *.
      exists arr, ap, up. split_and!; try done.
      * rewrite Heq. subst w1. rewrite set_keep_kept. simpl.
        by rewrite Nat.add_succ_r.
      * simpl. rewrite !Nat.add_succ_r in *. simpl in Htk. rewrite Htk.
        rewrite take_push by lia. by rewrite <- app_assoc.
      * intros q Hq. apply not_elem_of_cons in Hq as [Hqp Hq].
        rewrite Hnk by done. by apply list_lookup_total_insert_ne.
      * intros q Hq. apply elem_of_cons in Hq as [->|Hq].
        -- rewrite Hnk.
           ++ by apply list_lookup_total_insert_eq.
           ++ intros Hin. apply list_elem_of_filter in Hin as [_ Hin]. done.
        -- rewrite Hk by done. f_equal.
           apply list_lookup_total_insert_ne. intros ->.
           apply list_elem_of_filter in Hq as [_ Hq]. done.
    + (* a path of one base is given back *)
      rewrite decide_False by lia. rewrite decide_True by lia.
      rewrite store_lt by lia. simpl.
      set (w1 := set_num_unused _ _).
      assert (Harr1 : counter_paths w1 = counter_paths w) by done.
      assert (Hall1 : allpaths w1 = allpaths w) by done.
      assert (Hnu1 : num_unused w1 = S (num_unused w)) by done.
      assert (Hup1 : unused_paths w1 = <[num_unused w:=p]> (unused_paths w))
        by done.
      assert (Hnc1 : num_counter w1 = num_counter w) by done.
      assert (Hsl1 : take n (drop (num_counter w1 + S j) (counter_paths w1))
                     = sl').
      { rewrite Harr1, Hnc1. subst sl' i. by rewrite Nat.add_succ_r. }
      assert (Hkeep : filter (long_path w1) sl' = filter (long_path w) sl')
        by done.
      assert (Hdrop : filter (fun q => ¬ long_path w1 q) sl'
                      = filter (fun q => ¬ long_path w q) sl') by done.
      destruct (IH (S j) kk w1) as (arr & ap & up & Heq & Hla & Hlp & Hlu
                                    & Htk & Htu & Hnk & Hk).
      { lia. }
      { rewrite Harr1, Hnc1. lia. }
      { rewrite Hnu1, Hup1, length_insert. lia. }
      { rewrite Hsl1, Harr1, Hnc1.
        apply NoDup_app. split_and!; [done| |done].
        intros x Hx Hx'. apply (Hnd12 x Hx). by right. }
      { rewrite Hsl1. intros q Hq. apply (Hrec q). by right. }
      rewrite Hsl1, Hkeep, Hdrop, ?Harr1, ?Hnu1, ?Hup1, ?Hnc1,
        ?length_insert in *.
      change (allpaths w1) with (allpaths w) in *.
      exists arr, ap, up. split_and!; try done.
      * rewrite Heq. subst w1. rewrite set_keep_dropped. simpl.
        by rewrite Nat.add_succ_r.
      * simpl. rewrite Nat.add_succ_r. simpl in Htu. rewrite Htu.
        rewrite take_push by lia. by rewrite <- app_assoc.
Qed.

Lemma pool_ok_num_counter rc rk w a :
  pool_ok rc rk (set_num_counter a w) ↔ pool_ok rc rk w.
Proof. split; intros []; by split. Qed.

Lemma fetched_long_ok e :
  fp_ok (fetched e) → (1 < fp_len (fetched e))%N →
  fp_ok (advance (fetched e)).
Proof.
  intros (Hlt & Hlen & Hmax) Hlong. unfold fp_ok, advance in *. simpl in *.
  split_and!; done.
Qed.

Lemma counter_from_ok g col nd o :
  graph_ok g → Forall fp_ok (counter_from g col nd o).
Proof.
  intros Hg. unfold counter_from.
  pose proof (fetched_all_ok (db_node_paths g nd) col o (Hg nd)) as Hall.
  destruct (1 <? _); [|done].
  apply Forall_fmap, Forall_forall. intros fp Hfp.
  apply list_elem_of_filter in Hfp as [Hlong Hin].
  rewrite Forall_forall in Hall. pose proof (Hall fp Hin) as Hok.
  apply list_elem_of_fmap in Hin as (e & -> & _).
  by apply fetched_long_ok.
Qed.

Lemma add_counter_paths_from_spec w nd o :
  wlk_inv w → graph_ok (db_graph w) →
  ∃ w',
    add_counter_paths_from w nd o = Ok w' ∧
    wlk_inv w' ∧
    curr_set w' = curr_set w ∧
    new_set w' = new_set w ∧
    counter_set w'
    = counter_set w ++ counter_from (db_graph w) (colour w) nd o ∧
    num_curr w' = num_curr w ∧ num_new w' = num_new w ∧
    same_anchor w w'.
Proof.
  intros Hinv Hg. pose proof Hinv as [Hp Hok Hsorted].
  unfold add_counter_paths_from.
  destruct (pickup_paths_spec (db_node_paths (db_graph w) nd) o true w
              _ _ Hp eq_refl)
    as (w1 & -> & Hp1 & Hn1 & Hc1 & Hnn1 & Hanc1 & HdC & HdK).
  set (m := picked (colour w) o (db_node_paths (db_graph w) nd)) in *.
  simpl in Hn1, Hc1, HdC, HdK, Hp1. rewrite app_nil_r in HdC.
  simpl. set (w2 := set_num_counter _ w1).
  assert (Hnk2 : num_counter w2 = num_counter w) by (subst w2; simpl; lia).
  pose proof (pool_count _ _ _ Hp1) as Hcount1.
  pose proof (pool_NoDup _ _ _ Hp1) as Hnd1.
  pose proof Hp1 as [Ha Hu Hc Hk Hpos Hfu Hfc Hfk Hperm].
  set (rc := num_curr w + num_new w) in *.
  set (C := take rc (curr_paths w1)) in *.
  set (U := take (num_unused w1) (unused_paths w1)) in *.
  rewrite <- take_take_drop in HdK, Hnd1, Hperm.
  set (K0 := take (num_counter w) (counter_paths w1)) in *.
  set (F := take (length m) (drop (num_counter w) (counter_paths w1))) in *.
  assert (HlenK0 : length K0 = num_counter w).
  { subst K0. rewrite length_take. lia. }
  rewrite deref_app in HdK.
  apply app_inj_1 in HdK as [HdK0 HdF];
    [|unfold deref, counter_set, counter_ptrs;
      rewrite !length_fmap, HlenK0, length_take;
      pose proof (pool_len_counter _ _ _ Hp);
      pose proof (pool_fit_counter _ _ _ Hp); lia].
  assert (Hcn1 : curr_set w1 ++ new_set w1 = curr_set w ++ new_set w).
  { rewrite !curr_new_set. rewrite Hc1, Hnn1. exact HdC. }
  destruct Hanc1 as (Hg1 & Hcol1 & Hnd' & Hbk1 & Ho1).
  unfold counter_from. fold m.
  destruct (Nat.ltb_spec 1 (edges_get_outdegree
                              (db_node_union_edges (db_graph w) nd) o))
    as [Hdeg|Hdeg].
  - (* the predecessor forks *)
    apply NoDup_app in Hnd1 as (HndU & HU_CK & HndCK).
    apply NoDup_app in HndCK as (HndC & HC_K & HndK).
    assert (HrecF : ∀ p, p ∈ F → rec_ok w2 p).
    { intros p Hin. split.
      - change (allpaths w2) with (allpaths w1). rewrite Ha.
        apply (pool_range _ _ _ _ Hp1). fold C U.
        rewrite <- take_take_drop. fold K0 F. set_solver.
      - change (allpaths w2) with (allpaths w1).
        pose proof (fetched_all_ok _ (colour w) o (Hg nd)) as Hall.
        fold m in Hall. rewrite <- HdF in Hall.
        rewrite Forall_deref in Hall. by apply Hall. }
    destruct (keep_long_spec (length m) 0 0 w2)
      as (arr & ap & up & -> & Hla & Hlp & Hlu & Htk & Htu & Hnk & Hkp).
    { done. }
    { rewrite Hnk2. change (counter_paths w2) with (counter_paths w1). lia. }
    { change (num_unused w2) with (num_unused w1).
      change (unused_paths w2) with (unused_paths w1). lia. }
    { rewrite Hnk2, !Nat.add_0_r.
      change (counter_paths w2) with (counter_paths w1). by fold K0 F. }
    { rewrite Hnk2, !Nat.add_0_r.
      change (counter_paths w2) with (counter_paths w1). by fold F. }
    rewrite Hnk2, !Nat.add_0_r in *.
    change (counter_paths w2) with (counter_paths w1) in *.
    change (unused_paths w2) with (unused_paths w1) in *.
    change (num_unused w2) with (num_unused w1) in *.
    change (allpaths w2) with (allpaths w1) in *.
    fold K0 F U in Htk, Htu, Hnk, Hkp |- *.
    change (long_path w2) with (long_path w1) in *.
    set (kept := filter (long_path w1) F) in *.
    set (dropped := filter (fun p => ¬ long_path w1 p) F) in *.
    assert (Hlen : length kept + length dropped = length m).
    { subst kept dropped. rewrite <- length_app, filter_app_complement.
      subst F. rewrite length_take, length_drop. lia. }
    simpl. eexists. split; [done|].
    set (w' := set_num_counter _ _).
    assert (Hkept_F : ∀ q, q ∈ kept → q ∈ F).
    { intros q Hq. by apply list_elem_of_filter in Hq as [_ Hq]. }
    assert (HsameC : deref w' C = deref w1 C).
    { apply deref_ext. intros q Hq. apply Hnk. intros Hin.
      apply (HC_K q Hq). set_solver. }
    assert (HsameK0 : deref w' K0 = deref w1 K0).
    { apply deref_ext. intros q Hq. apply Hnk. intros Hin.
      apply NoDup_app in HndK as (_ & HK0_F & _). apply (HK0_F q Hq); auto. }
    assert (Hderk : deref w' kept
                    = advance <$> filter (fun fp => (1 < fp_len fp)%N)
                                    (fetched <$> m)).
    { rewrite <- HdF, <- (deref_filter (fun fp => (1 < fp_len fp)%N)).
      fold (long_path w1). fold kept. unfold deref.
      rewrite <- list_fmap_compose. apply list_fmap_ext.
      intros i q Hq. apply list_elem_of_lookup_2 in Hq. simpl. by apply Hkp. }
    assert (Hcn' : curr_set w' ++ new_set w' = curr_set w ++ new_set w).
    { rewrite <- Hcn1, !curr_new_set.
      change (num_curr w') with (num_curr w1).
      change (num_new w') with (num_new w1).
      change (curr_paths w') with (curr_paths w1).
      rewrite Hc1, Hnn1. exact HsameC. }
    assert (Hks' : counter_set w'
                   = counter_set w
                     ++ (advance <$> filter (fun fp => (1 < fp_len fp)%N)
                                       (fetched <$> m))).
    { assert (Hnk' : num_counter w' = num_counter w + length kept)
        by (subst w' w2; simpl; lia).
      unfold counter_set at 1, counter_ptrs. rewrite Hnk'.
      change (counter_paths w') with arr.
      rewrite Htk, deref_app, HsameK0, HdK0, Hderk. done. }
    assert (Hcs' : curr_set w' = curr_set w ∧ new_set w' = new_set w).
    { apply app_inj_1; [|done].
      unfold curr_set, curr_ptrs, deref. rewrite !length_fmap, !length_take.
      change (num_curr w') with (num_curr w1).
      change (curr_paths w') with (curr_paths w1).
      pose proof (pool_len_curr _ _ _ Hp).
      pose proof (pool_fit_curr _ _ _ Hp). unfold rc in *. lia. }
    destruct Hcs' as [Hcs' Hns'].
    split_and!; try done.
    split.
    + split; simpl; rewrite ?Hla, ?Hlp, ?Hlu; try lia.
      rewrite Hc1, Hnn1, Hn1.
      replace (num_counter w + length m - length m + length kept)
        with (num_counter w + length kept) by lia.
      fold rc C. rewrite Htk, Htu, <- Hperm.
      assert (HpF : kept ++ dropped ≡ₚ F) by apply filter_app_complement.
      rewrite <- HpF. solve_Permutation.
    + rewrite Hcs', Hns', Hks'.
      apply Forall_app in Hok as [Hok1 Hok2].
      apply Forall_app in Hok2 as [Hok2 Hok3].
      rewrite !Forall_app. split_and!; try done.
      pose proof (counter_from_ok (db_graph w) (colour w) nd o Hg) as Hcf.
      unfold counter_from in Hcf. fold m in Hcf.
      destruct (Nat.ltb_spec 1 (edges_get_outdegree
                                  (db_node_union_edges (db_graph w) nd) o));
        [done|lia].
    + by rewrite Hcs', Hns'.
  - (* the predecessor does not fork *)
    simpl. eexists. split; [done|].
    set (w' := set_num_counter _ _).
    assert (Hnk' : num_counter w' = num_counter w + length m)
      by (subst w' w2; simpl; lia).
    assert (Hks' : counter_set w' = counter_set w ++ (fetched <$> m)).
    { unfold counter_set at 1, counter_ptrs. rewrite Hnk'.
      change (counter_paths w') with (counter_paths w1).
      rewrite <- take_take_drop. fold K0 F.
      rewrite deref_app. change (deref w' K0) with (deref w1 K0).
      change (deref w' F) with (deref w1 F). by rewrite HdK0, HdF. }
    assert (Hcn' : curr_set w' ++ new_set w' = curr_set w ++ new_set w).
    { by rewrite <- Hcn1. }
    assert (Hcs' : curr_set w' = curr_set w ∧ new_set w' = new_set w).
    { apply app_inj_1; [|done].
      unfold curr_set, curr_ptrs, deref. rewrite !length_fmap, !length_take.
      change (num_curr w') with (num_curr w1).
      change (curr_paths w') with (curr_paths w1).
      pose proof (pool_len_curr _ _ _ Hp).
      pose proof (pool_fit_curr _ _ _ Hp). unfold rc in *. lia. }
    destruct Hcs' as [Hcs' Hns'].
    split_and!; try done.
    split.
    + rewrite Hnk'. change (num_curr w') with (num_curr w1).
      change (num_new w') with (num_new w1). rewrite Hc1, Hnn1.
      subst w' w2. by apply pool_ok_num_counter, pool_ok_num_counter.
    + rewrite Hcs', Hns', Hks'.
      apply Forall_app in Hok as [Hok1 Hok2].
      apply Forall_app in Hok2 as [Hok2 Hok3].
      rewrite !Forall_app. split_and!; try done.
      by apply fetched_all_ok.
    + by rewrite Hcs', Hns'.
Qed.

Lemma add_counter_paths_loop_spec prev_nodes prev_orients k :
  ∀ i w,
    wlk_inv w → graph_ok (db_graph w) →
    i + k ≤ length prev_nodes → i + k ≤ length prev_orients →
    ∃ w',
      add_counter_paths_loop k i w prev_nodes prev_orients = Ok w' ∧
      wlk_inv w' ∧
      curr_set w' = curr_set w ∧
      new_set w' = new_set w ∧
      counter_set w'
      = counter_set w
        ++ counters_from (db_graph w) (colour w)
             (take k (drop i (zip prev_nodes prev_orients))) ∧
      num_curr w' = num_curr w ∧ num_new w' = num_new w ∧
      same_anchor w w'.
Proof.
  induction k as [|k IH]; intros i w Hinv Hg Hn Ho.
  - exists w. simpl. unfold counters_from. simpl. rewrite app_nil_r.
    split_and!; done.
  - simpl.
    destruct (lookup_lt_is_Some_2 prev_nodes i) as [nd Hnd]; [lia|].
    destruct (lookup_lt_is_Some_2 prev_orients i) as [o Hor]; [lia|].
    rewrite (load_lookup _ _ _ Hnd), (load_lookup _ _ _ Hor). simpl.
    destruct (add_counter_paths_from_spec w nd o Hinv Hg)
      as (w1 & -> & Hinv1 & Hc1 & Hn1 & Hk1 & Hnc1 & Hnn1 & Hanc1).
    simpl.
    pose proof Hanc1 as (Hg1 & Hcol1 & _).
    destruct (IH (S i) w1 Hinv1) as (w' & -> & Hinv' & Hc' & Hn' & Hk' & Hnc'
                                     & Hnn' & Hanc'); [by rewrite Hg1|lia..|].
    exists w'. split; [done|].
    split_and!; try congruence.
    + rewrite Hk', Hk1, Hg1, Hcol1, <- app_assoc. f_equal.
      assert (Hz : zip prev_nodes prev_orients !! i = Some (nd, o)).
      { apply lookup_zip_with_Some. by exists nd, o. }
      rewrite (drop_S _ _ _ Hz). unfold counters_from. by simpl.
    + by eapply same_anchor_trans.
Qed.

(** The counter paths after [graph_walker_add_counter_paths]: to those
    held before are added, predecessor by predecessor, the paths picked
    up there; the current and the new paths stay as they are. *)
Lemma graph_walker_add_counter_paths_spec w prev_nodes prev_orients num_prev :
  wlk_inv w → graph_ok (db_graph w) →
  num_prev ≤ length prev_nodes → num_prev ≤ length prev_orients →
  ∃ w',
    graph_walker_add_counter_paths w prev_nodes prev_orients num_prev
    = Ok w' ∧
    wlk_inv w' ∧
    curr_set w' = curr_set w ∧
    new_set w' = new_set w ∧
    counter_set w'
    = counter_set w
      ++ counters_from (db_graph w) (colour w)
           (take num_prev (zip prev_nodes prev_orients)) ∧
    num_curr w' = num_curr w ∧ num_new w' = num_new w ∧
    same_anchor w w'.
Proof.
  intros Hinv Hg Hn Ho.
  destruct (add_counter_paths_loop_spec prev_nodes prev_orients num_prev 0 w
              Hinv Hg Hn Ho) as (w' & Heq & Hrest).
  exists w'. split; [exact Heq|]. by rewrite drop_0 in Hrest.
Qed.

(** ** [graph_walker_choose] *)

Lemma restrict_to_colour_spec w next_nodes next_bases k :
  ∀ i sel,
    length sel + k ≤ 4 →
    i + k ≤ length next_nodes → i + k ≤ length next_bases →
    restrict_to_colour k i w next_nodes next_bases sel
    = Ok (sel ++ filter (in_colour w)
                   (next_triple next_nodes next_bases <$> seq i k)).
Proof.
  induction k as [|k IH]; intros i sel Hfour Hn Hb; simpl.
  - by rewrite app_nil_r.
  - rewrite (load_lt next_nodes i) by lia. simpl.
    rewrite filter_cons.
    destruct (decide (in_colour w (next_triple next_nodes next_bases i)))
      as [Hcol|Hcol]; unfold in_colour in Hcol; simpl in Hcol.
    + rewrite Hcol.
      assert (Hroom : (4 <=? length sel) = false) by (apply Nat.leb_gt; lia).
      simpl in Hroom. rewrite Hroom.
      rewrite (load_lt next_bases i) by lia. simpl.
      rewrite IH by (rewrite ?length_app; simpl; lia).
      by rewrite <- app_assoc.
    + apply not_true_is_false in Hcol. rewrite Hcol. by rewrite IH by lia.
Qed.

Lemma path_nuc_spec w arr i :
  i < length arr → rec_ok w (arr !!! i) →
  path_nuc w arr i
  = Ok (allpaths w !!! (arr !!! i), proposes (allpaths w !!! (arr !!! i))).
Proof.
  intros Hi [Hp Hok]. unfold path_nuc.
  rewrite (load_lt arr i Hi). simpl.
  rewrite (load_lt _ _ Hp). simpl.
  by rewrite load_proposes.
Qed.

Lemma deref_slice_cons w arr i k :
  i < length arr →
  deref w (take (S k) (drop i arr))
  = allpaths w !!! (arr !!! i) :: deref w (take k (drop (S i) arr)).
Proof.
  intros Hi.
  by rewrite (drop_S arr (arr !!! i) i)
    by (by apply list_lookup_lookup_total_lt).
Qed.

Lemma slice_head_elem (arr : list nat) i k :
  i < length arr → arr !!! i ∈ take (S k) (drop i arr).
Proof.
  intros Hi.
  rewrite (drop_S arr (arr !!! i) i)
    by (by apply list_lookup_lookup_total_lt).
  by left.
Qed.

Lemma slice_tail_elem (arr : list nat) i k p :
  i < length arr → p ∈ take k (drop (S i) arr) →
  p ∈ take (S k) (drop i arr).
Proof.
  intros Hi Hp.
  rewrite (drop_S arr (arr !!! i) i)
    by (by apply list_lookup_lookup_total_lt).
  by right.
Qed.

Lemma oldest_agree_spec w age nuc k :
  ∀ i,
    i + k ≤ length (curr_paths w) →
    (∀ p, p ∈ take k (drop i (curr_paths w)) → rec_ok w p) →
    oldest_agree k i w age nuc
    = Ok (agree (deref w (take k (drop i (curr_paths w)))) age nuc).
Proof.
  induction k as [|k IH]; intros i Hi Hrec; [done|].
  assert (Hi' : i < length (curr_paths w)) by lia.
  destruct (Hrec (curr_paths w !!! i)) as [Hp Hok];
    [by apply slice_head_elem|].
  rewrite deref_slice_cons by done. simpl.
  rewrite (load_lt _ _ Hi'). simpl. rewrite (load_lt _ _ Hp). simpl.
  destruct (_ <? age)%N; [done|].
  rewrite load_proposes by done. simpl.
  destruct (bool_decide _); [done|].
  apply IH; [lia|]. intros p Hin. apply Hrec. by apply slice_tail_elem.
Qed.

Lemma mark_paths_spec counter w m k :
  ∀ i c,
    i + k ≤ length (path_arr counter w) →
    (∀ p, p ∈ take k (drop i (path_arr counter w)) → rec_ok w p) →
    mark_paths counter k i w m c
    = Ok (mark (proposes <$> deref w (take k (drop i (path_arr counter w))))
            m c).
Proof.
  induction k as [|k IH]; intros i c Hi Hrec; [done|].
  assert (Hi' : i < length (path_arr counter w)) by lia.
  rewrite deref_slice_cons by done. simpl.
  destruct (counts_sum c <? m); [|done].
  rewrite path_nuc_spec; [|done|by apply Hrec, slice_head_elem]. simpl.
  apply IH; [lia|]. intros p Hin. apply Hrec. by apply slice_tail_elem.
Qed.

Lemma wlk_inv_rec_curr w p :
  wlk_inv w → p ∈ take (num_curr w) (curr_paths w) → rec_ok w p.
Proof.
  intros Hinv Hin. apply wlk_inv_rec_ok; [done|].
  rewrite <- take_take_drop, !elem_of_app. auto.
Qed.

Lemma wlk_inv_rec_counter w p :
  wlk_inv w → p ∈ take (num_counter w) (counter_paths w) → rec_ok w p.
Proof.
  intros Hinv Hin. apply wlk_inv_rec_ok; [done|].
  rewrite elem_of_app. auto.
Qed.

(** [graph_walker_choose] at a fork, in terms of the candidates and of
    the records of the current and of the counter paths. *)
Lemma graph_walker_choose_unfold w num_next next_nodes next_bases :
  wlk_inv w →
  2 ≤ num_next → num_next ≤ 4 →
  num_next ≤ length next_nodes → num_next ≤ length next_bases →
  graph_walker_choose w num_next next_nodes next_bases
  = let cands := candidates w num_next next_nodes next_bases in
    match cands with
    | [] => Ok (-1)%Z
    | [(idx0, _, _)] => Ok idx0
    | _ :: _ :: _ =>
      match curr_set w with
      | [] => Ok (-1)%Z
      | r0 :: older =>
        if negb (agree older (fp_pos r0) (proposes r0)) then Ok (-1)%Z
        else
          let c := marks w (length cands) in
          if counts_sum c <? length cands then Ok (-1)%Z
          else if length cands <? counts_sum c
          then Died msg_counter_corruption
          else match find_base cands (proposes r0) with
               | Some idx => Ok idx
               | None => Died msg_path_corruption
               end
      end
    end.
Proof.
  intros Hinv Hnum Hfour Hn Hb. pose proof Hinv as [Hp _ _].
  unfold graph_walker_choose.
  destruct (Nat.eqb_spec num_next 0); [lia|].
  destruct (Nat.eqb_spec num_next 1); [lia|].
  rewrite restrict_to_colour_spec by done. simpl.
  fold (candidates w num_next next_nodes next_bases).
  destruct (candidates w num_next next_nodes next_bases)
    as [|[[idx0 nd0] b0] [|t1 rest]]; [done..|].
  set (cands := (idx0, nd0, b0) :: t1 :: rest).
  change (length cands =? 0) with false. rewrite orb_false_l.
  pose proof (pool_len_curr _ _ _ Hp) as Hlc.
  pose proof (pool_fit_curr _ _ _ Hp) as Hfc.
  pose proof (pool_len_counter _ _ _ Hp) as Hlk.
  pose proof (pool_fit_counter _ _ _ Hp) as Hfk.
  destruct (num_curr w) as [|k] eqn:Hnc.
  { simpl. unfold curr_set, curr_ptrs. by rewrite Hnc. }
  change (S k =? 0) with false. cbv iota.
  set (r0 := allpaths w !!! (curr_paths w !!! 0)).
  assert (Hcs : curr_set w = r0 :: deref w (take k (drop 1 (curr_paths w)))).
  { unfold curr_set, curr_ptrs. rewrite Hnc.
    rewrite <- (drop_0 (curr_paths w)) at 1. apply deref_slice_cons. lia. }
  rewrite Hcs.
  assert (Hrec : ∀ p, p ∈ take (S k) (drop 0 (curr_paths w)) → rec_ok w p).
  { intros p Hin. apply wlk_inv_rec_curr; [done|].
    by rewrite Hnc, <- (drop_0 (curr_paths w)). }
  rewrite path_nuc_spec; [|lia|by apply Hrec, slice_head_elem; lia].
  cbn [bind]. fold r0.
  replace (S k - 1) with k by lia.
  rewrite oldest_agree_spec;
    [|lia|intros p Hin; apply Hrec; by apply slice_tail_elem; [lia|]].
  cbn [bind].
  destruct (agree _ _ _); [|done]. cbn [negb].
  rewrite (mark_paths_spec false); [|simpl; lia|exact Hrec].
  cbn [bind].
  rewrite (mark_paths_spec true);
    [|simpl; lia
     |simpl; rewrite drop_0; intros p Hin; by apply wlk_inv_rec_counter].
  cbn [bind path_arr].
  unfold marks, curr_set, counter_set, curr_ptrs, counter_ptrs.
  by rewrite Hnc, !drop_0.
Qed.

(** *** The marks *)

Lemma counts_set_sum c b : counts_sum (counts_set c b) ≤ counts_sum c + 1.
Proof.
  unfold counts_sum, counts_set.
  destruct b; repeat (case_decide; try done); lia.
Qed.

(** The loops stop marking as soon as [m] nucleotides are marked: the
    number of marks never passes [m]. *)
Lemma mark_paths_bound counter w m k :
  ∀ i c c',
    counts_sum c ≤ m →
    mark_paths counter k i w m c = Ok c' →
    counts_sum c' ≤ m.
Proof.
  induction k as [|k IH]; intros i c c' Hc Heq; simpl in Heq.
  - by inversion Heq; subst.
  - destruct (Nat.ltb_spec (counts_sum c) m) as [Hlt|Hge].
    + destruct (path_nuc w (path_arr counter w) i) as [[fp b]| |];
        simpl in Heq; try discriminate.
      apply (IH (S i) (counts_set c b) c'); [|done].
      pose proof (counts_set_sum c b). lia.
    + by inversion Heq; subst.
Qed.

(** The loops of [graph_walker_choose] do not call [die]. *)
Lemma load_not_died {A} (arr : list A) i msg : load arr i ≠ Died msg.
Proof. unfold load. by destruct (arr !! i). Qed.

Lemma path_nuc_not_died w arr i msg : path_nuc w arr i ≠ Died msg.
Proof.
  unfold path_nuc.
  destruct (load arr i) as [p|m|] eqn:E1; simpl;
    [|by apply load_not_died in E1|done].
  destruct (load (allpaths w) p) as [fp|m|] eqn:E2; simpl;
    [|by apply load_not_died in E2|done].
  destruct (load (fp_bases fp) _) as [b|m|] eqn:E3; simpl;
    [done|by apply load_not_died in E3|done].
Qed.

Lemma restrict_to_colour_not_died w next_nodes next_bases msg k :
  ∀ i sel, restrict_to_colour k i w next_nodes next_bases sel ≠ Died msg.
Proof.
  induction k as [|k IH]; intros i sel; simpl; [done|].
  destruct (load next_nodes i) as [nd|m|] eqn:E1; simpl;
    [|by apply load_not_died in E1|done].
  destruct (db_node_has_col _ _ _); [|apply IH].
  match goal with
  | |- context [if ?c then Undef else _] => destruct c; [done|]
  end.
  destruct (load next_bases i) as [b|m|] eqn:E2; simpl;
    [apply IH|by apply load_not_died in E2|done].
Qed.

Lemma oldest_agree_not_died w age nuc msg k :
  ∀ i, oldest_agree k i w age nuc ≠ Died msg.
Proof.
  induction k as [|k IH]; intros i; simpl; [done|].
  destruct (load (curr_paths w) i) as [p|m|] eqn:E1; simpl;
    [|by apply load_not_died in E1|done].
  destruct (load (allpaths w) p) as [fp|m|] eqn:E2; simpl;
    [|by apply load_not_died in E2|done].
  destruct (_ <? age)%N; [done|].
  destruct (load (fp_bases fp) _) as [b|m|] eqn:E3; simpl;
    [|by apply load_not_died in E3|done].
  destruct (bool_decide _); [done|apply IH].
Qed.

Lemma mark_paths_not_died counter w m msg k :
  ∀ i c, mark_paths counter k i w m c ≠ Died msg.
Proof.
  induction k as [|k IH]; intros i c; simpl; [done|].
  destruct (counts_sum c <? m); [|done].
  destruct (path_nuc w (path_arr counter w) i) as [[fp b]|m'|] eqn:E;
    simpl; [apply IH|by apply path_nuc_not_died in E|done].
Qed.

(** The part of [graph_walker_choose] that follows the shortcuts. *)
Lemma choose_tail_never_counter_corruption w sel :
  (if (length sel =? 0) || (num_curr w =? 0) then Ok (-1)%Z
   else
     bind (path_nuc w (curr_paths w) 0)
       (fun '(oldest_path, greatest_nuc) =>
         bind (oldest_agree (num_curr w - 1) 1 w (fp_pos oldest_path)
                 greatest_nuc)
           (fun agree0 : bool =>
             if negb agree0 then Ok (-1)%Z
             else
               bind (mark_paths false (num_curr w) 0 w (length sel)
                       counts_zero)
                 (fun c =>
                   bind (mark_paths true (num_counter w) 0 w (length sel) c)
                     (fun c0 =>
                       if counts_sum c0 <? length sel then Ok (-1)%Z
                       else if length sel <? counts_sum c0
                       then Died msg_counter_corruption
                       else match find_base sel greatest_nuc with
                            | Some idx => Ok idx
                            | None => Died msg_path_corruption
                            end)))))
  ≠ Died msg_counter_corruption.
Proof.
  destruct (_ || _); [done|].
  destruct (path_nuc _ _ _) as [[r0 nuc]|m|] eqn:E; simpl;
    [|by apply path_nuc_not_died in E|done].
  destruct (oldest_agree _ _ _ _ _) as [[|]|m|] eqn:E'; simpl;
    [|done|by apply oldest_agree_not_died in E'|done].
  destruct (mark_paths false _ _ _ _ _) as [c|m|] eqn:E1; simpl;
    [|by apply mark_paths_not_died in E1|done].
  destruct (mark_paths true _ _ _ _ _) as [c0|m|] eqn:E2; simpl;
    [|by apply mark_paths_not_died in E2|done].
  apply mark_paths_bound in E1; [|unfold counts_sum, counts_zero; lia].
  apply mark_paths_bound in E2; [|done].
  destruct (counts_sum c0 <? length sel); [done|].
  destruct (Nat.ltb_spec (length sel) (counts_sum c0)); [lia|].
  by destruct (find_base sel nuc).
Qed.

(** The fatal error "Counter path corruption" is never reached. *)
Lemma graph_walker_choose_never_counter_corruption w num_next next_nodes
    next_bases :
  graph_walker_choose w num_next next_nodes next_bases
  ≠ Died msg_counter_corruption.
Proof.
  unfold graph_walker_choose.
  destruct (num_next =? 0); [done|]. destruct (num_next =? 1); [done|].
  destruct (restrict_to_colour _ _ _ _ _ _) as [sel|m|] eqn:E0; simpl;
    [|by apply restrict_to_colour_not_died in E0|done].
  pose proof (choose_tail_never_counter_corruption w sel) as Hgen.
  destruct sel as [|[[idx0 nd0] b0] [|t1 rest]]; [exact Hgen|done|exact Hgen].
Qed.

Lemma mark_le (S : Nucleotide → Prop) `{!∀ x, Decision (S x)} ns m :
  ∀ c,
    (∀ x, c x ≤ Nat.b2n (bool_decide (S x))) →
    (∀ x, x ∈ ns → S x) →
    ∀ x, mark ns m c x ≤ Nat.b2n (bool_decide (S x)).
Proof.
  induction ns as [|b ns IH]; intros c Hc Hns x; simpl; [by apply Hc|].
  destruct (counts_sum c <? m); [|by apply Hc].
  apply IH.
  - intros y. unfold counts_set. case_decide as Hy; [|by apply Hc].
    subst y. rewrite bool_decide_eq_true_2; [done|]. apply Hns. by left.
  - intros y Hy. apply Hns. by right.
Qed.

Lemma mark_keeps ns m x :
  ∀ c, c x = 1 → mark ns m c x = 1.
Proof.
  induction ns as [|b ns IH]; intros c Hc; simpl; [done|].
  destruct (counts_sum c <? m); [|done].
  apply IH. unfold counts_set. by case_decide.
Qed.

(** When the loops end with fewer than [m] marks they have marked every
    nucleotide of the list. *)
Lemma mark_complete ns m :
  ∀ c,
    counts_sum (mark ns m c) < m →
    ∀ x, x ∈ ns → mark ns m c x = 1.
Proof.
  induction ns as [|b ns IH]; intros c Hlt x Hx; simpl in *.
  - by apply elem_of_nil in Hx.
  - destruct (Nat.ltb_spec (counts_sum c) m) as [Hc|Hc]; [|lia].
    apply elem_of_cons in Hx as [->|Hx]; [|by apply IH].
    apply mark_keeps. unfold counts_set. by rewrite decide_True.
Qed.

Lemma mark_mono ns m x :
  ∀ c, c x ≤ 1 → c x ≤ mark ns m c x.
Proof.
  induction ns as [|b ns IH]; intros c Hc; simpl; [done|].
  destruct (counts_sum c <? m); [|done].
  etrans; [|apply IH].
  - unfold counts_set. case_decide; lia.
  - unfold counts_set. case_decide; lia.
Qed.

Lemma marks_pointwise w m x :
  marks w m x ≤ Nat.b2n (bool_decide (advocated w x)).
Proof.
  unfold marks. apply (mark_le (advocated w)).
  - apply (mark_le (advocated w)); [intros y; unfold counts_zero; lia|].
    intros y Hy. unfold advocated. rewrite fmap_app, elem_of_app. by left.
  - intros y Hy. unfold advocated. rewrite fmap_app, elem_of_app. by right.
Qed.

(** No more nucleotides are marked than are advocated. *)
Lemma marks_le_advocated w m : counts_sum (marks w m) ≤ num_advocated w.
Proof.
  unfold counts_sum, num_advocated.
  pose proof (marks_pointwise w m NucA). pose proof (marks_pointwise w m NucC).
  pose proof (marks_pointwise w m NucG). pose proof (marks_pointwise w m NucT).
  lia.
Qed.

(** With fewer than [m] marks at the end, every advocated nucleotide is
    marked. *)
Lemma marks_complete w m :
  counts_sum (marks w m) < m → counts_sum (marks w m) = num_advocated w.
Proof.
  intros Hlt.
  assert (Hb : ∀ x, Nat.b2n (bool_decide (advocated w x)) ≤ 1).
  { intros x. destruct (bool_decide _); simpl; lia. }
  set (inner := mark (proposes <$> curr_set w) m counts_zero).
  assert (Hinner : ∀ x, inner x ≤ 1).
  { intros x. etrans; [|apply (Hb x)].
    apply (mark_le (advocated w)); [intros y; unfold counts_zero; lia|].
    intros y Hy. unfold advocated. rewrite fmap_app, elem_of_app. by left. }
  assert (Hmono : ∀ x, inner x ≤ marks w m x).
  { intros x. apply mark_mono, Hinner. }
  assert (Hinner_lt : counts_sum inner < m).
  { unfold counts_sum in *.
    pose proof (Hmono NucA). pose proof (Hmono NucC).
    pose proof (Hmono NucG). pose proof (Hmono NucT). lia. }
  assert (Hpt : ∀ x, marks w m x = Nat.b2n (bool_decide (advocated w x))).
  { intros x. apply Nat.le_antisymm; [apply marks_pointwise|].
    case_bool_decide as Hadv; [|simpl; lia]. simpl.
    unfold advocated in Hadv. rewrite fmap_app, elem_of_app in Hadv.
    destruct Hadv as [Hin|Hin].
    - unfold marks. fold inner. rewrite mark_keeps; [done|].
      by apply mark_complete.
    - unfold marks. by rewrite mark_complete. }
  unfold counts_sum, num_advocated. by rewrite !Hpt.
Qed.

(** Along a list that is oldest first and not older than [age], the loop
    over the oldest paths checks exactly the paths of age [age]. *)
Lemma agree_oldest_first l age nuc :
  oldest_first l →
  Forall (fun r => (fp_pos r ≤ age)%N) l →
  agree l age nuc = true
  ↔ ∀ r, r ∈ l → fp_pos r = age → proposes r = nuc.
Proof.
  induction 1 as [|r l Hl IH Hr]; intros Hle; simpl.
  - split; [|done]. intros _ r Hr. by apply elem_of_nil in Hr.
  - apply Forall_cons in Hle as [Hra Hle].
    destruct (N.ltb_spec (fp_pos r) age) as [Hlt|Hge].
    + split; [|done]. intros _ r' Hr' Hage.
      apply elem_of_cons in Hr' as [->|Hr']; [lia|].
      rewrite Forall_forall in Hr. specialize (Hr r' Hr'). simpl in Hr. lia.
    + case_bool_decide as Hnuc.
      * split; [done|]. intros Hall. exfalso. apply Hnuc, Hall; [by left|lia].
      * rewrite IH by done. split.
        -- intros Hall r' Hr' Hage.
           apply elem_of_cons in Hr' as [->|Hr']; auto.
        -- intros Hall r' Hr' Hage. apply Hall; [by right|done].
Qed.

Lemma find_base_Some cands nuc idx :
  find_base cands nuc = Some idx → ∃ nd, (idx, nd, nuc) ∈ cands.
Proof.
  induction cands as [|[[i nd] b] cands IH]; simpl; [done|].
  case_decide as Hb.
  - intros [= ->]. subst b. exists nd. by left.
  - intros Hf. destruct (IH Hf) as [nd' Hin]. exists nd'. by right.
Qed.

Lemma find_base_None cands nuc :
  find_base cands nuc = None → ∀ idx nd, (idx, nd, nuc) ∉ cands.
Proof.
  induction cands as [|[[i nd] b] cands IH]; simpl; intros Hf idx' nd'.
  - apply not_elem_of_nil.
  - case_decide as Hb; [done|].
    apply not_elem_of_cons. split; [congruence|by apply IH].
Qed.

Lemma elem_of_candidates w num_next next_nodes next_bases idx nd b :
  num_next ≤ length next_bases →
  (idx, nd, b) ∈ candidates w num_next next_nodes next_bases →
  ∃ i, idx = Z.of_nat i ∧ i < num_next ∧ next_bases !! i = Some b ∧
       db_node_has_col (db_graph w) nd (colour w) = true.
Proof.
  intros Hb Hin. unfold candidates in Hin.
  apply list_elem_of_filter in Hin as [Hcol Hin].
  apply list_elem_of_fmap in Hin as (i & Heq & Hi).
  apply elem_of_seq in Hi. unfold next_triple in Heq.
  injection Heq as -> -> ->.
  exists i. split_and!; [done|lia| |done].
  apply list_lookup_lookup_total_lt. lia.
Qed.

(** ** The claims about [graph_walker_choose] *)

(** C2.  At a fork (at most four next nodes, two or more of them in the
    walker's colour) of a walker that satisfies its invariant, with
    [oldest] a current path of largest [pos].  When
    [graph_walker_choose] returns a choice, the base of the chosen next
    node is the nucleotide [oldest] proposes at its [pos], and every
    current path with that same [pos] proposes the same nucleotide.
    When a current path with that [pos] proposes another nucleotide,
    the result is -1.  And when every current path with that [pos]
    proposes the nucleotide of [oldest], the counter check passes (as
    many nucleotides are advocated as there are candidates) and a
    candidate is reached along that nucleotide, a choice is returned:
    a next node reached along that nucleotide. *)
Theorem choose_follows_oldest w num_next next_nodes next_bases oldest :
  wlk_inv w →
  2 ≤ num_next → num_next ≤ 4 →
  num_next ≤ length next_nodes → num_next ≤ length next_bases →
  2 ≤ length (candidates w num_next next_nodes next_bases) →
  oldest ∈ curr_set w →
  (∀ r, r ∈ curr_set w → (fp_pos r ≤ fp_pos oldest)%N) →
  (∀ idx,
     graph_walker_choose w num_next next_nodes next_bases = Ok idx →
     idx ≠ (-1)%Z →
     (∃ i, idx = Z.of_nat i ∧ i < num_next ∧
           next_bases !! i = Some (proposes oldest)) ∧
     (∀ r, r ∈ curr_set w → fp_pos r = fp_pos oldest →
           proposes r = proposes oldest)) ∧
  ((∃ r, r ∈ curr_set w ∧ fp_pos r = fp_pos oldest ∧
         proposes r ≠ proposes oldest) →
   graph_walker_choose w num_next next_nodes next_bases = Ok (-1)%Z) ∧
  ((∀ r, r ∈ curr_set w → fp_pos r = fp_pos oldest →
         proposes r = proposes oldest) →
   length (candidates w num_next next_nodes next_bases) = num_advocated w →
   (∃ idx nd,
      (idx, nd, proposes oldest)
      ∈ candidates w num_next next_nodes next_bases) →
   ∃ i,
     graph_walker_choose w num_next next_nodes next_bases = Ok (Z.of_nat i) ∧
     i < num_next ∧ next_bases !! i = Some (proposes oldest)).
Proof.
  intros Hinv Hnum Hfour Hn Hb Hcands Hold Hmax.
  rewrite graph_walker_choose_unfold by done. cbv zeta.
  pose proof (inv_oldest_first _ Hinv) as Hsorted.
  apply StronglySorted_app_1_l in Hsorted.
  destruct (candidates w num_next next_nodes next_bases)
    as [|[[i0 n0] b0] [|[[i1 n1] b1] rest]] eqn:Hc; [simpl in Hcands; lia..|].
  rewrite <- Hc in *. clear Hcands.
  destruct (curr_set w) as [|r0 older] eqn:Hcs;
    [by apply elem_of_nil in Hold|].
  apply StronglySorted_cons in Hsorted as [Hle Hsorted].
  assert (Hpos : fp_pos oldest = fp_pos r0).
  { apply N.le_antisymm; [|apply Hmax; by left].
    apply elem_of_cons in Hold as [->|Hold]; [done|].
    rewrite Forall_forall in Hle. by apply Hle. }
  pose proof (agree_oldest_first older (fp_pos r0) (proposes r0) Hsorted Hle)
    as Hagree.
  assert (Hall : agree older (fp_pos r0) (proposes r0) = true →
                 ∀ r, r ∈ r0 :: older → fp_pos r = fp_pos r0 →
                      proposes r = proposes r0).
  { intros Ha r Hr Hage. apply elem_of_cons in Hr as [->|Hr]; [done|].
    by apply Hagree. }
  rewrite Hpos. split_and!.
  - intros idx Heq Hidx.
    destruct (agree older (fp_pos r0) (proposes r0)) eqn:Ha;
      [|simpl in Heq; congruence].
    simpl in Heq.
    assert (Hprop : proposes oldest = proposes r0) by (apply Hall; done).
    rewrite Hprop.
    destruct (counts_sum _ <? _); [congruence|].
    destruct (_ <? counts_sum _); [done|].
    destruct (find_base _ _) as [idx'|] eqn:Hf; [|done].
    injection Heq as ->.
    apply find_base_Some in Hf as [nd Hin].
    apply elem_of_candidates in Hin as (i & -> & Hi & Hlk & _); [|done].
    split; [by exists i|]. by apply Hall.
  - intros (r & Hr & Hage & Hne).
    destruct (agree older (fp_pos r0) (proposes r0)) eqn:Ha; [|done].
    exfalso. apply Hne.
    rewrite (Hall eq_refl r Hr Hage). symmetry. by apply Hall.
  - intros Hsame Hadv (idx0 & nd0 & Hin).
    assert (Hprop : proposes r0 = proposes oldest)
      by (apply Hsame; [by left|done]).
    rewrite <- Hprop in *.
    assert (Ha : agree older (fp_pos r0) (proposes r0) = true).
    { apply Hagree. intros r Hr Hage. apply Hsame; [by right|done]. }
    rewrite Ha. simpl.
    pose proof (marks_le_advocated w
                  (length (candidates w num_next next_nodes next_bases)))
      as Hmarks.
    destruct (Nat.ltb_spec
                (counts_sum (marks w (length (candidates w num_next
                                                next_nodes next_bases))))
                (length (candidates w num_next next_nodes next_bases)))
      as [Hlt|Hge].
    { apply marks_complete in Hlt as Heq. lia. }
    destruct (Nat.ltb_spec
                (length (candidates w num_next next_nodes next_bases))
                (counts_sum (marks w (length (candidates w num_next
                                                next_nodes next_bases)))));
      [lia|].
    destruct (find_base _ _) as [idx|] eqn:Hf.
    + apply find_base_Some in Hf as [nd Hfound].
      apply elem_of_candidates in Hfound as (i & -> & Hi & Hlk & _); [|done].
      by exists i.
    + exfalso. by apply (find_base_None _ _ Hf idx0 nd0).
Qed.

(** C3, as the code has it.  With no next node the result is -1 and with
    exactly one next node that node is picked, whatever its colours;
    with two or more (at most four, the cells of the local arrays), the
    next nodes are restricted to those present in the walker's colour:
    exactly one candidate left is picked, and with none left, or with
    no current path, the result is -1. *)
Theorem choose_colour_restriction w num_next next_nodes next_bases :
  num_next ≤ 4 →
  num_next ≤ length next_nodes → num_next ≤ length next_bases →
  (num_next = 0 →
   graph_walker_choose w num_next next_nodes next_bases = Ok (-1)%Z) ∧
  (num_next = 1 →
   graph_walker_choose w num_next next_nodes next_bases = Ok 0%Z) ∧
  (2 ≤ num_next →
   (∀ idx nd b,
      candidates w num_next next_nodes next_bases = [(idx, nd, b)] →
      graph_walker_choose w num_next next_nodes next_bases = Ok idx) ∧
   (candidates w num_next next_nodes next_bases = [] →
    graph_walker_choose w num_next next_nodes next_bases = Ok (-1)%Z) ∧
   (num_curr w = 0 →
    length (candidates w num_next next_nodes next_bases) ≠ 1 →
    graph_walker_choose w num_next next_nodes next_bases = Ok (-1)%Z)).
Proof.
  intros Hfour Hn Hb. split_and!.
  - by intros ->.
  - by intros ->.
  - intros Hnum. unfold graph_walker_choose.
    destruct (Nat.eqb_spec num_next 0); [lia|].
    destruct (Nat.eqb_spec num_next 1); [lia|].
    rewrite restrict_to_colour_spec by done. simpl.
    fold (candidates w num_next next_nodes next_bases).
    split_and!.
    + by intros idx nd b ->.
    + by intros ->.
    + intros Hnc Hlen. rewrite Hnc.
      destruct (candidates w num_next next_nodes next_bases)
        as [|[[idx0 nd0] b0] [|t1 rest]]; done.
Qed.

(** Part of C1 that holds: at a fork with [m] candidates, with fewer
    than [m] nucleotides advocated the result is -1. *)
Lemma choose_fewer_no_choice w num_next next_nodes next_bases :
  wlk_inv w →
  2 ≤ num_next → num_next ≤ 4 →
  num_next ≤ length next_nodes → num_next ≤ length next_bases →
  2 ≤ length (candidates w num_next next_nodes next_bases) →
  num_advocated w < length (candidates w num_next next_nodes next_bases) →
  graph_walker_choose w num_next next_nodes next_bases = Ok (-1)%Z.
Proof.
  intros Hinv Hnum Hfour Hn Hb Hcands Hfew.
  rewrite graph_walker_choose_unfold by done. cbv zeta.
  destruct (candidates w num_next next_nodes next_bases)
    as [|[[i0 n0] b0] [|[[i1 n1] b1] rest]] eqn:Hc; [simpl in Hcands; lia..|].
  rewrite <- Hc in *.
  destruct (curr_set w) as [|r0 older]; [done|].
  destruct (agree _ _ _); [|done]. simpl.
  pose proof (marks_le_advocated w
                (length (candidates w num_next next_nodes next_bases))).
  destruct (Nat.ltb_spec
              (counts_sum (marks w (length (candidates w num_next next_nodes
                                              next_bases))))
              (length (candidates w num_next next_nodes next_bases)));
    [done|lia].
Qed.

(** With [m] nucleotides or more advocated, and the oldest paths in
    agreement, the choice is the candidate whose base the oldest path
    proposes: the case of more than [m] is not told apart. *)
Lemma choose_enough_picks w num_next next_nodes next_bases r0 older :
  wlk_inv w →
  2 ≤ num_next → num_next ≤ 4 →
  num_next ≤ length next_nodes → num_next ≤ length next_bases →
  2 ≤ length (candidates w num_next next_nodes next_bases) →
  length (candidates w num_next next_nodes next_bases) ≤ num_advocated w →
  curr_set w = r0 :: older →
  agree older (fp_pos r0) (proposes r0) = true →
  graph_walker_choose w num_next next_nodes next_bases
  = match find_base (candidates w num_next next_nodes next_bases)
            (proposes r0) with
    | Some idx => Ok idx
    | None => Died msg_path_corruption
    end.
Proof.
  intros Hinv Hnum Hfour Hn Hb Hcands Henough Hcs Hagree.
  pose proof (graph_walker_choose_never_counter_corruption w num_next
                next_nodes next_bases) as Hnever.
  rewrite graph_walker_choose_unfold in Hnever |- * by done. cbv zeta in *.
  destruct (candidates w num_next next_nodes next_bases)
    as [|[[i0 n0] b0] [|[[i1 n1] b1] rest]] eqn:Hc; [simpl in Hcands; lia..|].
  rewrite <- Hc in *.
  rewrite Hcs, Hagree in *. simpl in *.
  set (m := length (candidates w num_next next_nodes next_bases)) in *.
  destruct (Nat.ltb_spec (counts_sum (marks w m)) m) as [Hlt|Hge].
  { apply marks_complete in Hlt as Heq. lia. }
  destruct (m <? counts_sum (marks w m)); [done|done].
Qed.

(** ** The claims about the paths after a jump and the counter paths *)

(** C5, as the code has it.  After a fork, [graph_traverse_force_jump]
    keeps exactly the current and new paths whose base at [pos] is the
    last nucleotide of the new k-mer and for which [pos + 1 < len], one
    base further, and likewise the counter paths; all others go back to
    the unused pool (the invariant holds again, every record being in
    one partition); the walker stands at the new node; no new path is
    left unpromoted; and the new paths are those indexed at the new node
    that match the new orientation and are witnessed by the walker's
    colour. *)
Theorem force_jump_after_fork w nd bk :
  wlk_inv w → graph_ok (db_graph w) →
  ∃ w',
    graph_traverse_force_jump w nd bk true = Ok w' ∧
    wlk_inv w' ∧ conserved w' ∧
    curr_set w'
    = advance <$> filter (follows (binary_kmer_last_nuc bk))
                    (curr_set w ++ new_set w) ∧
    counter_set w'
    = advance <$> filter (follows (binary_kmer_last_nuc bk))
                    (counter_set w) ∧
    new_set w'
    = fetched <$> filter (fun e => path_store_has_col e (colour w) = true ∧
                                   orient w' = pe_orient e)
                    (db_node_paths (db_graph w) nd) ∧
    node w' = nd ∧ bkmer w' = bk ∧
    orient w' = db_node_get_orientation bk (db_node_bkmer (db_graph w) nd).
Proof.
  intros Hinv Hg.
  destruct (graph_traverse_force_jump_spec w nd bk true Hinv Hg)
    as (w' & Heq & Hinv' & Hc & Hk & Hn & ? & ? & ? & ? & ?).
  exists w'. split_and!; try done.
  unfold conserved. by apply wlk_inv_count.
Qed.

(** C4, as the code has it.  [graph_walker_add_counter_paths] takes into
    [counter_paths], from every predecessor passed, the paths indexed
    there that the walker's colour witnesses and that match the
    orientation given: from a predecessor with more than one way out
    those of more than one base, at [pos = 1], the paths of one base
    going back to the unused pool; from a predecessor with at most one
    way out all of them, at [pos = 0].  The current and the new paths are
    left as they are. *)
Theorem add_counter_paths_takes w prev_nodes prev_orients num_prev :
  wlk_inv w → graph_ok (db_graph w) →
  num_prev ≤ length prev_nodes → num_prev ≤ length prev_orients →
  ∃ w',
    graph_walker_add_counter_paths w prev_nodes prev_orients num_prev
    = Ok w' ∧
    wlk_inv w' ∧ conserved w' ∧
    curr_set w' = curr_set w ∧
    new_set w' = new_set w ∧
    counter_set w'
    = counter_set w
      ++ concat
           ((fun '(nd, o) =>
               let m := fetched <$>
                          filter (fun e =>
                                    path_store_has_col e (colour w) = true ∧
                                    o = pe_orient e)
                            (db_node_paths (db_graph w) nd) in
               if 1 <? edges_get_outdegree
                         (db_node_union_edges (db_graph w) nd) o
               then advance <$> filter (fun fp => (1 < fp_len fp)%N) m
               else m)
              <$> take num_prev (zip prev_nodes prev_orients)).
Proof.
  intros Hinv Hg Hn Ho.
  destruct (graph_walker_add_counter_paths_spec w prev_nodes prev_orients
              num_prev Hinv Hg Hn Ho)
    as (w' & Heq & Hinv' & Hc & Hnw & Hk & _).
  exists w'. split_and!; try done.
  unfold conserved. by apply wlk_inv_count.
Qed.

(** C10, as the code has it.  On a walker in which every record is in
    exactly one of the four partitions, so that the four counts add up
    to [max_num_paths], each of [graph_traverse_force_jump],
    [graph_walker_add_counter_paths] and [graph_walker_finish] returns a
    walker of which the same holds, as does [graph_walker_init] on an
    idle walker; [graph_walker_finish] leaves no current, new or counter
    path, all records being back in the unused pool. *)
Theorem pool_conserved w :
  wlk_inv w → graph_ok (db_graph w) →
  conserved w ∧
  (∀ nd bk fork,
     ∃ w', graph_traverse_force_jump w nd bk fork = Ok w' ∧
           wlk_inv w' ∧ conserved w') ∧
  (∀ prev_nodes prev_orients num_prev,
     num_prev ≤ length prev_nodes → num_prev ≤ length prev_orients →
     ∃ w', graph_walker_add_counter_paths w prev_nodes prev_orients num_prev
           = Ok w' ∧
           wlk_inv w' ∧ conserved w') ∧
  (idle w →
   ∀ g col nd o, graph_ok g →
     ∃ w', graph_walker_init w g col nd o = Ok w' ∧
           wlk_inv w' ∧ conserved w') ∧
  (∃ w', graph_walker_finish w = Ok w' ∧
         wlk_inv w' ∧ conserved w' ∧
         num_curr w' = 0 ∧ num_new w' = 0 ∧ num_counter w' = 0 ∧
         num_unused w' = max_num_paths w' ∧
         unused_ptrs w' ≡ₚ seq 0 (max_num_paths w')).
Proof.
  intros Hinv Hg. split_and!.
  - unfold conserved. by apply wlk_inv_count.
  - intros nd bk fork.
    destruct (graph_traverse_force_jump_spec w nd bk fork Hinv Hg)
      as (w' & Heq & Hinv' & _).
    exists w'. split_and!; [done..|]. unfold conserved. by apply wlk_inv_count.
  - intros prev_nodes prev_orients num_prev Hn Ho.
    destruct (graph_walker_add_counter_paths_spec w prev_nodes prev_orients
                num_prev Hinv Hg Hn Ho) as (w' & Heq & Hinv' & _).
    exists w'. split_and!; [done..|]. unfold conserved. by apply wlk_inv_count.
  - intros Hidle g col nd o Hg'.
    destruct (graph_walker_init_spec w g col nd o Hinv Hidle Hg')
      as (w' & Heq & Hinv' & _).
    exists w'. split_and!; [done..|]. unfold conserved. by apply wlk_inv_count.
  - destruct (graph_walker_finish_idle w (inv_pool _ Hinv))
      as (w' & Heq & (Hc & Hn & Hk & Hu) & Hinv' & Hmax & Hperm).
    exists w'. split_and!; try done.
    + unfold conserved. by apply wlk_inv_count.
    + by rewrite Hmax.
Qed.

End WalkerFacts.


(** ** The walk of the example *)

Module ExampleFacts.
Import Walker WalkerSpec WalkerFacts Examples.

Local Open Scope nat_scope.

Lemma ex_graph_ok : graph_ok ex_graph.
Proof.
  intros nd. unfold chain_ok. simpl. unfold ex_paths.
  repeat case_match; repeat apply Forall_cons_2; try apply Forall_nil_2;
    (split; [simpl; lia|done]).
Qed.

Lemma ex_w0_inv : wlk_inv ex_w0 ∧ idle ex_w0.
Proof.
  destruct (graph_walker_alloc_idle ex_blank eq_refl). by split.
Qed.

Lemma ex_w1_eq :
  graph_walker_init ex_w0 ex_graph 0 1%N FORWARD = Ok ex_w1.
Proof. vm_compute. reflexivity. Qed.

Lemma ex_w1_inv : wlk_inv ex_w1.
Proof.
  destruct ex_w0_inv as [Hinv Hidle].
  destruct (graph_walker_init_spec ex_w0 ex_graph 0 1%N FORWARD Hinv Hidle
              ex_graph_ok) as (w' & Heq & Hinv' & _).
  rewrite ex_w1_eq in Heq. apply Ok_inj in Heq. by subst w'.
Qed.

Lemma ex_w1_graph : graph_ok (db_graph ex_w1).
Proof.
  replace (db_graph ex_w1) with ex_graph by (vm_compute; reflexivity).
  exact ex_graph_ok.
Qed.

Lemma ex_w2_eq :
  graph_traverse_force_jump ex_w1 7%N [NucA; NucC; NucA] false = Ok ex_w2.
Proof. vm_compute. reflexivity. Qed.

Lemma ex_w2_inv : wlk_inv ex_w2.
Proof.
  destruct (graph_traverse_force_jump_spec ex_w1 7%N [NucA; NucC; NucA] false
              ex_w1_inv ex_w1_graph) as (w' & Heq & Hinv' & _).
  rewrite ex_w2_eq in Heq. apply Ok_inj in Heq. by subst w'.
Qed.

Lemma ex_w2_graph : graph_ok (db_graph ex_w2).
Proof.
  replace (db_graph ex_w2) with ex_graph by (vm_compute; reflexivity).
  exact ex_graph_ok.
Qed.

Lemma ex_w3_eq :
  graph_walker_add_counter_paths ex_w2 [4%N; 6%N] [FORWARD; FORWARD] 2
  = Ok ex_w3.
Proof. vm_compute. reflexivity. Qed.

Lemma ex_w3_inv : wlk_inv ex_w3.
Proof.
  destruct (graph_walker_add_counter_paths_spec ex_w2 [4%N; 6%N]
              [FORWARD; FORWARD] 2 ex_w2_inv ex_w2_graph)
    as (w' & Heq & Hinv' & _); [by apply Nat.le_refl..|].
  rewrite ex_w3_eq in Heq. apply Ok_inj in Heq. by subst w'.
Qed.

Lemma ex_w3_graph : graph_ok (db_graph ex_w3).
Proof.
  replace (db_graph ex_w3) with ex_graph by (vm_compute; reflexivity).
  exact ex_graph_ok.
Qed.

Lemma ex_w4_eq :
  graph_walker_add_counter_paths ex_w3 [8%N] [FORWARD] 1 = Ok ex_w4.
Proof. vm_compute. reflexivity. Qed.

Lemma ex_w4_inv : wlk_inv ex_w4.
Proof.
  destruct (graph_walker_add_counter_paths_spec ex_w3 [8%N] [FORWARD] 1
              ex_w3_inv ex_w3_graph)
    as (w' & Heq & Hinv' & _); [by apply Nat.le_refl..|].
  rewrite ex_w4_eq in Heq. apply Ok_inj in Heq. by subst w'.
Qed.

End ExampleFacts.

Module ForkExampleFacts.
Import Walker WalkerSpec WalkerFacts Examples ExampleFacts ForkExamples.

Local Open Scope nat_scope.

Lemma init_keeps_inv w g col nd o w' :
  wlk_inv w → idle w → graph_ok g →
  graph_walker_init w g col nd o = Ok w' →
  wlk_inv w' ∧ graph_ok (db_graph w').
Proof.
  intros Hinv Hidle Hg Heq.
  destruct (graph_walker_init_spec w g col nd o Hinv Hidle Hg)
    as (w1 & Heq1 & Hinv1 & _ & _ & _ & Hg1 & _).
  rewrite Heq in Heq1. injection Heq1 as <-. by rewrite Hg1.
Qed.

Lemma jump_keeps_inv w nd bk fork w' :
  wlk_inv w → graph_ok (db_graph w) →
  graph_traverse_force_jump w nd bk fork = Ok w' →
  wlk_inv w' ∧ graph_ok (db_graph w').
Proof.
  intros Hinv Hg Heq.
  destruct (graph_traverse_force_jump_spec w nd bk fork Hinv Hg)
    as (w1 & Heq1 & Hinv1 & _ & _ & _ & _ & _ & _ & Hg1 & _).
  rewrite Heq in Heq1. injection Heq1 as <-. by rewrite Hg1.
Qed.

Lemma counter_paths_keep_inv w prev_nodes prev_orients num_prev w' :
  wlk_inv w → graph_ok (db_graph w) →
  num_prev ≤ length prev_nodes → num_prev ≤ length prev_orients →
  graph_walker_add_counter_paths w prev_nodes prev_orients num_prev = Ok w' →
  wlk_inv w' ∧ graph_ok (db_graph w').
Proof.
  intros Hinv Hg Hn Ho Heq.
  destruct (graph_walker_add_counter_paths_spec w prev_nodes prev_orients
              num_prev Hinv Hg Hn Ho)
    as (w1 & Heq1 & Hinv1 & _ & _ & _ & _ & _ & (Hg1 & _)).
  rewrite Heq in Heq1. injection Heq1 as <-. by rewrite Hg1.
Qed.

Lemma fork_graph_ok : graph_ok fork_graph.
Proof.
  intros nd. unfold chain_ok. simpl. unfold ex_paths.
  repeat case_match; repeat apply Forall_cons_2; try apply Forall_nil_2;
    (split; [simpl; lia|done]).
Qed.

Lemma ex_pair_ok : wlk_inv ex_pair ∧ graph_ok (db_graph ex_pair).
Proof.
  destruct ex_w0_inv as [Hinv0 Hidle0].
  destruct (init_keeps_inv ex_w0 fork_graph 0 1%N FORWARD ex_pair0
              Hinv0 Hidle0 fork_graph_ok) as [Hi0 Hg0];
    [vm_compute; reflexivity|].
  destruct (jump_keeps_inv ex_pair0 9%N [NucA; NucC; NucA] false ex_pair1
              Hi0 Hg0) as [Hi1 Hg1]; [vm_compute; reflexivity|].
  destruct (jump_keeps_inv ex_pair1 7%N [NucA; NucC; NucA] false ex_pair2
              Hi1 Hg1) as [Hi2 Hg2]; [vm_compute; reflexivity|].
  apply (counter_paths_keep_inv ex_pair2 [4%N; 6%N] [FORWARD; FORWARD] 2
           ex_pair Hi2 Hg2 (Nat.le_refl 2) (Nat.le_refl 2)).
  vm_compute. reflexivity.
Qed.

Lemma ex_mixed_ok : wlk_inv ex_mixed ∧ graph_ok (db_graph ex_mixed).
Proof.
  destruct (jump_keeps_inv ex_w1 6%N [NucA; NucC; NucA] false ex_mixed1
              ex_w1_inv ex_w1_graph) as [Hi1 Hg1]; [vm_compute; reflexivity|].
  apply (jump_keeps_inv ex_mixed1 7%N [NucA; NucC; NucA] false ex_mixed
           Hi1 Hg1).
  vm_compute. reflexivity.
Qed.

Lemma ex_side_ok : wlk_inv ex_side ∧ graph_ok (db_graph ex_side).
Proof.
  destruct (jump_keeps_inv ex_w1 2%N [NucC; NucA; NucA] false ex_side1
              ex_w1_inv ex_w1_graph) as [Hi1 Hg1]; [vm_compute; reflexivity|].
  apply (counter_paths_keep_inv ex_side1 [4%N; 6%N] [FORWARD; FORWARD] 2
           ex_side Hi1 Hg1 (Nat.le_refl 2) (Nat.le_refl 2)).
  vm_compute. reflexivity.
Qed.

End ForkExampleFacts.


(** ** The claims on the walk of the example *)

Module Scenarios.
Import Walker WalkerSpec WalkerFacts Examples ExampleFacts ForkExamples
  ForkExampleFacts.

Local Open Scope nat_scope.

(** The walker at the fork node 7, as [graph_traverse_force_jump] hands
    it to [pickup_paths] on the way from node 1: the new path counted
    among the current ones, [num_new] not yet assigned. *)
Definition ex_w1_promoted : GraphWalker :=
  set_num_curr (num_curr ex_w1 + num_new ex_w1)
    (set_orient FORWARD (set_bkmer [NucA; NucC; NucA] (set_node 7%N ex_w1))).

(** C1.  At the two-way fork {A, C} of the example, with the current path
    [A, G] at [pos = 0] and counter paths that advocate C and G, three
    nucleotides are advocated for two candidates: [graph_walker_choose]
    does not die with "Counter path corruption", it returns the index 0
    of the A extension. *)
Theorem choose_excess_advocated_returns :
  length (candidates ex_w4 2 [2%N; 3%N] [NucA; NucC]) = 2 ∧
  curr_set ex_w4 = [mkFollowPath [NucA; NucG] 0%N 2%N] ∧
  proposes <$> counter_set ex_w4 = [NucC; NucC; NucG] ∧
  num_advocated ex_w4 = 3 ∧
  graph_walker_choose ex_w4 2 [2%N; 3%N] [NucA; NucC] = Ok 0%Z.
Proof. vm_compute. by split_and!. Qed.

(** At the fork {A, C} two walkers.  The current paths [A, G] and [A, T]
    of the first share [pos = 0] and both propose A, and the counter
    paths advocate C: the A extension is chosen.  The current paths
    [A, G], [T, C] and [G] of the second share [pos = 0] and propose A,
    T and G: there is no choice. *)
Lemma choose_follows_oldest_witness :
  curr_set ex_pair
  = [mkFollowPath [NucA; NucG] 0%N 2%N; mkFollowPath [NucA; NucT] 0%N 2%N] ∧
  (∃ i, graph_walker_choose ex_pair 2 [2%N; 3%N] [NucA; NucC]
        = Ok (Z.of_nat i) ∧
        i < 2 ∧ [NucA; NucC] !! i = Some NucA) ∧
  curr_set ex_mixed
  = [mkFollowPath [NucA; NucG] 0%N 2%N; mkFollowPath [NucT; NucC] 0%N 2%N;
     mkFollowPath [NucG] 0%N 1%N] ∧
  graph_walker_choose ex_mixed 2 [2%N; 3%N] [NucA; NucC] = Ok (-1)%Z.
Proof.
  assert (H4 : 2 ≤ 4) by (repeat constructor).
  assert (Hcp : curr_set ex_pair
                = [mkFollowPath [NucA; NucG] 0%N 2%N;
                   mkFollowPath [NucA; NucT] 0%N 2%N])
    by (vm_compute; reflexivity).
  assert (Hcm : curr_set ex_mixed
                = [mkFollowPath [NucA; NucG] 0%N 2%N;
                   mkFollowPath [NucT; NucC] 0%N 2%N;
                   mkFollowPath [NucG] 0%N 1%N])
    by (vm_compute; reflexivity).
  split; [exact Hcp|].
  destruct (choose_follows_oldest ex_pair 2 [2%N; 3%N] [NucA; NucC]
              (mkFollowPath [NucA; NucG] 0%N 2%N)) as (_ & _ & Hlive).
  { exact (proj1 ex_pair_ok). }
  { apply Nat.le_refl. }
  { exact H4. }
  { apply Nat.le_refl. }
  { apply Nat.le_refl. }
  { replace (length (candidates ex_pair 2 [2%N; 3%N] [NucA; NucC])) with 2
      by (vm_compute; reflexivity).
    apply Nat.le_refl. }
  { rewrite Hcp. apply list_elem_of_here. }
  { rewrite Hcp. intros r Hr.
    apply elem_of_cons in Hr as [Hr|Hr]; [rewrite Hr; apply N.le_refl|].
    apply list_elem_of_singleton in Hr. rewrite Hr. apply N.le_refl. }
  split.
  { apply Hlive.
    - rewrite Hcp. intros r Hr _.
      apply elem_of_cons in Hr as [Hr|Hr]; [rewrite Hr; reflexivity|].
      apply list_elem_of_singleton in Hr. rewrite Hr. reflexivity.
    - vm_compute. reflexivity.
    - exists 0%Z, 2%N.
      replace (candidates ex_pair 2 [2%N; 3%N] [NucA; NucC])
        with [(0%Z, 2%N, NucA); (1%Z, 3%N, NucC)]
        by (vm_compute; reflexivity).
      apply list_elem_of_here. }
  split; [exact Hcm|].
  destruct (choose_follows_oldest ex_mixed 2 [2%N; 3%N] [NucA; NucC]
              (mkFollowPath [NucA; NucG] 0%N 2%N)) as (_ & Hdiffer & _).
  { exact (proj1 ex_mixed_ok). }
  { apply Nat.le_refl. }
  { exact H4. }
  { apply Nat.le_refl. }
  { apply Nat.le_refl. }
  { replace (length (candidates ex_mixed 2 [2%N; 3%N] [NucA; NucC])) with 2
      by (vm_compute; reflexivity).
    apply Nat.le_refl. }
  { rewrite Hcm. apply list_elem_of_here. }
  { rewrite Hcm. intros r Hr.
    apply elem_of_cons in Hr as [Hr|Hr]; [rewrite Hr; apply N.le_refl|].
    apply elem_of_cons in Hr as [Hr|Hr]; [rewrite Hr; apply N.le_refl|].
    apply list_elem_of_singleton in Hr. rewrite Hr. apply N.le_refl. }
  apply Hdiffer. exists (mkFollowPath [NucT; NucC] 0%N 2%N).
  rewrite Hcm. split_and!.
  - apply list_elem_of_further, list_elem_of_here.
  - reflexivity.
  - vm_compute. discriminate.
Defined.

(** Of the two next nodes 2 and 5 only node 2 is present in colour 0: it
    is picked. *)
Lemma choose_colour_restriction_witness :
  candidates ex_w3 2 [2%N; 5%N] [NucA; NucC] = [(0%Z, 2%N, NucA)] ∧
  graph_walker_choose ex_w3 2 [2%N; 5%N] [NucA; NucC] = Ok 0%Z.
Proof.
  assert (Hc : candidates ex_w3 2 [2%N; 5%N] [NucA; NucC] = [(0%Z, 2%N, NucA)])
    by (vm_compute; reflexivity).
  split; [exact Hc|].
  destruct (choose_colour_restriction ex_w3 2 [2%N; 5%N] [NucA; NucC])
    as (_ & _ & Hfork); [repeat constructor|apply Nat.le_refl..|].
  destruct (Hfork (Nat.le_refl 2)) as (Hone & _).
  exact (Hone 0%Z 2%N NucA Hc).
Defined.

(** The only next node, node 5, is not present in colour 0, so that no
    candidate is left in the walker's colour; the result is the index 0
    all the same, not -1. *)
Lemma choose_single_next_ignores_colour :
  db_node_has_col (db_graph ex_w3) 5%N (colour ex_w3) = false ∧
  candidates ex_w3 1 [5%N] [NucA] = [] ∧
  graph_walker_choose ex_w3 1 [5%N] [NucA] = Ok 0%Z ∧
  graph_walker_choose ex_w3 1 [5%N] [NucA] ≠ Ok (-1)%Z.
Proof.
  assert (Hch : graph_walker_choose ex_w3 1 [5%N] [NucA] = Ok 0%Z)
    by (vm_compute; reflexivity).
  split_and!; [vm_compute; reflexivity..|exact Hch|].
  rewrite Hch. discriminate.
Qed.

(** After the fork at node 7 along A to node 2: the current path [A, G]
    is kept, one base further; the counter paths, which advocate C, go
    back to the pool; the path [T] of node 2 is new. *)
Lemma force_jump_after_fork_witness :
  ∃ w',
    graph_traverse_force_jump ex_w3 2%N [NucC; NucA; NucA] true = Ok w' ∧
    wlk_inv w' ∧ conserved w' ∧
    curr_set w' = [mkFollowPath [NucA; NucG] 1%N 2%N] ∧
    counter_set w' = [] ∧
    new_set w' = [mkFollowPath [NucT] 0%N 1%N] ∧
    node w' = 2%N.
Proof.
  destruct (force_jump_after_fork ex_w3 2%N [NucC; NucA; NucA]
              ex_w3_inv ex_w3_graph)
    as (w' & Heq & Hinv & Hcons & Hc & Hk & Hn & Hnd & _ & Ho).
  exists w'. split_and!.
  - exact Heq.
  - exact Hinv.
  - exact Hcons.
  - rewrite Hc. vm_compute. reflexivity.
  - rewrite Hk. vm_compute. reflexivity.
  - rewrite Hn, Ho. vm_compute. reflexivity.
  - exact Hnd.
Defined.

(** Node 2 holds the paths [T], witnessed by colour 0, and [G], witnessed
    by colour 1 only, both of the new orientation: the walker of colour
    0 picks up [T] alone. *)
Lemma force_jump_skips_other_colour :
  ∃ w',
    graph_traverse_force_jump ex_w3 2%N [NucC; NucA; NucA] true = Ok w' ∧
    fetched <$> filter (fun e => orient w' = pe_orient e)
                  (db_node_paths (db_graph ex_w3) 2%N)
    = [mkFollowPath [NucT] 0%N 1%N; mkFollowPath [NucG] 0%N 1%N] ∧
    new_set w' = [mkFollowPath [NucT] 0%N 1%N].
Proof.
  eexists. split; [vm_compute; reflexivity|].
  split; vm_compute; reflexivity.
Qed.

(** The predecessors 4 (one way out) and 6 (two ways out) of node 7: the
    path [C] of node 4 is taken at [pos = 0]; of node 6 the path [T, C]
    is taken at [pos = 1] and the path [G] of one base is not. *)
Lemma add_counter_paths_takes_witness :
  ∃ w',
    graph_walker_add_counter_paths ex_w2 [4%N; 6%N] [FORWARD; FORWARD] 2
    = Ok w' ∧
    wlk_inv w' ∧ conserved w' ∧
    curr_set w' = [mkFollowPath [NucA; NucG] 0%N 2%N] ∧
    counter_set w'
    = [mkFollowPath [NucC] 0%N 1%N; mkFollowPath [NucT; NucC] 1%N 2%N].
Proof.
  destruct (add_counter_paths_takes ex_w2 [4%N; 6%N] [FORWARD; FORWARD] 2
              ex_w2_inv ex_w2_graph (Nat.le_refl 2) (Nat.le_refl 2))
    as (w' & Heq & Hinv & Hcons & Hc & _ & Hk).
  exists w'. split_and!.
  - exact Heq.
  - exact Hinv.
  - exact Hcons.
  - rewrite Hc. vm_compute. reflexivity.
  - rewrite Hk. vm_compute. reflexivity.
Defined.

(** The predecessor 4 has one way out, and its only path has one base:
    the path is picked up all the same, and is kept as a counter path
    at [pos = 0]. *)
Lemma add_counter_paths_single_exit_predecessor :
  edges_get_outdegree (db_node_union_edges (db_graph ex_w2) 4%N) FORWARD = 1 ∧
  counter_set ex_w2 = [] ∧
  ∃ w',
    graph_walker_add_counter_paths ex_w2 [4%N] [FORWARD] 1 = Ok w' ∧
    counter_set w' = [mkFollowPath [NucC] 0%N 1%N] ∧
    num_unused w' = num_unused ex_w2 - 1.
Proof.
  split; [vm_compute; reflexivity|].
  split; [vm_compute; reflexivity|].
  eexists. split; [vm_compute; reflexivity|].
  split; vm_compute; reflexivity.
Qed.

(** The walker with one current and two counter paths: the pool is
    conserved now, after a jump, and after [graph_walker_finish], which
    leaves all four records unused. *)
Lemma pool_conserved_witness :
  conserved ex_w3 ∧
  (∃ w', graph_traverse_force_jump ex_w3 2%N [NucC; NucA; NucA] true = Ok w' ∧
         conserved w') ∧
  (∃ w', graph_walker_finish ex_w3 = Ok w' ∧ conserved w' ∧
         num_curr w' = 0 ∧ num_new w' = 0 ∧ num_counter w' = 0 ∧
         num_unused w' = max_num_paths w').
Proof.
  destruct (pool_conserved ex_w3 ex_w3_inv ex_w3_graph)
    as (Hnow & Hjump & _ & _ & Hfin).
  split_and!.
  - exact Hnow.
  - destruct (Hjump 2%N [NucC; NucA; NucA] true) as (w' & Heq & _ & Hcons).
    exists w'. split; [exact Heq|exact Hcons].
  - destruct Hfin as (w' & Heq & _ & Hcons & Hc & Hn & Hk & Hu & _).
    exists w'. split_and!; assumption.
Defined.

(** The jump from node 1 to node 7 calls [pickup_paths] on a walker in
    which the new path already counts as current while [num_new] still
    counts it too: when [pickup_paths] returns, the four counts add up to
    3 with 2 records in all. *)
Lemma pickup_paths_inside_jump_miscounts :
  graph_traverse_force_jump ex_w1 7%N [NucA; NucC; NucA] false
  = (let* (n, w4) := pickup_paths (db_node_paths (db_graph ex_w1) 7%N)
                       ex_w1_promoted (orient ex_w1_promoted) false in
     Ok (set_num_curr (num_curr w4 - n) (set_num_new n w4))) ∧
  ∃ n w4,
    pickup_paths (db_node_paths (db_graph ex_w1) 7%N) ex_w1_promoted
      (orient ex_w1_promoted) false = Ok (n, w4) ∧
    num_curr w4 + num_new w4 + num_counter w4 + num_unused w4 = 3 ∧
    max_num_paths w4 = 2 ∧
    ¬ conserved w4.
Proof.
  split; [vm_compute; reflexivity|].
  do 2 eexists. split; [vm_compute; reflexivity|].
  split; [vm_compute; reflexivity|].
  split; [vm_compute; reflexivity|].
  vm_compute. discriminate.
Qed.

End Scenarios.


(** ** More of the [clean] command line *)

Module CtxCleanMore.
Import CtxClean CtxCleanSpec.

Section More.

Variable double : Type.
Variable double_neg1 : double.
Variable double_le_1 : double → bool.
Variable double_gt_0 : double → bool.
Variable parse_entire_size : string → option N.
Variable parse_entire_uint : string → option N.
Variable parse_entire_double : string → option double.

Local Abbreviation flag_loop :=
  (flag_loop double double_le_1 parse_entire_size parse_entire_uint
     parse_entire_double).
Local Abbreviation check_opts := (check_opts double double_gt_0).
Local Abbreviation run_opts := (run_opts double).
Local Abbreviation run_paths := (run_paths double).
Local Abbreviation run_out_ctx_path := (run_out_ctx_path double).
Local Abbreviation init_opts := (init_opts double double_neg1).
Local Abbreviation ctx_clean :=
  (ctx_clean double double_neg1 double_le_1 double_gt_0 parse_entire_size
     parse_entire_uint parse_entire_double).

Lemma flag_loop_numbers_bounded (n : nat) :
  ∀ (argv paths : list string) (o o' : CleanOpts double),
    (length argv ≤ n)%nat →
    numbers_checked o →
    flag_loop argv o = Go (o', paths) →
    numbers_checked o' ∧ suffix paths argv ∧
    (∀ p, head paths = Some p → starts_with_dash p = false).
Proof.
  induction n as [|n IH]; intros argv paths o o' Hlen Hnum Hrun.
  - destruct argv; [|simpl in Hlen; lia]. simpl in Hrun.
    injection Hrun as <- <-. by split_and!.
  - destruct argv as [|a rest].
    { simpl in Hrun. injection Hrun as <- <-. by split_and!. }
    simpl in Hlen. simpl in Hrun.
    destruct (starts_with_dash a) eqn:Hdash; simpl in Hrun.
    2:{ injection Hrun as <- <-. split_and!; [done..|].
        intros p [= <-]. done. }
    destruct Hnum as (Ht & Hth & Htip).
    repeat match type of Hrun with
           | context [String.eqb a ?f] => destruct (String.eqb a f)
           end; try discriminate.
    + destruct rest as [|v rest']; [discriminate|].
      destruct (parse_entire_size v) as [l|]; [|discriminate].
      destruct (N.leb_spec l 1); [discriminate|].
      apply IH in Hrun as (? & ? & ?); [|simpl in *; lia|].
      * split_and!; [done| |done]. by do 2 apply suffix_cons_r.
      * split_and!; simpl; [by right|done|done].
    + apply IH in Hrun as (? & ? & ?); [|simpl in *; lia|done].
      split_and!; [done| |done]. by apply suffix_cons_r.
    + destruct rest as [|v rest']; [discriminate|].
      apply IH in Hrun as (? & ? & ?); [|simpl in *; lia|done].
      split_and!; [done| |done]. by do 2 apply suffix_cons_r.
    + destruct rest as [|v rest']; [discriminate|].
      destruct (parse_entire_uint v) as [t|]; [|discriminate].
      destruct (N.leb_spec t 1); [discriminate|].
      apply IH in Hrun as (? & ? & ?); [|simpl in *; lia|].
      * split_and!; [done| |done]. by do 2 apply suffix_cons_r.
      * split_and!; simpl; [done|by right|done].
    + destruct rest as [|v rest']; [discriminate|].
      destruct (parse_entire_double v) as [d|]; [|discriminate].
      destruct (double_le_1 d); [discriminate|].
      apply IH in Hrun as (? & ? & ?); [|simpl in *; lia|done].
      split_and!; [done| |done]. by do 2 apply suffix_cons_r.
    + destruct rest as [|v rest']; [discriminate|].
      apply IH in Hrun as (? & ? & ?); [|simpl in *; lia|done].
      split_and!; [done| |done]. by do 2 apply suffix_cons_r.
    + destruct rest as [|v rest']; [discriminate|].
      apply IH in Hrun as (? & ? & ?); [|simpl in *; lia|done].
      split_and!; [done| |done]. by do 2 apply suffix_cons_r.
Qed.

Lemma flag_loop_numbers (argv paths : list string) (o' : CleanOpts double) :
  flag_loop argv init_opts = Go (o', paths) →
  numbers_checked o' ∧ suffix paths argv ∧
  (∀ p, head paths = Some p → starts_with_dash p = false).
Proof.
  apply (flag_loop_numbers_bounded (length argv)); [lia|].
  split_and!; [by left|by left|done].
Qed.

(** What [check_opts] lets through. *)
Lemma check_opts_Go output_file fe o paths run :
  check_opts output_file fe o paths = Go run →
  let tip := tip_cleaning (run_opts run) in
  let snode := supernode_cleaning (run_opts run) in
  paths ≠ [] ∧ run_paths run = paths ∧ run_out_ctx_path run = output_file ∧
  (tip || snode = bool_decide (output_file ≠ None)) ∧
  (∀ out, output_file = Some out → out = "-"%string ∨ fe out = false) ∧
  max_tip_len (run_opts run) = max_tip_len o ∧
  threshold (run_opts run) = threshold o ∧
  seq_depth (run_opts run) = seq_depth o ∧
  dump_covgs (run_opts run) = dump_covgs o ∧
  len_before_path (run_opts run) = len_before_path o ∧
  len_after_path (run_opts run) = len_after_path o ∧
  (tip_cleaning o = true → tip = true) ∧
  (supernode_cleaning o = true → snode = true) ∧
  (tip_cleaning o || supernode_cleaning o = true →
   tip = tip_cleaning o ∧ snode = supernode_cleaning o) ∧
  ((0 < threshold o)%N → snode = true) ∧
  (double_gt_0 (seq_depth o) = true → snode = true ∧ threshold o = 0%N) ∧
  (len_after_path o ≠ None → tip || snode = true).
Proof.
  unfold CtxClean.check_opts. destruct paths as [|p ps]; [discriminate|].
  set (default := negb (tip_cleaning o) && negb (supernode_cleaning o)
                  && bool_decide (output_file ≠ None)).
  destruct (_ && bool_decide (output_file = None)) eqn:H1; [discriminate|].
  destruct (negb _ && (0 <? threshold o)%N) eqn:H2; [discriminate|].
  destruct (negb _ && double_gt_0 (seq_depth o)) eqn:H3; [discriminate|].
  destruct (_ && negb (threshold o =? 0)%N && _) eqn:H4; [discriminate|].
  destruct (negb _ && bool_decide (len_after_path o ≠ None)) eqn:H5;
    [discriminate|].
  intros Hrun.
  assert (Hrun' :
    run = mkCleanRun
            (mkCleanOpts (tip_cleaning o || default)
               (supernode_cleaning o || default) (max_tip_len o)
               (threshold o) (seq_depth o) (dump_covgs o)
               (len_before_path o) (len_after_path o))
            output_file (p :: ps) ∧
    ∀ out, output_file = Some out → out = "-"%string ∨ fe out = false).
  { destruct output_file as [out|]; [|by injection Hrun as <-].
    destruct (negb (String.eqb out "-") && fe out) eqn:H6; [discriminate|].
    injection Hrun as <-. split; [done|]. intros ? [= <-].
    apply andb_false_iff in H6 as [H6|H6]; [left|by right].
    apply negb_false_iff in H6. by apply String.eqb_eq. }
  destruct Hrun' as [-> Hout]. clear Hrun. simpl.
  subst default.
  destruct (tip_cleaning o), (supernode_cleaning o), output_file as [out|];
    simpl in *;
    rewrite ?(bool_decide_eq_true_2 (Some out ≠ None)) in * by done;
    rewrite ?(bool_decide_eq_false_2 (@None string ≠ None)) in * by naive_solver;
    simpl in *; try discriminate;
    (split_and!; try done; try (by intros [? ?]);
     try (intros Hth; apply N.ltb_lt in Hth; congruence);
     try (intros Hd; congruence);
     try (intros Hd; rewrite Hd in *; simpl in *; try discriminate;
          split; [done|]; rewrite andb_true_r in H4;
          apply negb_false_iff in H4; by apply N.eqb_eq in H4);
     try (intros Hla; by rewrite bool_decide_eq_true_2 in H5)).
Qed.

Lemma ctx_clean_Go argv output_file fe run :
  ctx_clean argv output_file fe = Go run →
  ∃ o paths,
    flag_loop argv init_opts = Go (o, paths) ∧
    check_opts output_file fe o paths = Go run.
Proof.
  unfold CtxClean.ctx_clean.
  destruct (flag_loop argv init_opts) as [[o paths]|msg]; [|discriminate].
  simpl. intros Hrun. by exists o, paths.
Qed.

(** X1.  A command line that [ctx_clean] accepts cleans exactly when an
    output file was given with [--out], and that file does not exist
    yet unless it is [-]. *)
Theorem ctx_clean_cleans_iff_output argv output_file fe run :
  ctx_clean argv output_file fe = Go run →
  run_out_ctx_path run = output_file ∧
  (tip_cleaning (run_opts run) || supernode_cleaning (run_opts run) = true
   ↔ output_file ≠ None) ∧
  (∀ out, output_file = Some out → out = "-"%string ∨ fe out = false).
Proof.
  intros (o & paths & _ & Hchk)%ctx_clean_Go.
  apply check_opts_Go in Hchk as (_ & _ & Hout & Hclean & Hex & _).
  split_and!; [done| |done].
  rewrite Hclean. apply bool_decide_eq_true.
Qed.

(** X2.  In a command line that [ctx_clean] accepts, the tip length and
    the threshold are either not given (zero) or above one; a threshold
    or a kmer depth is only given together with supernode cleaning, and
    never both; [--len-after] is only given when something is cleaned. *)
Theorem ctx_clean_accepted_numbers argv output_file fe run :
  ctx_clean argv output_file fe = Go run →
  (max_tip_len (run_opts run) = 0 ∨ 1 < max_tip_len (run_opts run))%N ∧
  (threshold (run_opts run) = 0 ∨ 1 < threshold (run_opts run))%N ∧
  ((0 < threshold (run_opts run))%N →
   supernode_cleaning (run_opts run) = true) ∧
  (double_gt_0 (seq_depth (run_opts run)) = true →
   supernode_cleaning (run_opts run) = true ∧
   threshold (run_opts run) = 0%N) ∧
  (len_after_path (run_opts run) ≠ None →
   tip_cleaning (run_opts run) || supernode_cleaning (run_opts run) = true).
Proof.
  intros (o & paths & Hloop & Hchk)%ctx_clean_Go.
  apply flag_loop_numbers in Hloop as ((Htip & Hth & _) & _).
  apply check_opts_Go in Hchk
    as (_ & _ & _ & _ & _ & -> & -> & -> & _ & _ & -> & _ & _ & _
        & Hsn & Hkd & Hla).
  by split_and!.
Qed.

(** X3.  The graph files of a command line are what is left of [argv]
    from its first argument that does not start with [-] on: whatever
    follows that argument is taken as a file, also when it looks like a
    flag, and has no say in whether the command line is accepted. *)
Theorem ctx_clean_paths_follow_flags pre p rest output_file fe o :
  flag_loop pre init_opts = Go (o, []) →
  starts_with_dash p = false →
  ctx_clean (pre ++ p :: rest) output_file fe
  = match ctx_clean (pre ++ [p]) output_file fe with
    | Go run0 =>
      Go (mkCleanRun (run_opts run0) (run_out_ctx_path run0) (p :: rest))
    | UsageExit msg => UsageExit msg
    end.
Proof.
  intros Hpre Hp. unfold CtxClean.ctx_clean.
  rewrite !(CtxCleanFacts.flag_loop_app _ _ _ _ _ pre _ _ o Hpre).
  simpl. rewrite Hp. simpl.
  by repeat case_match.
Qed.

(** X4.  An argument of the flag loop that starts with [-] and is none
    of the flags of [ctx_clean] ends the command with the usage text. *)
Theorem ctx_clean_unknown_flag pre a rest output_file fe o :
  flag_loop pre init_opts = Go (o, []) →
  starts_with_dash a = true →
  a ∉ known_flags →
  ctx_clean (pre ++ a :: rest) output_file fe
  = UsageExit ("Unknown argument: " ++ a)%string.
Proof.
  intros Hpre Ha Hnew. unfold CtxClean.ctx_clean.
  rewrite (CtxCleanFacts.flag_loop_app _ _ _ _ _ pre _ _ o Hpre).
  simpl. rewrite Ha. simpl.
  repeat match goal with
         | |- context [String.eqb a ?f] =>
           destruct (String.eqb_spec a f) as [->|_];
             [exfalso; apply Hnew; unfold known_flags; simpl; set_solver|]
         end.
  done.
Qed.

(** X5.  A flag that takes a value and is the last argument ends the
    command with the usage text and the message of that flag. *)
Theorem ctx_clean_missing_value pre flag msg output_file fe o :
  flag_loop pre init_opts = Go (o, []) →
  (flag, msg) ∈ value_flags →
  ctx_clean (pre ++ [flag]) output_file fe = UsageExit msg.
Proof.
  intros Hpre Hflag. unfold CtxClean.ctx_clean.
  rewrite (CtxCleanFacts.flag_loop_app _ _ _ _ _ pre _ _ o Hpre).
  unfold value_flags in Hflag.
  repeat (apply elem_of_cons in Hflag as [[= -> ->]|Hflag]; [done|]).
  by apply elem_of_nil in Hflag.
Qed.

(** X6.  The default: a command line of graph files only cleans both tips
    and supernodes when an output file is given, with the tip length and
    the threshold left to be set later, and cleans nothing when none is
    given. *)
Theorem ctx_clean_no_flags p ps output_file fe :
  starts_with_dash p = false →
  double_gt_0 double_neg1 = false →
  (∀ out, output_file = Some out → out = "-"%string ∨ fe out = false) →
  ctx_clean (p :: ps) output_file fe
  = Go (mkCleanRun
          (mkCleanOpts (bool_decide (output_file ≠ None))
             (bool_decide (output_file ≠ None)) 0%N 0%N double_neg1
             None None None)
          output_file (p :: ps)).
Proof.
  intros Hp Hneg Hout. unfold CtxClean.ctx_clean. simpl. rewrite Hp. simpl.
  rewrite Hneg. destruct output_file as [out|]; simpl; [|done].
  destruct (Hout out eq_refl) as [->| ->]; [done|].
  by rewrite andb_false_r.
Qed.

End More.
(** [ctx clean --supernodes --threshold 5 in.ctx --out out.ctx]. *)
Lemma ctx_clean_cleans_iff_output_witness :
  ∃ run,
    ex_clean ["--supernodes"; "--threshold"; "5"; "in.ctx"]%string
      (Some "out.ctx"%string) (fun _ => false) = Go run ∧
    run_out_ctx_path Z run = Some "out.ctx"%string ∧
    (tip_cleaning (run_opts Z run) || supernode_cleaning (run_opts Z run)
     = true ↔ Some "out.ctx"%string ≠ None).
Proof.
  eexists. split; [vm_compute; reflexivity|].
  edestruct (ctx_clean_cleans_iff_output Z (-1) (fun d => d <=? 1)
               (fun d => 0 <? d) parse_decimal parse_decimal (fun _ => None)
               ["--supernodes"; "--threshold"; "5"; "in.ctx"]%string
               (Some "out.ctx"%string) (fun _ => false))
    as (Hout & Hclean & _); [vm_compute; reflexivity|].
  split; [exact Hout|exact Hclean].
Defined.

(** [ctx clean --tips 61 --supernodes --threshold 5 in.ctx --out out.ctx]. *)
Lemma ctx_clean_accepted_numbers_witness :
  ∃ run,
    ex_clean
      ["--tips"; "61"; "--supernodes"; "--threshold"; "5"; "in.ctx"]%string
      (Some "out.ctx"%string) (fun _ => false) = Go run ∧
    (1 < max_tip_len (run_opts Z run))%N ∧
    (1 < threshold (run_opts Z run))%N ∧
    supernode_cleaning (run_opts Z run) = true.
Proof.
  eexists. split; [vm_compute; reflexivity|].
  edestruct (ctx_clean_accepted_numbers Z (-1) (fun d => d <=? 1)
               (fun d => 0 <? d) parse_decimal parse_decimal (fun _ => None)
               ["--tips"; "61"; "--supernodes"; "--threshold"; "5";
                "in.ctx"]%string
               (Some "out.ctx"%string) (fun _ => false))
    as (Htip & Hth & Hsn & _); [vm_compute; reflexivity|].
  split_and!.
  - destruct Htip as [Htip|Htip]; [discriminate Htip|exact Htip].
  - destruct Hth as [Hth|Hth]; [discriminate Hth|exact Hth].
  - apply Hsn. reflexivity.
Defined.

(** [ctx clean --supernodes in.ctx --tips 0 --out out.ctx]: [--tips] and
    [0] are graph files. *)
Lemma ctx_clean_paths_follow_flags_witness :
  ex_clean ["--supernodes"; "in.ctx"; "--tips"; "0"]%string
    (Some "out.ctx"%string) (fun _ => false)
  = Go (mkCleanRun (mkCleanOpts false true 0%N 0%N (-1) None None None)
          (Some "out.ctx"%string) ["in.ctx"; "--tips"; "0"]%string).
Proof.
  apply (ctx_clean_paths_follow_flags Z (-1) (fun d => d <=? 1)
           (fun d => 0 <? d) parse_decimal parse_decimal (fun _ => None)
           ["--supernodes"%string] "in.ctx"%string ["--tips"; "0"]%string
           (Some "out.ctx"%string) (fun _ => false)
           (mkCleanOpts false true 0%N 0%N (-1) None None None));
    reflexivity.
Defined.

(** [ctx clean --depth 3 in.ctx]. *)
Lemma ctx_clean_unknown_flag_witness :
  ex_clean ["--depth"; "3"; "in.ctx"]%string None (fun _ => false)
  = UsageExit "Unknown argument: --depth".
Proof.
  apply (ctx_clean_unknown_flag Z (-1) (fun d => d <=? 1)
           (fun d => 0 <? d) parse_decimal parse_decimal (fun _ => None)
           [] "--depth"%string ["3"; "in.ctx"]%string None (fun _ => false)
           (mkCleanOpts false false 0%N 0%N (-1) None None None)).
  - reflexivity.
  - reflexivity.
  - apply (bool_decide_unpack _). exact I.
Defined.

(** [ctx clean --supernodes --kdepth]. *)
Lemma ctx_clean_missing_value_witness :
  ex_clean ["--supernodes"; "--kdepth"]%string None (fun _ => false)
  = UsageExit msg_kdepth.
Proof.
  apply (ctx_clean_missing_value Z (-1) (fun d => d <=? 1)
           (fun d => 0 <? d) parse_decimal parse_decimal (fun _ => None)
           ["--supernodes"%string] "--kdepth"%string msg_kdepth None
           (fun _ => false)
           (mkCleanOpts false true 0%N 0%N (-1) None None None)).
  - reflexivity.
  - apply (bool_decide_unpack _). exact I.
Defined.

(** [ctx clean in.ctx in2.ctx --out -]. *)
Lemma ctx_clean_no_flags_witness :
  ex_clean ["in.ctx"; "in2.ctx"]%string (Some "-"%string) (fun _ => true)
  = Go (mkCleanRun (mkCleanOpts true true 0%N 0%N (-1) None None None)
          (Some "-"%string) ["in.ctx"; "in2.ctx"]%string).
Proof.
  apply (ctx_clean_no_flags Z (-1) (fun d => d <=? 1)
           (fun d => 0 <? d) parse_decimal parse_decimal (fun _ => None)
           "in.ctx"%string ["in2.ctx"%string] (Some "-"%string)
           (fun _ => true)).
  - reflexivity.
  - reflexivity.
  - intros out [= <-]. left. reflexivity.
Defined.

End CtxCleanMore.

Module WalkerMore.
Import Walker WalkerSpec WalkerFacts WalkerCalls.

Local Open Scope nat_scope.

(** ** More on [graph_walker_choose] *)

Lemma candidates_at w num_next next_nodes next_bases idx nd b :
  (idx, nd, b) ∈ candidates w num_next next_nodes next_bases →
  ∃ i, idx = Z.of_nat i ∧ i < num_next ∧ nd = next_nodes !!! i ∧
       b = next_bases !!! i ∧
       db_node_has_col (db_graph w) nd (colour w) = true.
Proof.
  intros Hin. unfold candidates in Hin.
  apply list_elem_of_filter in Hin as [Hcol Hin].
  apply list_elem_of_fmap in Hin as (i & Heq & Hi).
  apply elem_of_seq in Hi. unfold next_triple in Heq.
  injection Heq as -> -> ->.
  exists i. split_and!; [done|lia|done|done|done].
Qed.

Lemma candidates_same w1 w2 num_next next_nodes next_bases :
  db_graph w1 = db_graph w2 → colour w1 = colour w2 →
  candidates w1 num_next next_nodes next_bases
  = candidates w2 num_next next_nodes next_bases.
Proof.
  intros Hg Hc. unfold candidates. apply list_filter_iff. intros t.
  unfold in_colour. by rewrite Hg, Hc.
Qed.

(** The outcomes of [graph_walker_choose] on a walker that satisfies its
    invariant, with [num_next] cells in both arrays. *)
Lemma graph_walker_choose_cases w num_next next_nodes next_bases :
  wlk_inv w →
  num_next ≤ 4 →
  num_next ≤ length next_nodes → num_next ≤ length next_bases →
  graph_walker_choose w num_next next_nodes next_bases = Ok (-1)%Z ∨
  (∃ i, graph_walker_choose w num_next next_nodes next_bases
        = Ok (Z.of_nat i) ∧
        i < num_next ∧
        (2 ≤ num_next →
         db_node_has_col (db_graph w) (next_nodes !!! i) (colour w) = true)) ∨
  (graph_walker_choose w num_next next_nodes next_bases
   = Died msg_path_corruption ∧
   2 ≤ length (candidates w num_next next_nodes next_bases) ∧
   ∃ r0, head (curr_set w) = Some r0 ∧
         ∀ idx nd,
           (idx, nd, proposes r0)
           ∉ candidates w num_next next_nodes next_bases).
Proof.
  intros Hinv Hfour Hn Hb.
  destruct (decide (num_next = 0)) as [->|H0]; [by left|].
  destruct (decide (num_next = 1)) as [->|H1].
  { right. left. exists 0. split_and!; [done|lia|lia]. }
  pose proof (graph_walker_choose_never_counter_corruption w num_next
                next_nodes next_bases) as Hnever.
  rewrite graph_walker_choose_unfold in Hnever |- * by (done || lia).
  cbv zeta in *.
  destruct (candidates w num_next next_nodes next_bases)
    as [|[[idx0 nd0] b0] [|t1 rest]] eqn:Hc; [by left| |].
  { right. left.
    destruct (candidates_at w num_next next_nodes next_bases idx0 nd0 b0)
      as (i & -> & Hi & -> & _ & Hcol); [rewrite Hc; by left|].
    exists i. by split_and!. }
  rewrite <- Hc in *.
  destruct (curr_set w) as [|r0 older]; [by left|].
  destruct (agree _ _ _); [|by left]. simpl in *.
  destruct (counts_sum _ <? _); [by left|].
  destruct (_ <? counts_sum _); [done|].
  destruct (find_base _ _) as [idx|] eqn:Hf.
  - right. left. apply find_base_Some in Hf as [nd Hin].
    apply candidates_at in Hin as (i & -> & Hi & -> & _ & Hcol).
    exists i. by split_and!.
  - right. right. split_and!; [done|rewrite Hc; simpl; lia|].
    exists r0. split; [done|]. by apply find_base_None.
Qed.

(** X7.  On a walker that satisfies its invariant, with at most four
    next nodes (the local arrays have four cells), [graph_walker_choose]
    reads no cell outside an array, and what it returns is -1 or an
    index below [num_next]; at a fork (two or more next nodes) the node
    at that index is present in the walker's colour. *)
Theorem choose_index_in_range w num_next next_nodes next_bases :
  wlk_inv w →
  num_next ≤ 4 →
  num_next ≤ length next_nodes → num_next ≤ length next_bases →
  graph_walker_choose w num_next next_nodes next_bases ≠ Undef ∧
  ∀ idx,
    graph_walker_choose w num_next next_nodes next_bases = Ok idx →
    idx = (-1)%Z ∨
    ∃ i, idx = Z.of_nat i ∧ i < num_next ∧
         (2 ≤ num_next →
          db_node_has_col (db_graph w) (next_nodes !!! i) (colour w) = true).
Proof.
  intros Hinv Hfour Hn Hb.
  destruct (graph_walker_choose_cases w num_next next_nodes next_bases
              Hinv Hfour Hn Hb) as [->|[(i & -> & Hi & Hcol)|[-> _]]].
  - split; [done|]. intros idx [= <-]. by left.
  - split; [done|]. intros idx [= <-]. right. by exists i.
  - split; [done|]. by intros idx.
Qed.

(** X8.  [graph_walker_choose] leaves through [die] only with the path
    corruption message, and only at a fork where the nucleotide that the
    oldest current path proposes is the base of no candidate of the
    walker's colour. *)
Theorem choose_dies_on_path_corruption_only w num_next next_nodes next_bases
    msg :
  wlk_inv w →
  num_next ≤ 4 →
  num_next ≤ length next_nodes → num_next ≤ length next_bases →
  graph_walker_choose w num_next next_nodes next_bases = Died msg →
  msg = msg_path_corruption ∧
  2 ≤ length (candidates w num_next next_nodes next_bases) ∧
  ∃ r0, head (curr_set w) = Some r0 ∧
        ∀ idx nd,
          (idx, nd, proposes r0)
          ∉ candidates w num_next next_nodes next_bases.
Proof.
  intros Hinv Hfour Hn Hb Hd.
  destruct (graph_walker_choose_cases w num_next next_nodes next_bases
              Hinv Hfour Hn Hb) as [Heq|[(i & Heq & _)|[Heq Hwhy]]];
    rewrite Heq in Hd; try discriminate.
  injection Hd as <-. by split.
Qed.

(** X9.  The choice depends on the graph, the colour, the current paths
    and the counter paths only: the new paths, picked up at the node the
    walker stands on, and the unused records have no say. *)
Theorem choose_ignores_new_paths w1 w2 num_next next_nodes next_bases :
  wlk_inv w1 → wlk_inv w2 →
  num_next ≤ 4 →
  num_next ≤ length next_nodes → num_next ≤ length next_bases →
  db_graph w1 = db_graph w2 → colour w1 = colour w2 →
  curr_set w1 = curr_set w2 → counter_set w1 = counter_set w2 →
  graph_walker_choose w1 num_next next_nodes next_bases
  = graph_walker_choose w2 num_next next_nodes next_bases.
Proof.
  intros Hinv1 Hinv2 Hfour Hn Hb Hg Hcol Hc Hk.
  destruct (decide (num_next = 0)) as [->|H0]; [done|].
  destruct (decide (num_next = 1)) as [->|H1]; [done|].
  rewrite !graph_walker_choose_unfold by (done || lia).
  rewrite (candidates_same w1 w2) by done.
  unfold marks. by rewrite Hc, Hk.
Qed.

(** X10.  At a fork with two or more candidates in the walker's colour, a
    choice other than -1 is only made when the current and the counter
    paths together advocate at least as many nucleotides as there are
    candidates. *)
Theorem choose_needs_evidence w num_next next_nodes next_bases idx :
  wlk_inv w →
  num_next ≤ 4 →
  2 ≤ num_next →
  num_next ≤ length next_nodes → num_next ≤ length next_bases →
  2 ≤ length (candidates w num_next next_nodes next_bases) →
  graph_walker_choose w num_next next_nodes next_bases = Ok idx →
  idx ≠ (-1)%Z →
  length (candidates w num_next next_nodes next_bases) ≤ num_advocated w.
Proof.
  intros Hinv Hfour Hnum Hn Hb Hcands Heq Hidx.
  destruct (Nat.le_gt_cases
              (length (candidates w num_next next_nodes next_bases))
              (num_advocated w)) as [|Hfew]; [done|].
  rewrite (choose_fewer_no_choice w num_next next_nodes next_bases) in Heq
    by done.
  congruence.
Qed.

(** X11.  At a fork with two or more candidates in the walker's colour,
    when the current paths of the greatest [pos] all propose one
    nucleotide, the current and the counter paths together advocate as
    many nucleotides as there are candidates, and that nucleotide is
    the base of a candidate, [graph_walker_choose] returns the index of
    a candidate with that base. *)
Theorem choose_makes_choice w num_next next_nodes next_bases r0 older idx0
    nd0 :
  wlk_inv w →
  num_next ≤ 4 →
  2 ≤ num_next →
  num_next ≤ length next_nodes → num_next ≤ length next_bases →
  2 ≤ length (candidates w num_next next_nodes next_bases) →
  curr_set w = r0 :: older →
  (∀ r, r ∈ older → fp_pos r = fp_pos r0 → proposes r = proposes r0) →
  length (candidates w num_next next_nodes next_bases) = num_advocated w →
  (idx0, nd0, proposes r0) ∈ candidates w num_next next_nodes next_bases →
  ∃ i,
    graph_walker_choose w num_next next_nodes next_bases = Ok (Z.of_nat i) ∧
    i < num_next ∧ next_bases !!! i = proposes r0 ∧
    db_node_has_col (db_graph w) (next_nodes !!! i) (colour w) = true.
Proof.
  intros Hinv Hfour Hnum Hn Hb Hcands Hcs Hsame Hadv Hin.
  pose proof (inv_oldest_first _ Hinv) as Hsorted.
  apply StronglySorted_app_1_l in Hsorted. rewrite Hcs in Hsorted.
  apply StronglySorted_cons in Hsorted as [Hle Hsorted].
  assert (Hagree : agree older (fp_pos r0) (proposes r0) = true)
    by (by apply agree_oldest_first).
  rewrite (choose_enough_picks w num_next next_nodes next_bases r0 older)
    by (done || lia).
  destruct (find_base _ _) as [idx|] eqn:Hf.
  - apply find_base_Some in Hf as [nd Hfound].
    apply candidates_at in Hfound as (i & -> & Hi & -> & Hbase & Hcol).
    exists i. by split_and!.
  - exfalso. by apply (find_base_None _ _ Hf idx0 nd0).
Qed.

(** ** Anchoring and moving *)

Lemma graph_walker_init_ignores_num_new w g col nd o n :
  graph_walker_init (set_num_new n w) g col nd o
  = graph_walker_init w g col nd o.
Proof. by destruct w. Qed.

Lemma graph_walker_init_alloc_spec w0 g col nd o :
  graph_ok g →
  ∃ w',
    graph_walker_init (graph_walker_alloc w0) g col nd o = Ok w' ∧
    wlk_inv w' ∧
    curr_set w' = [] ∧
    new_set w' = fetched <$> picked col o (db_node_paths g nd) ∧
    counter_set w' = [] ∧
    db_graph w' = g ∧ colour w' = col ∧ node w' = nd ∧ orient w' = o ∧
    bkmer w' = db_graph_oriented_bkmer g nd o.
Proof.
  intros Hg.
  replace (graph_walker_alloc w0)
    with (set_num_new (num_new w0) (graph_walker_alloc (set_num_new 0 w0)))
    by (by destruct w0).
  rewrite graph_walker_init_ignores_num_new.
  destruct (graph_walker_alloc_idle (set_num_new 0 w0) eq_refl)
    as [Hidle Hinv].
  exact (graph_walker_init_spec _ g col nd o Hinv Hidle Hg).
Qed.

(** X12.  [graph_walker_init] right after [graph_walker_alloc] returns,
    whatever the struct held before the allocation: the walker stands
    at the node, in the orientation asked, with the paths stored there
    in the colour and the orientation asked as its new paths, and no
    current or counter path; every record is in one partition. *)
Theorem init_after_alloc w0 g col nd o :
  graph_ok g →
  ∃ w',
    graph_walker_init (graph_walker_alloc w0) g col nd o = Ok w' ∧
    wlk_inv w' ∧ conserved w' ∧
    curr_set w' = [] ∧ counter_set w' = [] ∧
    new_set w'
    = fetched <$> filter (fun e => path_store_has_col e col = true ∧
                                   o = pe_orient e) (db_node_paths g nd) ∧
    db_graph w' = g ∧ colour w' = col ∧ node w' = nd ∧ orient w' = o ∧
    bkmer w' = db_graph_oriented_bkmer g nd o.
Proof.
  intros Hg.
  destruct (graph_walker_init_alloc_spec w0 g col nd o Hg)
    as (w' & Heq & Hinv' & ? & ? & ? & ? & ? & ? & ? & ?).
  exists w'. split_and!; try done. unfold conserved. by apply wlk_inv_count.
Qed.

(** X13.  After [graph_walker_finish] the walker can be anchored again:
    [graph_walker_init] passes its assertions and returns, with the
    paths of the new anchor as new paths and no other path. *)
Theorem init_after_finish w g col nd o :
  wlk_inv w → graph_ok g →
  ∃ w1 w',
    graph_walker_finish w = Ok w1 ∧
    graph_walker_init w1 g col nd o = Ok w' ∧
    wlk_inv w' ∧ conserved w' ∧
    curr_set w' = [] ∧ counter_set w' = [] ∧
    new_set w'
    = fetched <$> filter (fun e => path_store_has_col e col = true ∧
                                   o = pe_orient e) (db_node_paths g nd) ∧
    db_graph w' = g ∧ colour w' = col ∧ node w' = nd ∧ orient w' = o.
Proof.
  intros Hinv Hg.
  destruct (graph_walker_finish_idle w (inv_pool _ Hinv))
    as (w1 & Hfin & Hidle & Hinv1 & Hmax & _).
  destruct (graph_walker_init_spec w1 g col nd o Hinv1 Hidle Hg)
    as (w' & Heq & Hinv' & ? & ? & ? & ? & ? & ? & ? & ?).
  exists w1, w'. split_and!; try done.
  unfold conserved. by apply wlk_inv_count.
Qed.

Lemma last_nuc_shift_add bk base :
  binary_kmer_last_nuc (binary_kmer_left_shift_add bk base) = base.
Proof.
  unfold binary_kmer_last_nuc, binary_kmer_left_shift_add. apply last_last.
Qed.

(** X14.  A jump that is not the result of a fork keeps every path, none
    of them moved on: the new paths join the current ones behind them,
    the counter paths stay, and the paths of the node reached, in the
    walker's colour and the new orientation, are the new paths. *)
Theorem force_jump_without_fork w nd bk :
  wlk_inv w → graph_ok (db_graph w) →
  ∃ w',
    graph_traverse_force_jump w nd bk false = Ok w' ∧
    wlk_inv w' ∧ conserved w' ∧
    curr_set w' = curr_set w ++ new_set w ∧
    counter_set w' = counter_set w ∧
    new_set w'
    = fetched <$> filter (fun e => path_store_has_col e (colour w) = true ∧
                                   orient w' = pe_orient e)
                    (db_node_paths (db_graph w) nd) ∧
    node w' = nd ∧ bkmer w' = bk ∧
    orient w' = db_node_get_orientation bk (db_node_bkmer (db_graph w) nd) ∧
    db_graph w' = db_graph w ∧ colour w' = colour w.
Proof.
  intros Hinv Hg.
  destruct (graph_traverse_force_jump_spec w nd bk false Hinv Hg)
    as (w' & Heq & Hinv' & ? & ? & ? & ? & ? & ? & ? & ?).
  exists w'. split_and!; try done. unfold conserved. by apply wlk_inv_count.
Qed.

(** The outcomes of [graph_traverse_nodes]. *)
Lemma graph_traverse_nodes_cases w num_next nodes bases :
  wlk_inv w → graph_ok (db_graph w) →
  num_next ≤ 4 →
  num_next ≤ length nodes → num_next ≤ length bases →
  (graph_walker_choose w num_next nodes bases = Ok (-1)%Z ∧
   graph_traverse_nodes w num_next nodes bases = Ok (false, w)) ∨
  (∃ i w',
     graph_walker_choose w num_next nodes bases = Ok (Z.of_nat i) ∧
     i < num_next ∧
     graph_traverse_force w (nodes !!! i) (bases !!! i) (1 <? num_next)
     = Ok w' ∧
     graph_traverse_nodes w num_next nodes bases = Ok (true, w') ∧
     wlk_inv w' ∧ db_graph w' = db_graph w ∧ colour w' = colour w ∧
     node w' = nodes !!! i ∧
     bkmer w' = binary_kmer_left_shift_add (bkmer w) (bases !!! i) ∧
     curr_set w'
     = (if 1 <? num_next
        then advance <$> filter (follows (bases !!! i))
                           (curr_set w ++ new_set w)
        else curr_set w ++ new_set w) ∧
     counter_set w'
     = (if 1 <? num_next
        then advance <$> filter (follows (bases !!! i)) (counter_set w)
        else counter_set w)) ∨
  (graph_walker_choose w num_next nodes bases = Died msg_path_corruption ∧
   graph_traverse_nodes w num_next nodes bases = Died msg_path_corruption).
Proof.
  intros Hinv Hg Hfour Hn Hb. unfold graph_traverse_nodes.
  destruct (graph_walker_choose_cases w num_next nodes bases Hinv Hfour Hn Hb)
    as [Heq|[(i & Heq & Hi & _)|[Heq _]]]; rewrite Heq; simpl.
  - by left.
  - right. left.
    destruct (Z.eqb_spec (Z.of_nat i) (-1)); [lia|].
    rewrite Nat2Z.id.
    rewrite !load_lt by lia. simpl.
    unfold graph_traverse_force.
    destruct (graph_traverse_force_jump_spec w (nodes !!! i)
                (binary_kmer_left_shift_add (bkmer w) (bases !!! i))
                (1 <? num_next) Hinv Hg)
      as (w' & Hj & Hinv' & Hc & Hk & _ & ? & ? & _ & ? & ?).
    rewrite last_nuc_shift_add in Hc, Hk.
    exists i, w'. rewrite Hj. by split_and!.
  - right. by right.
Qed.

(** X15.  [graph_traverse_nodes] on a walker that satisfies its invariant
    reads no cell outside an array.  It returns false, the walker left
    as it was, exactly when [graph_walker_choose] has no choice;
    otherwise it returns true with the walker moved to the node chosen,
    its k-mer shifted by the base chosen, the paths slimmed as after a
    fork when more than one next node was passed, and the invariant
    kept.  It only leaves through the [die] of [graph_walker_choose]. *)
Theorem traverse_nodes_moves_or_stays w num_next nodes bases :
  wlk_inv w → graph_ok (db_graph w) →
  num_next ≤ 4 →
  num_next ≤ length nodes → num_next ≤ length bases →
  match graph_traverse_nodes w num_next nodes bases with
  | Ok (false, w') =>
    w' = w ∧ graph_walker_choose w num_next nodes bases = Ok (-1)%Z
  | Ok (true, w') =>
    ∃ i, graph_walker_choose w num_next nodes bases = Ok (Z.of_nat i) ∧
         i < num_next ∧
         wlk_inv w' ∧ conserved w' ∧
         node w' = nodes !!! i ∧
         bkmer w' = binary_kmer_left_shift_add (bkmer w) (bases !!! i) ∧
         curr_set w'
         = (if 1 <? num_next
            then advance <$> filter (follows (bases !!! i))
                               (curr_set w ++ new_set w)
            else curr_set w ++ new_set w)
  | Died msg =>
    msg = msg_path_corruption ∧
    graph_walker_choose w num_next nodes bases = Died msg_path_corruption
  | Undef => False
  end.
Proof.
  intros Hinv Hg Hfour Hn Hb.
  destruct (graph_traverse_nodes_cases w num_next nodes bases Hinv Hg Hfour
              Hn Hb)
    as [[Hch ->]|[(i & w' & Hch & Hi & _ & -> & Hinv' & _ & _ & ? & ? & ? & _)
                 |[Hch ->]]].
  - done.
  - exists i. split_and!; try done. unfold conserved. by apply wlk_inv_count.
  - done.
Qed.

(** ** The pool *)

Lemma add_unused_sizes k :
  ∀ i w w',
    add_unused k i w = Ok w' →
    max_num_paths w' = max_num_paths w ∧ max_path_len w' = max_path_len w.
Proof.
  induction k as [|k IH]; intros i w w' Heq; simpl in Heq.
  - by injection Heq as <-.
  - destruct (store _ _ _) as [up| |]; simpl in Heq; [|done..].
    by apply IH in Heq as [-> ->].
Qed.

Lemma resize_paths_sizes w len w1 :
  resize_paths w len = Ok w1 →
  max_num_paths w1
  = (if num_unused w =? 0 then max_num_paths w * 2 else max_num_paths w) ∧
  max_path_len w1
  = (if max_path_len w <? N.to_nat len then ROUNDUP2POW (N.to_nat len)
     else max_path_len w).
Proof.
  unfold resize_paths. intros Heq.
  set (wa := if num_unused w =? 0 then _ else w) in Heq.
  set (wb := if max_path_len wa <? N.to_nat len then _ else wa) in Heq.
  assert (Hb : max_num_paths wb
               = (if num_unused w =? 0 then max_num_paths w * 2
                  else max_num_paths w) ∧
               max_path_len wb
               = (if max_path_len w <? N.to_nat len
                  then ROUNDUP2POW (N.to_nat len) else max_path_len w)).
  { subst wb wa. destruct (num_unused w =? 0); simpl;
      by destruct (max_path_len w <? N.to_nat len). }
  destruct (max_num_paths w <? max_num_paths wb).
  - apply add_unused_sizes in Heq as [-> ->]. exact Hb.
  - by injection Heq as <-.
Qed.

Lemma sets_resized rc rk w w1 :
  pool_ok rc rk w →
  rc = num_curr w + num_new w → rk = num_counter w →
  take rc (curr_paths w1) = take rc (curr_paths w) →
  take rk (counter_paths w1) = take rk (counter_paths w) →
  (∀ p, p < max_num_paths w → allpaths w1 !!! p = allpaths w !!! p) →
  num_curr w1 = num_curr w → num_new w1 = num_new w →
  num_counter w1 = num_counter w →
  curr_set w1 = curr_set w ∧ new_set w1 = new_set w ∧
  counter_set w1 = counter_set w.
Proof.
  intros Hp -> -> Htc Htk Hall Hc Hn Hk.
  assert (Hcp : curr_ptrs w1 = curr_ptrs w).
  { unfold curr_ptrs. rewrite Hc.
    apply (f_equal (take (num_curr w))) in Htc.
    by rewrite !take_take, Nat.min_l in Htc by lia. }
  assert (Hnp : new_ptrs w1 = new_ptrs w).
  { unfold new_ptrs. rewrite Hc, Hn.
    by rewrite !take_drop_commute, Htc. }
  assert (Hkp : counter_ptrs w1 = counter_ptrs w).
  { unfold counter_ptrs. by rewrite Hk. }
  unfold curr_set, new_set, counter_set. rewrite Hcp, Hnp, Hkp.
  split_and!; apply (deref_resized _ _ w w1 _ Hp Hall).
  - unfold curr_ptrs. intros p Hin. apply elem_of_app. left.
    rewrite <- take_take_drop. apply elem_of_app. by left.
  - unfold new_ptrs. intros p Hin. apply elem_of_app. left.
    rewrite <- take_take_drop. apply elem_of_app. by right.
  - unfold counter_ptrs. intros p Hin. apply elem_of_app. by right.
Qed.

(** X16.  [resize_paths] on a walker whose records are all accounted for
    returns with room for a path of [new_len] bases: the number of
    records doubles when none was unused and stays otherwise, the
    length of a slot becomes [ROUNDUP2POW(new_len)] when it was shorter
    and stays otherwise, an unused record is at hand, and the current,
    new and counter paths are as they were. *)
Theorem resize_paths_makes_room w new_len :
  wlk_inv w →
  ∃ w1,
    resize_paths w new_len = Ok w1 ∧
    max_num_paths w1
    = (if num_unused w =? 0 then max_num_paths w * 2 else max_num_paths w) ∧
    max_path_len w1
    = (if max_path_len w <? N.to_nat new_len
       then ROUNDUP2POW (N.to_nat new_len) else max_path_len w) ∧
    0 < num_unused w1 ∧
    N.to_nat new_len ≤ max_path_len w1 ∧
    curr_set w1 = curr_set w ∧ new_set w1 = new_set w ∧
    counter_set w1 = counter_set w ∧
    wlk_inv w1.
Proof.
  intros Hinv. pose proof (inv_pool _ Hinv) as Hp.
  destruct (resize_paths_spec _ _ w new_len Hp)
    as (w1 & Heq & Hp1 & Hroom & Hlen & Htc & Htk & Hall & _ & Hc & Hn & Hk).
  destruct (resize_paths_sizes w new_len w1 Heq) as [Hmn Hml].
  destruct (sets_resized _ _ w w1 Hp eq_refl eq_refl Htc Htk Hall Hc Hn Hk)
    as (Hcs & Hns & Hks).
  exists w1. split_and!; try done.
  split.
  - by rewrite Hc, Hn, Hk.
  - rewrite Hcs, Hns, Hks. apply (inv_paths _ Hinv).
  - rewrite Hcs, Hns. apply (inv_oldest_first _ Hinv).
Qed.

(** X17.  [pickup_paths] returns the number of entries of the chain that
    are in the walker's colour and have the orientation asked, and
    appends them, in the order of the chain, at [pos = 0], to the
    counter paths ([counter] true) or behind the current paths
    ([counter] false, on a walker without new paths); the other paths
    stay, and the four counts still add up to the number of records. *)
Theorem pickup_paths_takes_matching chain o counter w :
  wlk_inv w →
  (counter = false → num_new w = 0) →
  ∃ w',
    pickup_paths chain w o counter
    = Ok (length (filter (fun e => path_store_has_col e (colour w) = true ∧
                                   o = pe_orient e) chain), w') ∧
    conserved w' ∧
    (if counter then curr_set w' = curr_set w ∧ new_set w' = new_set w
     else counter_set w' = counter_set w ∧ new_set w' = []) ∧
    (if counter then counter_set w' else curr_set w')
    = (if counter then counter_set w else curr_set w)
      ++ (fetched <$> filter (fun e => path_store_has_col e (colour w) = true ∧
                                       o = pe_orient e) chain).
Proof.
  intros Hinv Hnew. pose proof (inv_pool _ Hinv) as Hp.
  destruct (pickup_paths_spec chain o counter w _ _ Hp)
    as (w' & Heq & Hp' & Hnum & Hoth & Hnn & _ & Hc & Hk).
  { destruct counter; simpl; [done|]. rewrite Hnew by done. lia. }
  fold (picked (colour w) o chain).
  set (m := picked (colour w) o chain) in *.
  exists w'. split; [done|].
  pose proof (pool_count _ _ _ Hp') as Hcount.
  destruct counter; simpl in *.
  - assert (Hfit : num_curr w' + num_new w' ≤ length (curr_paths w')).
    { rewrite (pool_len_curr _ _ _ Hp'), Hoth, Hnn.
      apply (pool_fit_curr _ _ _ Hp'). }
    rewrite app_nil_r in Hc.
    destruct (split_curr_new w' (curr_set w) (new_set w)) as [Hcs Hns].
    { done. }
    { unfold curr_set, deref, curr_ptrs. rewrite length_fmap, length_take.
      pose proof (pool_len_curr _ _ _ Hp). pose proof (pool_fit_curr _ _ _ Hp).
      lia. }
    { rewrite Hoth, Hnn, Hc. symmetry. apply curr_new_set. }
    split_and!; [unfold conserved; lia|done|done|].
    unfold counter_set, counter_ptrs. rewrite Hnum. exact Hk.
  - rewrite Hnew in * by done. rewrite Nat.add_0_r in *.
    rewrite app_nil_r in Hk.
    split_and!.
    + unfold conserved. lia.
    + unfold counter_set, counter_ptrs. by rewrite Hoth.
    + unfold new_set, new_ptrs. by rewrite Hnn.
    + unfold curr_set, curr_ptrs. rewrite Hnum. exact Hc.
Qed.

(** ** Sequences of calls *)

Lemma run_call_phase ph c w :
  phase_inv ph w → call_ok ph c →
  (∃ w', run_call c w = Ok w' ∧ phase_inv (next_phase ph c) w') ∨
  (run_call c w = Died msg_path_corruption ∧
   ∃ num_next nodes bases, c = TraverseNodes num_next nodes bases).
Proof.
  intros Hph Hok. destruct c as [g col nd o| |nd bk fork|nd base fork
                                 |prev_nodes prev_orients num_prev
                                 |num_next nodes bases]; simpl in *.
  - left. destruct Hok as [Hne Hg]. destruct ph; [|done|]; simpl in Hph.
    + destruct Hph as [w0 ->].
      destruct (graph_walker_init_alloc_spec w0 g col nd o Hg)
        as (w' & Heq & Hinv' & _ & _ & _ & Hg' & _).
      exists w'. split; [done|]. split; [done|]. by rewrite Hg'.
    + destruct Hph as [Hinv Hidle].
      destruct (graph_walker_init_spec w g col nd o Hinv Hidle Hg)
        as (w' & Heq & Hinv' & _ & _ & _ & Hg' & _).
      exists w'. split; [done|]. split; [done|]. by rewrite Hg'.
  - left. assert (Hinv : wlk_inv w) by (destruct ph; [done|..]; by destruct Hph).
    destruct (graph_walker_finish_idle w (inv_pool _ Hinv))
      as (w' & Heq & Hidle & Hinv' & _).
    by exists w'.
  - left. subst ph. destruct Hph as [Hinv Hg].
    destruct (graph_traverse_force_jump_spec w nd bk fork Hinv Hg)
      as (w' & Heq & Hinv' & _ & _ & _ & _ & _ & _ & Hg' & _).
    exists w'. split; [done|]. split; [done|]. by rewrite Hg'.
  - left. subst ph. destruct Hph as [Hinv Hg]. unfold graph_traverse_force.
    destruct (graph_traverse_force_jump_spec w nd
                (binary_kmer_left_shift_add (bkmer w) base) fork Hinv Hg)
      as (w' & Heq & Hinv' & _ & _ & _ & _ & _ & _ & Hg' & _).
    exists w'. split; [done|]. split; [done|]. by rewrite Hg'.
  - left. destruct Hok as (-> & Hn & Ho). destruct Hph as [Hinv Hg].
    destruct (graph_walker_add_counter_paths_spec w prev_nodes prev_orients
                num_prev Hinv Hg Hn Ho)
      as (w' & Heq & Hinv' & _ & _ & _ & _ & _ & (Hg' & _)).
    exists w'. split; [done|]. split; [done|]. by rewrite Hg'.
  - destruct Hok as (-> & Hfour & Hn & Hb). destruct Hph as [Hinv Hg].
    destruct (graph_traverse_nodes_cases w num_next nodes bases Hinv Hg Hfour
                Hn Hb)
      as [[_ ->]|[(i & w' & _ & _ & _ & -> & Hinv' & Hg' & _)|[_ ->]]];
      simpl.
    + left. by exists w.
    + left. exists w'. split; [done|]. split; [done|]. by rewrite Hg'.
    + right. split; [done|]. by exists num_next, nodes, bases.
Qed.

Lemma run_calls_phase cs :
  ∀ ph w,
    phase_inv ph w → calls_ok ph cs →
    (∃ w', run_calls cs w = Ok w' ∧
           phase_inv (foldl next_phase ph cs) w') ∨
    (run_calls cs w = Died msg_path_corruption ∧
     ∃ num_next nodes bases, TraverseNodes num_next nodes bases ∈ cs).
Proof.
  induction cs as [|c cs IH]; intros ph w Hph Hok; simpl in *.
  - left. by exists w.
  - destruct Hok as [Hc Hcs].
    destruct (run_call_phase ph c w Hph Hc)
      as [(w1 & -> & Hph1)|[-> (n & ns & bs & ->)]]; simpl.
    + destruct (IH _ w1 Hph1 Hcs) as [?|[-> (n & ns & bs & Hin)]];
        [by left|].
      right. split; [done|]. exists n, ns, bs. by right.
    + right. split; [done|]. exists n, ns, bs. by left.
Qed.

(** X18.  Take a struct of any content, allocate it with
    [graph_walker_alloc] and make on it any sequence of calls that
    starts with [graph_walker_init], anchors again only after
    [graph_walker_finish], and passes arrays with the cells it counts.
    No call reads or writes a cell outside an array; the only way out
    other than by returning is the path corruption [die] of
    [graph_walker_choose] under [graph_traverse_nodes]; and after the
    last call every record is in exactly one of the four partitions,
    the four counts adding up to [max_num_paths]. *)
Theorem calls_keep_the_pool w0 c cs :
  calls_ok Allocated (c :: cs) →
  match run_calls (c :: cs) (graph_walker_alloc w0) with
  | Ok w' => wlk_inv w' ∧ conserved w'
  | Died msg =>
    msg = msg_path_corruption ∧
    ∃ num_next nodes bases, TraverseNodes num_next nodes bases ∈ c :: cs
  | Undef => False
  end.
Proof.
  intros Hok.
  destruct (run_calls_phase (c :: cs) Allocated (graph_walker_alloc w0))
    as [(w' & -> & Hph)|[-> Hwhy]]; [by exists w0|done| |done].
  assert (Hinv : wlk_inv w').
  { assert (Hne : foldl next_phase Allocated (c :: cs) ≠ Allocated).
    { simpl. destruct Hok as [Hc _].
      assert (Hc1 : next_phase Allocated c ≠ Allocated)
        by (destruct c; simpl in *; try done; by destruct Hc).
      clear Hc Hph. revert Hc1. generalize (next_phase Allocated c).
      induction cs as [|c' cs IH]; intros ph Hne; [done|]. simpl.
      apply IH. destruct c'; simpl; done. }
    destruct (foldl next_phase Allocated (c :: cs)); [done|..];
      by destruct Hph. }
  split; [done|]. unfold conserved. by apply wlk_inv_count.
Qed.

End WalkerMore.

Module WalkerDataFacts.
Import Walker WalkerSpec WalkerFacts WalkerData WalkerMore.

Local Open Scope nat_scope.

Lemma memcpy_within_spec {A} (data : list A) dst src n :
  src + n ≤ length data → dst + n ≤ length data →
  src + n ≤ dst ∨ dst + n ≤ src →
  ∃ data',
    memcpy_within data dst src n = Ok data' ∧
    length data' = length data ∧
    (∀ j, j < n → data' !! (dst + j) = data !! (src + j)) ∧
    (∀ k, k < dst ∨ dst + n ≤ k → data' !! k = data !! k).
Proof.
  intros Hs Hd Hapart. unfold memcpy_within.
  rewrite decide_True by done. eexists. split; [done|].
  assert (Hl1 : length (take dst data) = dst) by (rewrite length_take; lia).
  assert (Hl2 : length (take n (drop src data)) = n)
    by (rewrite length_take, length_drop; lia).
  split_and!.
  - rewrite !length_app, Hl1, Hl2, length_drop. lia.
  - intros j Hj. rewrite lookup_app_r by lia. rewrite Hl1.
    rewrite lookup_app_l by lia.
    rewrite lookup_take_lt by lia. rewrite lookup_drop. f_equal. lia.
  - intros k [Hk|Hk].
    + rewrite lookup_app_l by lia. by rewrite lookup_take_lt by lia.
    + rewrite lookup_app_r by lia. rewrite Hl1.
      rewrite lookup_app_r by lia. rewrite Hl2.
      rewrite lookup_drop. f_equal. lia.
Qed.

Lemma shift_rows_spec pl ml :
  2 * pl ≤ ml →
  ∀ i data,
    S i * ml ≤ length data →
    ∃ data',
      shift_rows i pl ml data = Ok data' ∧
      length data' = length data ∧
      (∀ r j, r ≤ i → j < pl → data' !! (r * ml + j) = data !! (r * pl + j)) ∧
      (∀ k, S i * ml ≤ k → data' !! k = data !! k).
Proof.
  intros Hgrow. induction i as [|i IH]; intros data Hlen.
  - exists data. split_and!; [done..| |done].
    intros r j Hr Hj. by replace r with 0 by lia.
  - cbn [shift_rows].
    destruct (memcpy_within_spec data (S i * ml) (S i * pl) pl)
      as (d1 & -> & Hl1 & Hrow & Hframe); [nia..|].
    cbn [bind].
    destruct (IH d1) as (data' & -> & Hl' & Hrows & Hframe'); [nia|].
    exists data'. split_and!; [done|congruence| |].
    + intros r j Hr Hj. destruct (decide (r = S i)) as [->|Hne].
      * rewrite Hframe' by nia. by apply Hrow.
      * rewrite Hrows by lia. apply Hframe. left. nia.
    + intros k Hk. rewrite Hframe' by nia. apply Hframe. right. nia.
Qed.

Lemma resize_data_spec data pn pl mn ml :
  length data = pn * pl →
  0 < pn → pn ≤ mn → pl ≤ ml → (pl < ml → 2 * pl ≤ ml) →
  ∃ data',
    resize_data data pn pl mn ml = Ok data' ∧
    length data' = mn * ml ∧
    ∀ i j, i < pn → j < pl → data' !! (i * ml + j) = data !! (i * pl + j).
Proof.
  intros Hlen Hpos Hnum Hle Hgrow. unfold resize_data, realloc2.
  set (data1 := resize (mn * ml) NucA data).
  assert (Hl1 : length data1 = mn * ml) by apply length_resize.
  assert (Hold : ∀ k, k < length data → data1 !! k = data !! k).
  { intros k Hk. subst data1. apply lookup_resize; [nia|done]. }
  destruct (Nat.ltb_spec pl ml) as [Hlt|Hge].
  - destruct pn as [|i]; [lia|].
    destruct (shift_rows_spec pl ml (Hgrow Hlt) i data1)
      as (data' & -> & Hl' & Hrows & _); [nia|].
    exists data'. split_and!; [done|congruence|].
    intros r j Hr Hj. rewrite Hrows by lia. apply Hold. nia.
  - exists data1. split_and!; [done..|].
    intros i j Hi Hj. replace ml with pl by lia.
    apply Hold. nia.
Qed.

(** X19.  The buffer of bases survives [resize_paths]: when the slots
    stay as long as they were, or grow to at least twice their length
    (as they do, slot lengths being powers of two), no [memcpy] of the
    shift reaches outside the buffer or copies between overlapping
    ranges, and afterwards the slot of every record, at its new place,
    starts with the bases its old slot held. *)
Theorem resize_data_keeps_slots data prev_num_paths prev_path_len
    max_num_paths max_path_len :
  length data = prev_num_paths * prev_path_len →
  0 < prev_num_paths → prev_num_paths ≤ max_num_paths →
  prev_path_len ≤ max_path_len →
  (prev_path_len < max_path_len → 2 * prev_path_len ≤ max_path_len) →
  ∃ data',
    resize_data data prev_num_paths prev_path_len max_num_paths max_path_len
    = Ok data' ∧
    length data' = max_num_paths * max_path_len ∧
    ∀ i j, i < prev_num_paths → j < prev_path_len →
           data' !! (i * max_path_len + j) = data !! (i * prev_path_len + j).
Proof.
  apply resize_data_spec.
Qed.

Lemma ROUNDUP2POW_doubles a n :
  2 ^ a < n → 2 * 2 ^ a ≤ ROUNDUP2POW n.
Proof.
  intros Hlt. unfold ROUNDUP2POW.
  assert (Hlog : a < Nat.log2_up n) by (apply Nat.log2_up_lt_pow2; lia).
  change (2 * 2 ^ a) with (2 ^ S a).
  apply Nat.pow_le_mono_r; lia.
Qed.

(** X20.  On a walker whose slot length is a power of two (2 after
    [graph_walker_alloc]), [resize_paths] leaves a slot length that is a
    power of two again, and the bases in the slot of every record are
    those it held before, whatever the length asked for. *)
Theorem resize_paths_keeps_bases w new_len data a :
  wlk_inv w →
  max_path_len w = 2 ^ a →
  length data = max_num_paths w * max_path_len w →
  ∃ w1 data',
    resize_paths w new_len = Ok w1 ∧
    resize_data data (max_num_paths w) (max_path_len w)
      (max_num_paths w1) (max_path_len w1) = Ok data' ∧
    (∃ b, max_path_len w1 = 2 ^ b) ∧
    length data' = max_num_paths w1 * max_path_len w1 ∧
    ∀ i j, i < max_num_paths w → j < max_path_len w →
           data' !! (i * max_path_len w1 + j)
           = data !! (i * max_path_len w + j).
Proof.
  intros Hinv Hpow Hlen. pose proof (inv_pool _ Hinv) as Hp.
  destruct (resize_paths_spec _ _ w new_len Hp) as (w1 & Heq & _).
  destruct (resize_paths_sizes w new_len w1 Heq) as [Hmn Hml].
  assert (Hsz : max_num_paths w ≤ max_num_paths w1 ∧
                max_path_len w ≤ max_path_len w1 ∧
                (max_path_len w < max_path_len w1 →
                 2 * max_path_len w ≤ max_path_len w1) ∧
                ∃ b, max_path_len w1 = 2 ^ b).
  { rewrite Hmn, Hml. split; [destruct (num_unused w =? 0); lia|].
    destruct (Nat.ltb_spec (max_path_len w) (N.to_nat new_len)) as [Hlt|Hge].
    - rewrite Hpow in *.
      pose proof (ROUNDUP2POW_doubles a (N.to_nat new_len) Hlt).
      split_and!; [lia|lia|]. by eexists.
    - split_and!; [lia|lia|]. by exists a. }
  destruct Hsz as (Hn & Hl & Hgrow & Hpow1).
  destruct (resize_data_spec data (max_num_paths w) (max_path_len w)
              (max_num_paths w1) (max_path_len w1) Hlen
              (pool_pos _ _ _ Hp) Hn Hl Hgrow)
    as (data' & Hd & Hl' & Hrows).
  by exists w1, data'.
Qed.

End WalkerDataFacts.

Module WalkerNeighboursFacts.
Import Walker WalkerSpec WalkerFacts WalkerMore WalkerNeighbours.

Local Open Scope nat_scope.

Lemma flip_orients_four orients :
  length orients = 4 →
  flip_orients 4 0 orients = Ok (opposite_orientation <$> orients).
Proof.
  intros Hlen.
  destruct orients as [|a [|b [|c [|d [|e rest]]]]]; try discriminate.
  reflexivity.
Qed.

Section NeighboursFacts.

Variable db_graph_next_nodes :
  dBGraph → BinaryKmer → Orientation → Edges →
  nat * list hkey_t * list Orientation * list Nucleotide.
Variable nuc_orient_to_edge : Nucleotide → Orientation → Edges.

Local Abbreviation graph_traverse := (graph_traverse db_graph_next_nodes).
Local Abbreviation graph_walker_node_add_counter_paths :=
  (graph_walker_node_add_counter_paths db_graph_next_nodes
     nuc_orient_to_edge).

(** X21.  [graph_traverse] looks up the next nodes of the walker's k-mer
    along the edges of its orientation and hands them to
    [graph_traverse_nodes]: with at most four neighbours in arrays of
    four cells no cell outside an array is touched; false comes with
    the walker as it was; true comes with the walker on one of the
    nodes found, its k-mer shifted by the base that leads there, and
    its invariant kept. *)
Theorem graph_traverse_moves_to_a_neighbour w :
  fills_four db_graph_next_nodes →
  wlk_inv w → graph_ok (db_graph w) →
  let '(num_next, nodes, _, bases) :=
    db_graph_next_nodes (db_graph w) (bkmer w) FORWARD
      (edges_with_orientation (db_node_union_edges (db_graph w) (node w))
         (orient w)) in
  match graph_traverse w with
  | Ok (false, w') => w' = w
  | Ok (true, w') =>
    wlk_inv w' ∧ conserved w' ∧
    ∃ i, i < num_next ∧ node w' = nodes !!! i ∧
         bkmer w' = binary_kmer_left_shift_add (bkmer w) (bases !!! i)
  | Died msg => msg = msg_path_corruption
  | Undef => False
  end.
Proof.
  intros Hfour Hinv Hg. unfold WalkerNeighbours.graph_traverse.
  specialize (Hfour (db_graph w) (bkmer w) FORWARD
                (edges_with_orientation
                   (db_node_union_edges (db_graph w) (node w)) (orient w))).
  destruct (db_graph_next_nodes _ _ _ _) as [[[n nodes] orients] bases].
  destruct Hfour as (Hn & Hln & Hlo & Hlb).
  rewrite flip_orients_four by done. cbn [bind].
  destruct (graph_traverse_nodes_cases w n nodes bases Hinv Hg Hn)
    as [[_ ->]|[(i & w' & _ & Hi & _ & -> & Hinv' & _ & _ & ? & ? & _)
               |[_ ->]]]; [lia..| | |].
  - done.
  - split_and!; [done| |by exists i]. unfold conserved.
    by apply wlk_inv_count.
  - done.
Qed.

(** X22.  [graph_walker_node_add_counter_paths] looks up the nodes that
    lead to [node] other than along [prev_nuc], turns their orientations
    round, and takes their paths as counter paths: with at most four
    such nodes in arrays of four cells it returns, the current and the
    new paths as they were, the counter paths followed by those taken
    from each of the nodes found, and the invariant kept. *)
Theorem node_add_counter_paths_takes_from_predecessors w nd o prev_nuc :
  fills_four db_graph_next_nodes →
  wlk_inv w → graph_ok (db_graph w) →
  let '(num_prev, prev_nodes, prev_orients, _) :=
    db_graph_next_nodes (db_graph w) (db_node_bkmer (db_graph w) nd)
      (opposite_orientation o)
      (N.ldiff (db_node_union_edges (db_graph w) nd)
         (nuc_orient_to_edge (binary_nuc_complement prev_nuc)
            (opposite_orientation o))) in
  ∃ w',
    graph_walker_node_add_counter_paths w nd o prev_nuc = Ok w' ∧
    wlk_inv w' ∧ conserved w' ∧
    curr_set w' = curr_set w ∧ new_set w' = new_set w ∧
    counter_set w'
    = counter_set w
      ++ counters_from (db_graph w) (colour w)
           (take num_prev
              (zip prev_nodes (opposite_orientation <$> prev_orients))).
Proof.
  intros Hfour Hinv Hg.
  unfold WalkerNeighbours.graph_walker_node_add_counter_paths.
  specialize (Hfour (db_graph w) (db_node_bkmer (db_graph w) nd)
                (opposite_orientation o)
                (N.ldiff (db_node_union_edges (db_graph w) nd)
                   (nuc_orient_to_edge (binary_nuc_complement prev_nuc)
                      (opposite_orientation o)))).
  destruct (db_graph_next_nodes _ _ _ _) as [[[n nodes] orients] bases].
  destruct Hfour as (Hn & Hln & Hlo & Hlb).
  rewrite flip_orients_four by done. cbn [bind].
  destruct (graph_walker_add_counter_paths_spec w nodes
              (opposite_orientation <$> orients) n Hinv Hg)
    as (w' & Heq & Hinv' & Hc & Hnw & Hk & _).
  { lia. }
  { rewrite length_fmap. lia. }
  exists w'. split_and!; try done. unfold conserved. by apply wlk_inv_count.
Qed.

End NeighboursFacts.

End WalkerNeighboursFacts.

Module FileUtilFacts.
Import FileUtil.

Local Open Scope nat_scope.

(** X23.  [futil_safe_fread] never goes on after a short read: it hands
    over exactly the next [size] bytes of the file and leaves the file
    behind them when that many can be had, and otherwise leaves through
    [die], reporting the number of bytes expected and the smaller
    number received. *)
Theorem futil_safe_fread_all_or_die (fh : FILE) (size : nat)
    (field path : string) :
  (size ≤ length fh ∧
   futil_safe_fread fh size field path
   = ReadOk (take size fh, drop size fh)) ∨
  (length fh < size ∧
   futil_safe_fread fh size field path
   = ReadDied field size (length fh) path).
Proof.
  unfold futil_safe_fread, fread. rewrite length_take.
  destruct (Nat.le_gt_cases size (length fh)) as [Hle|Hgt].
  - left. split; [done|]. rewrite Nat.min_l by done.
    by rewrite Nat.eqb_refl.
  - right. split; [done|]. rewrite Nat.min_r by lia.
    by destruct (Nat.eqb_spec (length fh) size); [lia|].
Qed.

(** X24.  The macro [SAFE_READ] with [fatal] set is [futil_safe_fread],
    as the header says; with [fatal] clear it makes the function that
    holds it return -1 where [futil_safe_fread] dies, and goes on with
    the same bytes where that goes on. *)
Theorem SAFE_READ_is_futil_safe_fread (fh : FILE) (size : nat)
    (field path : string) :
  SAFE_READ fh size field path true = futil_safe_fread fh size field path ∧
  SAFE_READ fh size field path false
  = match futil_safe_fread fh size field path with
    | ReadDied _ _ _ _ => ReturnMinus1
    | r => r
    end.
Proof.
  unfold SAFE_READ, futil_safe_fread, fread.
  by destruct (_ =? _).
Qed.

End FileUtilFacts.

Module BitStringFacts.
Import Walker BitString.

Local Open Scope nat_scope.

Lemma byte_tostr_length k byte : length (byte_tostr k byte) = k.
Proof. induction k as [|k IH]; simpl; [done|by rewrite IH]. Qed.

Lemma byte_tostr_lookup k byte :
  ∀ p, p < k →
    byte_tostr k byte !! p
    = Some (if Z.testbit byte (Z.of_nat (k - 1 - p)) then "1"%char
            else "0"%char).
Proof.
  induction k as [|k IH]; intros p Hp; [lia|].
  destruct p as [|p]; simpl.
  - f_equal. rewrite !Nat.sub_0_r, Z.shiftl_1_l.
    destruct (Z.testbit byte (Z.of_nat k)) eqn:Hb.
    + destruct (Z.eqb_spec (Z.land byte (2 ^ Z.of_nat k)) 0) as [E|_];
        [|done].
      apply (f_equal (fun z => Z.testbit z (Z.of_nat k))) in E.
      rewrite Z.land_spec, Hb, Z.pow2_bits_true, Z.bits_0 in E by lia.
      done.
    + destruct (Z.eqb_spec (Z.land byte (2 ^ Z.of_nat k)) 0) as [_|E];
        [done|].
      exfalso. apply E. apply Z.bits_inj'. intros n Hn.
      rewrite Z.land_spec, Z.bits_0, Z.pow2_bits_eqb by lia.
      destruct (Z.eqb_spec (Z.of_nat k) n) as [<-|_];
        [by rewrite Hb|apply andb_false_r].
  - rewrite IH by lia. by replace (k - 0 - S p) with (k - 1 - p) by lia.
Qed.

Lemma bitarr_rows_spec arr :
  ∀ k, k ≤ length arr →
    ∃ s, bitarr_rows k arr = Ok s ∧ length s = 8 * k ∧
         ∀ p, p < 8 * k →
           s !! p
           = Some (if Z.testbit (arr !!! (k - 1 - p / 8))
                         (Z.of_nat (7 - p mod 8))
                   then "1"%char else "0"%char).
Proof.
  induction k as [|k IH]; intros Hk.
  - exists []. split_and!; [done..|]. intros p Hp. lia.
  - destruct IH as (rest & Hrest & Hlen & Hbits); [lia|].
    cbn [bitarr_rows]. rewrite WalkerFacts.load_lt by lia. cbn [bind].
    rewrite Hrest. cbn [bind]. eexists. split; [done|]. split.
    + rewrite length_app, byte_tostr_length. lia.
    + intros p Hp. destruct (decide (p < 8)) as [Hlo|Hhi].
      * rewrite lookup_app_l by (rewrite byte_tostr_length; lia).
        rewrite byte_tostr_lookup by lia.
        rewrite Nat.div_small, Nat.mod_small by lia.
        by replace (S k - 1 - 0) with k by lia.
      * rewrite lookup_app_r by (rewrite byte_tostr_length; lia).
        rewrite byte_tostr_length, Hbits by lia.
        assert (Hd : p `div` 8 = S ((p - 8) `div` 8) ∧
                     p `mod` 8 = (p - 8) `mod` 8).
        { replace p with (p - 8 + 1 * 8) at 1 3 by lia.
          rewrite Nat.div_add, Nat.Div0.mod_add by lia. lia. }
        destruct Hd as [-> ->].
        by replace (S k - 1 - S ((p - 8) `div` 8))
          with (k - 1 - (p - 8) `div` 8) by lia.
Qed.

(** X25.  [bitarr_tostr] on an array of at least [len] bytes writes
    [8 * len] characters, the last byte first and in each byte the
    highest bit first: the character at place [p] is ['1'] when bit
    [7 - p mod 8] of byte [len - 1 - p / 8] is set, and ['0'] when it
    is not. *)
Theorem bitarr_tostr_bits arr len :
  len ≤ length arr →
  ∃ s, bitarr_tostr arr len = Ok s ∧ length s = 8 * len ∧
       ∀ p, p < 8 * len →
         s !! p
         = Some (if Z.testbit (arr !!! (len - 1 - p / 8))
                       (Z.of_nat (7 - p mod 8))
                 then "1"%char else "0"%char).
Proof. apply bitarr_rows_spec. Qed.

(** The two bytes 0x01 0x80 give "1000000000000001". *)
Lemma bitarr_tostr_bits_witness :
  ∃ s, bitarr_tostr [1; 128]%Z 2 = Ok s ∧ length s = 16 ∧
       s !! 0 = Some "1"%char ∧ s !! 1 = Some "0"%char.
Proof.
  destruct (bitarr_tostr_bits [1; 128]%Z 2 (Nat.le_refl 2))
    as (s & Heq & Hlen & Hbits).
  exists s. split_and!; [exact Heq|exact Hlen|..].
  - apply (Hbits 0). apply Nat.lt_0_succ.
  - apply (Hbits 1). repeat constructor.
Defined.

End BitStringFacts.

Module WalkerMoreExamples.
Import Walker WalkerSpec WalkerFacts WalkerCalls WalkerMore Examples
  ExampleFacts ForkExamples ForkExampleFacts.

Local Open Scope nat_scope.

(** The fork {A, C} behind node 7, with the counter paths of the
    predecessors 4 and 6. *)
Lemma choose_index_in_range_witness :
  graph_walker_choose ex_w3 2 [2%N; 3%N] [NucA; NucC] ≠ Undef ∧
  ∀ idx,
    graph_walker_choose ex_w3 2 [2%N; 3%N] [NucA; NucC] = Ok idx →
    idx = (-1)%Z ∨
    ∃ i, idx = Z.of_nat i ∧ i < 2 ∧
         (2 ≤ 2 →
          db_node_has_col (db_graph ex_w3) ([2%N; 3%N] !!! i) (colour ex_w3)
          = true).
Proof.
  apply (choose_index_in_range ex_w3 2 [2%N; 3%N] [NucA; NucC] ex_w3_inv);
    [repeat constructor|apply Nat.le_refl..].
Defined.

(** The next nodes are reached along C and G, and the only current path
    proposes A. *)
Lemma choose_dies_on_path_corruption_only_witness :
  graph_walker_choose ex_w3 2 [2%N; 3%N] [NucC; NucG]
  = Died msg_path_corruption ∧
  ∃ r0, head (curr_set ex_w3) = Some r0 ∧
        ∀ idx nd,
          (idx, nd, proposes r0)
          ∉ candidates ex_w3 2 [2%N; 3%N] [NucC; NucG].
Proof.
  assert (Hd : graph_walker_choose ex_w3 2 [2%N; 3%N] [NucC; NucG]
               = Died msg_path_corruption) by (vm_compute; reflexivity).
  split; [exact Hd|].
  assert (H4 : 2 ≤ 4) by (repeat constructor).
  exact (proj2 (proj2 (choose_dies_on_path_corruption_only ex_w3 2
                         [2%N; 3%N] [NucC; NucG] msg_path_corruption
                         ex_w3_inv H4 (Nat.le_refl 2) (Nat.le_refl 2) Hd))).
Defined.

(** Two walkers at a fork {A, C}, both with the current path [A, G] and
    the counter paths [C] and [T, C]: one stands on node 7 and has no
    new path, the other stands on node 2 and has the new path [T].
    Both read their paths, and both choose the A extension. *)
Lemma choose_ignores_new_paths_witness :
  curr_set ex_w3 = [mkFollowPath [NucA; NucG] 0%N 2%N] ∧
  new_set ex_w3 = [] ∧
  new_set ex_side = [mkFollowPath [NucT] 0%N 1%N] ∧
  graph_walker_choose ex_w3 2 [2%N; 3%N] [NucA; NucC] = Ok 0%Z ∧
  graph_walker_choose ex_w3 2 [2%N; 3%N] [NucA; NucC]
  = graph_walker_choose ex_side 2 [2%N; 3%N] [NucA; NucC].
Proof.
  assert (H4 : 2 ≤ 4) by (repeat constructor).
  split_and!; [vm_compute; reflexivity..|].
  apply (choose_ignores_new_paths ex_w3 ex_side 2 [2%N; 3%N] [NucA; NucC]
           ex_w3_inv (proj1 ex_side_ok) H4 (Nat.le_refl 2) (Nat.le_refl 2)).
  - vm_compute. reflexivity.
  - vm_compute. reflexivity.
  - vm_compute. reflexivity.
  - vm_compute. reflexivity.
Defined.

(** Two candidates, and the nucleotides A and C advocated. *)
Lemma choose_needs_evidence_witness :
  length (candidates ex_w3 2 [2%N; 3%N] [NucA; NucC]) ≤ num_advocated ex_w3.
Proof.
  assert (H4 : 2 ≤ 4) by (repeat constructor).
  apply (choose_needs_evidence ex_w3 2 [2%N; 3%N] [NucA; NucC] 0%Z
           ex_w3_inv H4 (Nat.le_refl 2) (Nat.le_refl 2) (Nat.le_refl 2)).
  - replace (length (candidates ex_w3 2 [2%N; 3%N] [NucA; NucC])) with 2
      by (vm_compute; reflexivity).
    apply Nat.le_refl.
  - vm_compute. reflexivity.
  - discriminate.
Defined.

(** A struct whose [num_new] holds 7 when it is allocated. *)
Lemma init_after_alloc_witness :
  ∃ w',
    graph_walker_init (graph_walker_alloc (set_num_new 7 ex_blank))
      ex_graph 0 1%N FORWARD = Ok w' ∧
    conserved w' ∧
    new_set w' = [mkFollowPath [NucA; NucG] 0%N 2%N].
Proof.
  destruct (init_after_alloc (set_num_new 7 ex_blank) ex_graph 0 1%N FORWARD
              ex_graph_ok)
    as (w' & Heq & _ & Hcons & _ & _ & Hn & _).
  exists w'. split_and!; [exact Heq|exact Hcons|].
  rewrite Hn. vm_compute. reflexivity.
Defined.

(** The walker at the fork is released and anchored at node 1 again. *)
Lemma init_after_finish_witness :
  ∃ w1 w',
    graph_walker_finish ex_w3 = Ok w1 ∧
    graph_walker_init w1 ex_graph 0 1%N FORWARD = Ok w' ∧
    conserved w' ∧
    new_set w' = [mkFollowPath [NucA; NucG] 0%N 2%N].
Proof.
  destruct (init_after_finish ex_w3 ex_graph 0 1%N FORWARD ex_w3_inv
              ex_graph_ok)
    as (w1 & w' & Hfin & Heq & _ & Hcons & _ & _ & Hn & _).
  exists w1, w'. split_and!; [exact Hfin|exact Heq|exact Hcons|].
  rewrite Hn. vm_compute. reflexivity.
Defined.

(** From node 1 to node 7: the new path [A, G] becomes current, at
    [pos = 0] still. *)
Lemma force_jump_without_fork_witness :
  ∃ w',
    graph_traverse_force_jump ex_w1 7%N [NucA; NucC; NucA] false = Ok w' ∧
    curr_set w' = [mkFollowPath [NucA; NucG] 0%N 2%N] ∧
    counter_set w' = [] ∧ new_set w' = [].
Proof.
  destruct (force_jump_without_fork ex_w1 7%N [NucA; NucC; NucA]
              ex_w1_inv ex_w1_graph)
    as (w' & Heq & _ & _ & Hc & Hk & Hn & _ & _ & Ho & _).
  exists w'. split_and!; [exact Heq|..].
  - rewrite Hc. vm_compute. reflexivity.
  - rewrite Hk. vm_compute. reflexivity.
  - rewrite Hn, Ho. vm_compute. reflexivity.
Defined.

(** At the fork {A, C} the walker moves along A to node 2. *)
Lemma traverse_nodes_moves_or_stays_witness :
  ∃ w',
    graph_traverse_nodes ex_w3 2 [2%N; 3%N] [NucA; NucC] = Ok (true, w') ∧
    node w' = 2%N ∧ conserved w'.
Proof.
  assert (H4 : 2 ≤ 4) by (repeat constructor).
  pose proof (traverse_nodes_moves_or_stays ex_w3 2 [2%N; 3%N] [NucA; NucC]
                ex_w3_inv ex_w3_graph H4 (Nat.le_refl 2) (Nat.le_refl 2))
    as H.
  assert (Hch : graph_walker_choose ex_w3 2 [2%N; 3%N] [NucA; NucC]
                = Ok 0%Z) by (vm_compute; reflexivity).
  destruct (graph_traverse_nodes ex_w3 2 [2%N; 3%N] [NucA; NucC])
    as [[[|] w']|msg|].
  - destruct H as (i & Hi & _ & _ & Hcons & Hnd & _).
    exists w'. split_and!; [reflexivity| |exact Hcons].
    rewrite Hch in Hi. apply Ok_inj in Hi.
    destruct i as [|i]; [exact Hnd|discriminate Hi].
  - destruct H as [_ H]. rewrite Hch in H. discriminate H.
  - destruct H as [_ H]. rewrite Hch in H. discriminate H.
  - destruct H.
Defined.

(** A path of five bases is to be stored: the slots grow to eight. *)
Lemma resize_paths_makes_room_witness :
  ∃ w1,
    resize_paths ex_w3 5%N = Ok w1 ∧
    max_num_paths w1 = 4 ∧ max_path_len w1 = 8 ∧
    counter_set w1 = counter_set ex_w3.
Proof.
  destruct (resize_paths_makes_room ex_w3 5%N ex_w3_inv)
    as (w1 & Heq & Hmn & Hml & _ & _ & _ & _ & Hk & _).
  exists w1. split_and!; [exact Heq| | |exact Hk].
  - rewrite Hmn. vm_compute. reflexivity.
  - rewrite Hml. vm_compute. reflexivity.
Defined.

(** The chain of node 6, picked up as counter paths. *)
Lemma pickup_paths_takes_matching_witness :
  ∃ w',
    pickup_paths (db_node_paths ex_graph 6%N) ex_w2 FORWARD true
    = Ok (2, w') ∧
    conserved w' ∧
    counter_set w'
    = [mkFollowPath [NucT; NucC] 0%N 2%N; mkFollowPath [NucG] 0%N 1%N].
Proof.
  destruct (pickup_paths_takes_matching (db_node_paths ex_graph 6%N) FORWARD
              true ex_w2 ex_w2_inv)
    as (w' & Heq & Hcons & _ & Hk); [discriminate|].
  exists w'. split_and!; [|exact Hcons|].
  - rewrite Heq. f_equal.
  - rewrite Hk. vm_compute. reflexivity.
Defined.

(** A walk from node 1 over the fork at node 7 and back to node 1, on a
    struct whose [num_new] holds 7 when it is allocated. *)
Lemma calls_keep_the_pool_witness :
  match
    run_calls
      [Init ex_graph 0 1%N FORWARD;
       ForceJump 7%N [NucA; NucC; NucA] false;
       AddCounterPaths [4%N; 6%N] [FORWARD; FORWARD] 2;
       TraverseNodes 2 [2%N; 3%N] [NucA; NucC];
       Finish;
       Init ex_graph 0 1%N FORWARD]
      (graph_walker_alloc (set_num_new 7 ex_blank))
  with
  | Ok w' => wlk_inv w' ∧ conserved w'
  | Died msg =>
    msg = msg_path_corruption ∧
    ∃ num_next nodes bases,
      TraverseNodes num_next nodes bases
      ∈ [Init ex_graph 0 1%N FORWARD;
         ForceJump 7%N [NucA; NucC; NucA] false;
         AddCounterPaths [4%N; 6%N] [FORWARD; FORWARD] 2;
         TraverseNodes 2 [2%N; 3%N] [NucA; NucC];
         Finish;
         Init ex_graph 0 1%N FORWARD]
  | Undef => False
  end.
Proof.
  apply (calls_keep_the_pool (set_num_new 7 ex_blank)).
  simpl. split_and!; try done; try apply ex_graph_ok;
    try apply Nat.le_refl; repeat constructor.
Defined.

(** The current path [A, G] proposes A, the counter paths advocate C, and
    the candidates are reached along A and C. *)
Lemma choose_makes_choice_witness :
  ∃ i,
    graph_walker_choose ex_w3 2 [2%N; 3%N] [NucA; NucC] = Ok (Z.of_nat i) ∧
    i < 2 ∧ [NucA; NucC] !!! i = NucA.
Proof.
  assert (H4 : 2 ≤ 4) by (repeat constructor).
  destruct (choose_makes_choice ex_w3 2 [2%N; 3%N] [NucA; NucC]
              (mkFollowPath [NucA; NucG] 0%N 2%N) [] 0%Z 2%N ex_w3_inv
              H4 (Nat.le_refl 2) (Nat.le_refl 2) (Nat.le_refl 2))
    as (i & Heq & Hi & Hb & _).
  - replace (length (candidates ex_w3 2 [2%N; 3%N] [NucA; NucC])) with 2
      by (vm_compute; reflexivity).
    apply Nat.le_refl.
  - vm_compute. reflexivity.
  - intros r Hr. by apply elem_of_nil in Hr.
  - vm_compute. reflexivity.
  - replace (candidates ex_w3 2 [2%N; 3%N] [NucA; NucC])
      with [(0%Z, 2%N, NucA); (1%Z, 3%N, NucC)] by (vm_compute; reflexivity).
    apply list_elem_of_here.
  - exists i. split_and!; [exact Heq|exact Hi|exact Hb].
Defined.

End WalkerMoreExamples.

Module MoreExampleFacts.
Import Walker WalkerSpec WalkerFacts WalkerData WalkerNeighbours WalkerMore
  WalkerDataFacts WalkerNeighboursFacts Examples ExampleFacts MoreExamples.

Local Open Scope nat_scope.

(** Two slots of two bases grow to four bases each. *)
Lemma resize_data_keeps_slots_witness :
  ∃ data',
    resize_data [NucA; NucC; NucG; NucT] 2 2 2 4 = Ok data' ∧
    length data' = 2 * 4 ∧
    ∀ i j, i < 2 → j < 2 →
           data' !! (i * 4 + j) = [NucA; NucC; NucG; NucT] !! (i * 2 + j).
Proof.
  apply (resize_data_keeps_slots [NucA; NucC; NucG; NucT] 2 2 2 4).
  - reflexivity.
  - apply Nat.lt_0_succ.
  - apply Nat.le_refl.
  - repeat constructor.
  - intros _. apply Nat.le_refl.
Defined.

(** The walker at the fork, its four slots of two bases, and a path of
    five bases to come. *)
Lemma resize_paths_keeps_bases_witness :
  ∃ w1 data',
    resize_paths ex_w3 5%N = Ok w1 ∧
    resize_data (replicate 8 NucG) (max_num_paths ex_w3) (max_path_len ex_w3)
      (max_num_paths w1) (max_path_len w1) = Ok data' ∧
    (∃ b, max_path_len w1 = 2 ^ b) ∧
    length data' = max_num_paths w1 * max_path_len w1.
Proof.
  destruct (resize_paths_keeps_bases ex_w3 5%N (replicate 8 NucG) 1 ex_w3_inv)
    as (w1 & data' & Heq & Hd & Hpow & Hlen & _).
  - vm_compute. reflexivity.
  - vm_compute. reflexivity.
  - exists w1, data'. split_and!; assumption.
Defined.

Lemma ex_next_nodes_four : fills_four ex_next_nodes.
Proof.
  intros g bk o e. destruct o; simpl; split_and!; (reflexivity || lia).
Qed.

(** At the fork the walker finds the nodes 2 and 3 and moves on. *)
Lemma graph_traverse_moves_to_a_neighbour_witness :
  ∃ w',
    graph_traverse ex_next_nodes ex_w3 = Ok (true, w') ∧
    conserved w' ∧ (node w' = 2%N ∨ node w' = 3%N).
Proof.
  pose proof (graph_traverse_moves_to_a_neighbour ex_next_nodes ex_w3
                ex_next_nodes_four ex_w3_inv ex_w3_graph) as H.
  assert (Hev : ∃ w', graph_traverse ex_next_nodes ex_w3 = Ok (true, w'))
    by (eexists; vm_compute; reflexivity).
  destruct Hev as [w' Hev]. rewrite Hev in H.
  cbv beta iota delta [ex_next_nodes] in H.
  destruct H as (_ & Hcons & i & Hi & Hnd & _).
  exists w'. split_and!; [exact Hev|exact Hcons|].
  destruct i as [|[|i]]; [by left|by right|].
  exfalso. lia.
Defined.

(** The walker at node 7 takes the counter paths of the nodes 4 and 6
    that lead there. *)
Lemma node_add_counter_paths_takes_from_predecessors_witness :
  ∃ w',
    graph_walker_node_add_counter_paths ex_next_nodes ex_edge_bit ex_w2
      7%N FORWARD NucT = Ok w' ∧
    conserved w' ∧
    counter_set w'
    = [mkFollowPath [NucC] 0%N 1%N; mkFollowPath [NucT; NucC] 1%N 2%N].
Proof.
  pose proof (node_add_counter_paths_takes_from_predecessors ex_next_nodes
                ex_edge_bit ex_w2 7%N FORWARD NucT
                ex_next_nodes_four ex_w2_inv ex_w2_graph) as H.
  change (opposite_orientation FORWARD) with REVERSE in H.
  change (ex_next_nodes (db_graph ex_w2) (db_node_bkmer (db_graph ex_w2) 7%N)
            REVERSE
            (N.ldiff (db_node_union_edges (db_graph ex_w2) 7%N)
               (ex_edge_bit (binary_nuc_complement NucT) REVERSE)))
    with (2, [4%N; 6%N; 0%N; 0%N], [REVERSE; REVERSE; FORWARD; FORWARD],
          [NucG; NucT; NucA; NucA]) in H.
  cbv beta iota in H.
  destruct H as (w' & Heq & _ & Hcons & _ & _ & Hk).
  exists w'. split_and!; [exact Heq|exact Hcons|].
  rewrite Hk. vm_compute. reflexivity.
Defined.

End MoreExampleFacts.
